(** * Facetrack: the visitor session tracker

    A shallow embedding of [state_tracker.VisitorTracker.update_frame] and of
    the [database] functions it calls, of [_save_cropped_face] and of the
    processing loop of [main], followed by the properties of the entry/exit
    state machine.

    Conventions of the embedding.
    - Python dictionaries are finite maps ([gmap]), Python sets are finite
      sets ([gset]).  A [for] loop over a dictionary or a set is a fold over
      the enumeration of its items; every property below is stated per
      track id or per visitor id and uses of the enumeration only that it
      lists every item once.
    - Clock readings ([time.time()]), the configured timeout and similarity
      scores are exact rationals.
    - The collaborators (embedder, PostgreSQL, the file system, the clock)
      are an environment record [Env] that is supplied afresh for every
      frame; a call that can raise or return [None] in Python is a field
      that answers with an [option] or a [bool].  Within one frame a
      collaborator gives the same answer to the same question.
    - Exceptions.  [find_visitor], [get_embedding] and [_save_cropped_face]
      catch what their collaborators raise.  [register_new_visitor] and
      [log_event] catch it too, but their handlers call [conn.rollback()],
      which raises in its turn when the connection is gone; that exception
      leaves [update_frame] in the middle of a loop and is caught by [main],
      which goes on with the next frame and the state as it was left.  A
      function that can raise returns, next to its result, whether it raised;
      a loop whose body can raise stops at the first iteration that does
      ([for_each]).
    - An event is emitted when [update_frame] runs its emission code for it
      (it calls [_save_cropped_face] and, with an image path, [log_event]);
      the [Outcome] of an emission tells whether the event reached the
      Events table. *)

From stdpp Require Import gmap list strings.
From Stdlib Require Import Ascii QArith Lqa.

Local Open Scope Q_scope.

(** ** Data *)

(** A track id is the integer ByteTrack hands out ([tracks.id.int()]). *)
Abbreviation TrackId := Z.

(** A visitor id is the UUID issued by the Visitors table, identified with
    its 128 bit value.  A [uuid.UUID] object is always truthy, so the tests
    [if visitor_id:] of the source amount to [is not None]. *)
Abbreviation VisitorId := N.

(** The image region [frame[y1:y2, x1:x2]].  The tracker never looks inside
    a crop; it only stores it and hands it to the embedder and to
    [cv2.imwrite]. *)
Definition Crop : Type := N.

(** The 512-dimensional vector returned by InsightFace.  It is only ever
    passed on to the database. *)
Definition Embedding : Type := N.

(** ['entry'] and ['exit']. *)
Inductive EventKind := Entry | Exit.

#[global] Instance EventKind_eq_dec : EqDecision EventKind.
Proof. solve_decision. Defined.

(** [self.active_tracks[track_id]] *)
Record TrackData := { visitor_id : VisitorId; last_crop : Crop }.

(** [self.pending_exit[visitor_id]]; the key ['last_crop'] of the source is
    the field [exit_crop]. *)
Record ExitData := { timestamp : Q; exit_crop : Crop }.

(** A row of the Events table: visitor, event type and the image file that
    was written from the crop. *)
Record EventRow := { ev_visitor : VisitorId; ev_type : EventKind; ev_image : Crop }.

(** The fields of [self] that [update_frame] reads and writes, together with
    the two tables behind [db_conn]. *)
Record State := {
  active_tracks : gmap Z TrackData;
  pending_exit : gmap N ExitData;
  logged_entry_this_visit : gset N;
  Visitors : list (N * Embedding);
  Events : list EventRow }.

(** [self.similarity_threshold] and [self.exit_timeout]; [__init__] reads
    them from the configuration and nothing assigns them afterwards. *)
Record Config := { similarity_threshold : Q; exit_timeout : Q }.

(** [config.get('similarity_threshold', 0.6)], [config.get('exit_timeout_seconds', 3.0)] *)
Definition default_config : Config :=
  {| similarity_threshold := 6 # 10; exit_timeout := 3 |}.

(** The state [__init__] builds, in front of a database with the given
    Visitors rows. *)
Definition init (rows : list (N * Embedding)) : State :=
  {| active_tracks := ∅; pending_exit := ∅; logged_entry_this_visit := ∅;
     Visitors := rows; Events := [] |}.

(** What happened to one emission of an event: [_save_cropped_face]
    returned [None]; the image was written but the INSERT of [log_event]
    raised and was rolled back; the INSERT raised and so did the rollback,
    so that the exception left [log_event] and [update_frame]; or the row
    was committed. *)
Inductive Outcome := ImageFailed | StoreFailed | StoreRaised | Recorded.

#[global] Instance Outcome_eq_dec : EqDecision Outcome.
Proof. solve_decision. Defined.

(** One run of the emission code of [update_frame] (lines 150-154 for an
    entry, 185-189 for an exit): the tracker decided to log the event and
    called [_save_cropped_face]. *)
Record Emission := {
  em_visitor : VisitorId;
  em_kind : EventKind;
  em_crop : Crop;
  em_outcome : Outcome }.

(** The collaborators during one frame. *)
Record Env := {
  (** [FaceEmbedder.get_embedding]: [None] when no face is found or the
      model raises. *)
  get_embedding : Crop → option Embedding;
  (** [1 - (embedding <=> %s)], computed by pgvector. *)
  similarity : Embedding → Embedding → Q;
  (** The SELECT of [find_visitor] runs without raising. *)
  select_ok : Embedding → bool;
  (** The id the INSERT of [register_new_visitor] returns, or [None] when
      it raises or returns no row. *)
  insert_visitor : list (N * Embedding) → Embedding → option N;
  (** Asked when that INSERT gave no id: [register_new_visitor] still
      returns, that is, its handler was not entered or the
      [conn.rollback()] in it (line 40) did not raise. *)
  rollback_visitor_ok : list (N * Embedding) → Embedding → bool;
  (** [_save_cropped_face] returns a path: [cv2.imwrite] did not raise. *)
  imwrite_ok : Crop → VisitorId → EventKind → bool;
  (** The INSERT of [log_event] commits. *)
  insert_event_ok : VisitorId → EventKind → bool;
  (** Asked when that INSERT raised: the [conn.rollback()] in the handler
      of [log_event] (line 93) does not raise. *)
  rollback_event_ok : VisitorId → EventKind → bool;
  (** [time.time()] at line 171, when the lost track is processed *)
  mark_time : TrackId → Q;
  (** [time.time()] at line 176 *)
  sweep_time : Q }.

(** Field updates of [State]. *)
Definition set_active (a : gmap Z TrackData) (s : State) : State :=
  {| active_tracks := a; pending_exit := pending_exit s;
     logged_entry_this_visit := logged_entry_this_visit s;
     Visitors := Visitors s; Events := Events s |}.

Definition set_pending (p : gmap N ExitData) (s : State) : State :=
  {| active_tracks := active_tracks s; pending_exit := p;
     logged_entry_this_visit := logged_entry_this_visit s;
     Visitors := Visitors s; Events := Events s |}.

Definition set_logged (l : gset N) (s : State) : State :=
  {| active_tracks := active_tracks s; pending_exit := pending_exit s;
     logged_entry_this_visit := l;
     Visitors := Visitors s; Events := Events s |}.

Definition set_visitors (v : list (N * Embedding)) (s : State) : State :=
  {| active_tracks := active_tracks s; pending_exit := pending_exit s;
     logged_entry_this_visit := logged_entry_this_visit s;
     Visitors := v; Events := Events s |}.

Definition set_events (e : list EventRow) (s : State) : State :=
  {| active_tracks := active_tracks s; pending_exit := pending_exit s;
     logged_entry_this_visit := logged_entry_this_visit s;
     Visitors := Visitors s; Events := e |}.

(** A [for] loop whose body can raise.  The body returns the store it leaves
    and whether it raised; the loop stops at the first iteration that
    raises, with the store of that iteration. *)
Fixpoint for_each {A B : Type} (body : A → B → A * bool) (a : A) (l : list B) : A * bool :=
  match l with
  | [] => (a, false)
  | x :: rest => let r := body a x in if r.2 then r else for_each body r.1 rest
  end.

(** ** database.py *)

(** [x > y] on rationals. *)
Definition Qgtb (x y : Q) : bool := negb (Qle_bool x y).

(** The rows the WHERE clause of [find_visitor] keeps, each with its
    similarity to the probe. *)
Definition candidates (env : Env) (e : Embedding) (threshold : Q)
    (rows : list (N * Embedding)) : list (N * Q) :=
  filter (λ r : N * Q, Qle_bool threshold r.2)
         ((λ r : N * Embedding, (r.1, similarity env e r.2)) <$> rows).

(** [ORDER BY similarity DESC LIMIT 1]: a row of greatest similarity.  SQL
    leaves the choice among equal scores open; here the earliest row wins. *)
Fixpoint top_row (rows : list (N * Q)) : option (N * Q) :=
  match rows with
  | [] => None
  | r :: rest =>
      match top_row rest with
      | Some r' => if Qle_bool r'.2 r.2 then Some r else Some r'
      | None => Some r
      end
  end.

(** [find_visitor(conn, embedding, threshold)]: [(visitor_id, similarity)],
    or [None] for the pair [(None, 0)] that the source returns when no row
    qualifies or the query raises.  Its handler (lines 74-76) makes no call
    that could raise. *)
Definition find_visitor (env : Env) (rows : list (N * Embedding))
    (e : Embedding) (threshold : Q) : option (N * Q) :=
  if select_ok env e then top_row (candidates env e threshold rows) else None.

(** Modelled from the spec: the key constraint of the Visitors table, whose
    schema (db_schema.sql) is not among the sources.  A visitor identity is
    globally unique and never reused, so an INSERT that would repeat a
    stored id is rejected. *)
Definition id_is_free (rows : list (N * Embedding)) (v : N) : bool :=
  bool_decide (v ∉ rows.*1).

(** [register_new_visitor(conn, embedding)]: the new id and the table with
    the new row, or [None] and the table as it was; and whether the call
    raised, which it does when the INSERT gave no id and the rollback of the
    handler (lines 38-40) raises too. *)
Definition register_new_visitor (env : Env) (rows : list (N * Embedding))
    (e : Embedding) : (option N * list (N * Embedding)) * bool :=
  match insert_visitor env rows e with
  | Some v =>
      if id_is_free rows v then ((Some v, rows ++ [(v, e)]), false)
      else ((None, rows), negb (rollback_visitor_ok env rows e))
  | None => ((None, rows), negb (rollback_visitor_ok env rows e))
  end.

(** [log_event(conn, visitor_id, event_type, image_path)]: the Events table
    it leaves and whether it raised, which it does when the INSERT raises
    and the rollback of the handler (lines 91-93) raises too. *)
Definition log_event (env : Env) (events : list EventRow)
    (v : N) (k : EventKind) (img : Crop) : list EventRow * bool :=
  if insert_event_ok env v k
  then (events ++ [{| ev_visitor := v; ev_type := k; ev_image := img |}], false)
  else (events, negb (rollback_event_ok env v k)).

(** ** state_tracker.py *)

(** The outcome of the emission code once [_save_cropped_face] and
    [log_event] have answered. *)
Definition outcome_of (env : Env) (v : N) (k : EventKind) (c : Crop) : Outcome :=
  if imwrite_ok env c v k
  then if insert_event_ok env v k then Recorded
       else if rollback_event_ok env v k then StoreFailed else StoreRaised
  else ImageFailed.

(** Lines 101-116: the visitor a new track resolves to, the Visitors table,
    and whether [register_new_visitor] raised.  [None] without a raise is
    the [continue] of lines 105 and 116. *)
Definition resolve_new (env : Env) (cfg : Config) (rows : list (N * Embedding))
    (crop_img : Crop) : (option N * list (N * Embedding)) * bool :=
  match get_embedding env crop_img with
  | None => ((None, rows), false)
  | Some embedding =>
      match find_visitor env rows embedding (similarity_threshold cfg) with
      | Some (v, _) => ((Some v, rows), false)
      | None => register_new_visitor env rows embedding
      end
  end.

(** The local variables of LOOP 1 next to the state. *)
Record Scan := {
  sc_state : State;
  current_track_ids : gset Z;
  current_visitor_ids_in_frame : gset N }.

(** The body of LOOP 1 (lines 91-129) for one pair of
    [zip(track_ids, bboxes)], and whether it raised (line 112). *)
Definition loop1_body (env : Env) (cfg : Config) (sc : Scan) (det : Z * Crop) : Scan * bool :=
  let '(track_id, crop_img) := det in
  let st := sc_state sc in
  let ids := {[track_id]} ∪ current_track_ids sc in
  match active_tracks st !! track_id with
  | Some td =>
      ({| sc_state :=
            set_active (<[track_id := {| visitor_id := visitor_id td; last_crop := crop_img |}]>
                          (active_tracks st)) st;
          current_track_ids := ids;
          current_visitor_ids_in_frame := {[visitor_id td]} ∪ current_visitor_ids_in_frame sc |},
       false)
  | None =>
      match resolve_new env cfg (Visitors st) crop_img with
      | ((Some v, rows), raised) =>
          ({| sc_state :=
                set_active (<[track_id := {| visitor_id := v; last_crop := crop_img |}]>
                              (active_tracks st)) (set_visitors rows st);
              current_track_ids := ids;
              current_visitor_ids_in_frame := {[v]} ∪ current_visitor_ids_in_frame sc |},
           raised)
      | ((None, rows), raised) =>
          ({| sc_state := set_visitors rows st;
              current_track_ids := ids;
              current_visitor_ids_in_frame := current_visitor_ids_in_frame sc |},
           raised)
      end
  end.

(** LOOP 1.  [None] is [tracks.id is None]. *)
Definition loop1 (env : Env) (cfg : Config) (st : State)
    (tracks : option (list (Z * Crop))) : Scan * bool :=
  for_each (loop1_body env cfg)
           {| sc_state := st; current_track_ids := ∅; current_visitor_ids_in_frame := ∅ |}
           (default [] tracks).

(** Lines 143-147: the crop of the first active track of the visitor, first
    in the enumeration of the map where the source has the insertion order
    of the dictionary; the two differ only in which crop is logged for a
    visitor with several bindings. *)
Definition crop_to_log (active : gmap Z TrackData) (v : N) : option Crop :=
  (λ r : nat * TrackData, last_crop r.2)
    <$> list_find (λ td : TrackData, visitor_id td = v) ((map_to_list active).*2).

(** The body of LOOP 2 (lines 136-154), and whether it raised (line 152,
    before the visitor is added to [logged_entry_this_visit]). *)
Definition loop2_body (env : Env) (acc : State * list Emission) (v : N)
    : (State * list Emission) * bool :=
  let st := set_pending (delete v (pending_exit acc.1)) acc.1 in
  if decide (v ∈ logged_entry_this_visit st) then ((st, acc.2), false)
  else
    match crop_to_log (active_tracks st) v with
    | None => ((st, acc.2), false)
    | Some c =>
        let em := {| em_visitor := v; em_kind := Entry; em_crop := c;
                     em_outcome := outcome_of env v Entry c |} in
        if imwrite_ok env c v Entry
        then
          let logged := log_event env (Events st) v Entry c in
          let st := set_events logged.1 st in
          if logged.2 then ((st, acc.2 ++ [em]), true)
          else ((set_logged ({[v]} ∪ logged_entry_this_visit st) st, acc.2 ++ [em]), false)
        else ((st, acc.2 ++ [em]), false)
    end.

(** The body of LOOP 3 (lines 161-173); nothing in it raises. *)
Definition loop3_body (env : Env) (visible : gset N) (st : State) (track_id : Z) : State :=
  match active_tracks st !! track_id with
  | None => st
  | Some td =>
      let st := set_active (delete track_id (active_tracks st)) st in
      if decide (visitor_id td ∈ visible) then st
      else set_pending (<[visitor_id td :=
                            {| timestamp := mark_time env track_id;
                               exit_crop := last_crop td |}]> (pending_exit st)) st
  end.

(** The body of LOOP 4 (lines 180-196), and whether it raised (line 188,
    before the visitor is taken out of [pending_exit] and of
    [logged_entry_this_visit]). *)
Definition loop4_body (env : Env) (cfg : Config) (acc : State * list Emission)
    (item : N * ExitData) : (State * list Emission) * bool :=
  let '(v, exit_data) := item in
  let st := acc.1 in
  let time_disappeared := sweep_time env - timestamp exit_data in
  if Qgtb time_disappeared (exit_timeout cfg) then
    let c := exit_crop exit_data in
    let em := {| em_visitor := v; em_kind := Exit; em_crop := c;
                 em_outcome := outcome_of env v Exit c |} in
    if imwrite_ok env c v Exit
    then
      let logged := log_event env (Events st) v Exit c in
      let st := set_events logged.1 st in
      if logged.2 then ((st, acc.2 ++ [em]), true)
      else ((set_logged (logged_entry_this_visit st ∖ {[v]})
               (set_pending (delete v (pending_exit st)) st),
             acc.2 ++ [em]), false)
    else ((set_logged (logged_entry_this_visit st ∖ {[v]})
             (set_pending (delete v (pending_exit st)) st),
           acc.2 ++ [em]), false)
  else (acc, false).

(** LOOPs 1 and 2: the state and the entry emissions they leave, and whether
    one of them raised. *)
Definition after_entries_exc (env : Env) (cfg : Config) (st : State)
    (tracks : option (list (Z * Crop))) : (State * list Emission) * bool :=
  let scanned := loop1 env cfg st tracks in
  if scanned.2 then ((sc_state scanned.1, []), true)
  else for_each (loop2_body env) (sc_state scanned.1, [])
                (elements (current_visitor_ids_in_frame scanned.1)).

(** LOOPs 1 to 3. *)
Definition after_churn_exc (env : Env) (cfg : Config) (st : State)
    (tracks : option (list (Z * Crop))) : (State * list Emission) * bool :=
  let scanned := loop1 env cfg st tracks in
  let r := after_entries_exc env cfg st tracks in
  if r.2 then r
  else
    let lost_track_ids := dom (active_tracks r.1.1) ∖ current_track_ids scanned.1 in
    ((foldl (loop3_body env (current_visitor_ids_in_frame scanned.1)) r.1.1
            (elements lost_track_ids),
      r.1.2), false).

(** [update_frame(frame, tracks, embedder, db_conn)]: the state and the
    emissions it leaves behind, in order, and whether it ended by raising
    instead of returning. *)
Definition update_frame_exc (env : Env) (cfg : Config) (st : State)
    (tracks : option (list (Z * Crop))) : (State * list Emission) * bool :=
  let r := after_churn_exc env cfg st tracks in
  if r.2 then r
  else for_each (loop4_body env cfg) r.1 (map_to_list (pending_exit r.1.1)).

(** What a call of [update_frame] leaves behind, whichever way it ends. *)
Definition update_frame (env : Env) (cfg : Config) (st : State)
    (tracks : option (list (Z * Crop))) : State * list Emission :=
  (update_frame_exc env cfg st tracks).1.

(** The call of [update_frame] returns: no exception leaves it. *)
Definition returns (env : Env) (cfg : Config) (st : State)
    (tracks : option (list (Z * Crop))) : Prop :=
  (update_frame_exc env cfg st tracks).2 = false.

(** What the call has left behind when LOOP 2 is over, or when it raised
    before that. *)
Definition after_entries (env : Env) (cfg : Config) (st : State)
    (tracks : option (list (Z * Crop))) : State * list Emission :=
  (after_entries_exc env cfg st tracks).1.

(** What the call has left behind when LOOP 3 is over, or when it raised
    before that. *)
Definition after_churn (env : Env) (cfg : Config) (st : State)
    (tracks : option (list (Z * Crop))) : State * list Emission :=
  (after_churn_exc env cfg st tracks).1.

(** The visitors LOOP 1 finds in the frame. *)
Definition visible_visitors (env : Env) (cfg : Config) (st : State)
    (tracks : option (list (Z * Crop))) : gset N :=
  current_visitor_ids_in_frame (loop1 env cfg st tracks).1.

(** A frame as [main] feeds it to the tracker: what the collaborators do
    during it and what ByteTrack reports. *)
Record Frame := { f_env : Env; f_tracks : option (list (Z * Crop)) }.

(** Successive calls of [update_frame] as [main] makes them (lines 87-90):
    an exception that leaves a call is caught and printed, and the next
    call starts from the state the failed one left behind.  The emissions
    are concatenated. *)
Fixpoint run (cfg : Config) (st : State) (frames : list Frame) : State * list Emission :=
  match frames with
  | [] => (st, [])
  | f :: rest =>
      let r := update_frame (f_env f) cfg st (f_tracks f) in
      let r' := run cfg r.1 rest in
      (r'.1, r.2 ++ r'.2)
  end.

(** Every call of the run returns. *)
Fixpoint completes (cfg : Config) (st : State) (frames : list Frame) : Prop :=
  match frames with
  | [] => True
  | f :: rest =>
      returns (f_env f) cfg st (f_tracks f) ∧
      completes cfg (update_frame (f_env f) cfg st (f_tracks f)).1 rest
  end.

(** ** state_tracker.py: the image files *)

(** [path.endswith('/')] *)
Fixpoint endswith_sep (path : string) : bool :=
  match path with
  | EmptyString => false
  | String c EmptyString => bool_decide (c = "/"%char)
  | String _ rest => endswith_sep rest
  end.

(** [b.startswith('/')] *)
Definition startswith_sep (b : string) : bool :=
  match b with
  | String c _ => bool_decide (c = "/"%char)
  | EmptyString => false
  end.

(** [os.path.join(a, b)] as [posixpath] computes it: an absolute [b]
    replaces [a]; otherwise [b] is appended, after a separator unless [a] is
    empty or ends in one. *)
Definition path_join (a b : string) : string :=
  if startswith_sep b then b
  else if bool_decide (a = EmptyString) || endswith_sep a then a +:+ b
  else a +:+ "/" +:+ b.

(** The strings ['entry'] and ['exit'] that [update_frame] passes as
    [event_type] (lines 150 and 185). *)
Definition event_type_text (k : EventKind) : string :=
  match k with Entry => "entry" | Exit => "exit" end.

(** What one call of [_save_cropped_face] meets: the two renderings of
    [datetime.datetime.now()] (lines 59 and 63) and whether [os.makedirs] and
    [cv2.imwrite] run without raising. *)
Record Saving := { today_str : string; timestamp_str : string; written : bool }.

(** [_save_cropped_face(crop_img, visitor_id, event_type)] (lines 53-71):
    the path it returns, [None] after an exception.  [visitor_id] is the
    text that the f-string of line 64 renders the id to. *)
Definition _save_cropped_face (entry_log_dir : string) (sv : Saving)
    (visitor_id : string) (event_type : EventKind) : option string :=
  if written sv then
    let today_dir := path_join entry_log_dir (today_str sv) in
    let filename :=
      visitor_id +:+ "_" +:+ event_type_text event_type +:+ "_"
        +:+ timestamp_str sv +:+ ".jpg" in
    Some (path_join today_dir filename)
  else None.

(** ** main.py *)

(** What lines 68-83 of [main] obtain for a frame: [detector.track] raised;
    no [boxes] could be found in the results; or the [boxes] object, whose
    track ids and crops are given as for [update_frame]. *)
Inductive Tracking :=
  | DetectorError
  | NoBoxes
  | Boxes (tracks : option (list (Z * Crop))).

(** A frame that [cap.read()] returns, with what happens while [main]
    handles it: the collaborators of the tracker, the outcome of the
    detector, and whether the key [q] is down at [cv2.waitKey(1)]. *)
Record Shot := { shot_env : Env; shot_tracking : Tracking; shot_quit : bool }.

(** The processing loop of [main] (lines 52-118) over the frames the video
    still has.  [None] is the [ZeroDivisionError] of line 58, which nothing
    catches.  An exception that leaves [update_frame] is caught (lines
    87-90) and the loop goes on from the state the call left behind, which
    is the state [update_frame] gives. *)
Fixpoint main_loop (cfg : Config) (frame_skip frame_count : Z) (st : State)
    (video : list Shot) : option (State * list Emission) :=
  match video with
  | [] => Some (st, [])
  | shot :: rest =>
      if (frame_skip =? 0)%Z then None
      else if negb (frame_count mod frame_skip =? 0)%Z
      then main_loop cfg frame_skip (frame_count + 1)%Z st rest
      else
        match shot_tracking shot with
        | DetectorError => main_loop cfg frame_skip (frame_count + 1)%Z st rest
        | NoBoxes =>
            if shot_quit shot then Some (st, [])
            else main_loop cfg frame_skip (frame_count + 1)%Z st rest
        | Boxes tracks =>
            let r := update_frame (shot_env shot) cfg st tracks in
            if shot_quit shot then Some r
            else match main_loop cfg frame_skip (frame_count + 1)%Z r.1 rest with
                 | Some r' => Some (r'.1, r.2 ++ r'.2)
                 | None => None
                 end
        end
  end.

(** The frame the tracker gets to see for the shot with index [i] of the
    video, if any. *)
Definition frame_at (frame_skip : Z) (i : nat) (shot : Shot) : option Frame :=
  if (Z.of_nat i mod frame_skip =? 0)%Z
  then match shot_tracking shot with
       | Boxes tracks => Some {| f_env := shot_env shot; f_tracks := tracks |}
       | _ => None
       end
  else None.

(** ** Vocabulary of the statements *)

(** The emissions of a trace that concern one visitor. *)
Definition events_of (v : N) (tr : list Emission) : list Emission :=
  filter (λ em : Emission, em_visitor em = v) tr.

(** The image of the emission reached the disk. *)
Definition image_saved (em : Emission) : Prop := em_outcome em ≠ ImageFailed.

(** The rows a trace leaves in the Events table. *)
Definition recorded_rows (tr : list Emission) : list EventRow :=
  omap (λ em : Emission,
          if decide (em_outcome em = Recorded)
          then Some {| ev_visitor := em_visitor em; ev_type := em_kind em;
                       ev_image := em_crop em |}
          else None) tr.

(** The entry emission LOOP 2 makes for a visible visitor: none when the
    visitor is in [logged_entry_this_visit], otherwise one for the crop of
    its first active track. *)
Definition entry_of (env : Env) (st : State) (v : N) : list Emission :=
  if decide (v ∈ logged_entry_this_visit st) then []
  else match crop_to_log (active_tracks st) v with
       | Some c => [{| em_visitor := v; em_kind := Entry; em_crop := c;
                       em_outcome := outcome_of env v Entry c |}]
       | None => []
       end.

(** The test of line 182 on a pending exit. *)
Definition expired (env : Env) (cfg : Config) (xd : ExitData) : bool :=
  Qgtb (sweep_time env - timestamp xd) (exit_timeout cfg).

(** The exit emission LOOP 4 makes for an item of [pending_exit]. *)
Definition exit_of (env : Env) (cfg : Config) (v : N) (xd : ExitData) : list Emission :=
  if expired env cfg xd
  then [{| em_visitor := v; em_kind := Exit; em_crop := exit_crop xd;
           em_outcome := outcome_of env v Exit (exit_crop xd) |}]
  else [].

(** The track ids the frame reports: [current_track_ids] at the end of
    LOOP 1. *)
Definition reported_ids (tracks : option (list (Z * Crop))) : gset Z :=
  list_to_set (default [] tracks).*1.

(** [self.active_tracks] at the end of LOOP 1: every reported binding that
    could be resolved, next to the bindings of the previous frames. *)
Definition resolved (env : Env) (cfg : Config) (st : State)
    (tracks : option (list (Z * Crop))) : gmap Z TrackData :=
  active_tracks (sc_state (loop1 env cfg st tracks).1).

(** The same collaborators with an event sink that never fails. *)
Definition reliable (env : Env) : Env :=
  {| get_embedding := get_embedding env;
     similarity := similarity env;
     select_ok := select_ok env;
     insert_visitor := insert_visitor env;
     rollback_visitor_ok := rollback_visitor_ok env;
     imwrite_ok := λ _ _ _, true;
     insert_event_ok := λ _ _, true;
     rollback_event_ok := λ _ _, true;
     mark_time := mark_time env;
     sweep_time := sweep_time env |}.

Definition reliably (frames : list Frame) : list Frame :=
  (λ f, {| f_env := reliable (f_env f); f_tracks := f_tracks f |}) <$> frames.

(** The in-memory state of the tracker and the Visitors table: everything
    but the Events table. *)
Definition memory (st : State)
    : gmap Z TrackData * gmap N ExitData * gset N * list (N * Embedding) :=
  (active_tracks st, pending_exit st, logged_entry_this_visit st, Visitors st).

(** An emission without its outcome. *)
Definition skeleton (tr : list Emission) : list (N * EventKind * Crop) :=
  (λ em, (em_visitor em, em_kind em, em_crop em)) <$> tr.

(** The emission is not an entry whose image save failed. *)
Definition entry_saved (em : Emission) : Prop :=
  em_kind em = Entry → image_saved em.

(** The kinds of the emissions that concern one visitor, in order. *)
Definition kinds_of (v : N) (tr : list Emission) : list EventKind :=
  em_kind <$> events_of v tr.

(** How many emissions of one kind a trace has for a visitor. *)
Definition count_of (v : N) (k : EventKind) (tr : list Emission) : nat :=
  length (filter (λ em : Emission, em_visitor em = v ∧ em_kind em = k) tr).

(** Reading a sequence of entries and exits as visits: an entry opens a
    visit and needs none open, an exit closes the open visit.  [None] when
    the sequence is not of that shape, otherwise whether a visit is open at
    the end. *)
Fixpoint replay (open : bool) (ks : list EventKind) : option bool :=
  match ks with
  | [] => Some open
  | Entry :: ks => if open then None else replay true ks
  | Exit :: ks => if open then replay false ks else None
  end.

(** How often a kind occurs. *)
Definition tally (k : EventKind) (ks : list EventKind) : nat :=
  length (filter (λ k', k' = k) ks).

(** Some binding of the registry stands for the visitor. *)
Definition tracked (st : State) (v : N) : Prop :=
  ∃ t td, active_tracks st !! t = Some td ∧ visitor_id td = v.

(** The visitor is visible in no frame of the run that starts in [st]. *)
Fixpoint never_visible (cfg : Config) (v : N) (st : State) (frames : list Frame) : Prop :=
  match frames with
  | [] => True
  | f :: rest =>
      v ∉ visible_visitors (f_env f) cfg st (f_tracks f) ∧
      never_visible cfg v (update_frame (f_env f) cfg st (f_tracks f)).1 rest
  end.

(** The crop of the last pair of [zip(track_ids, bboxes)] that carries the
    track id. *)
Definition latest_crop (t : Z) (l : list (Z * Crop)) : option Crop :=
  snd <$> last (filter (λ d : Z * Crop, d.1 = t) l).

(** Two environments whose file system, Events table and clock behave
    alike; their embedders and Visitors searches may differ. *)
Definition same_sink_and_clock (env env' : Env) : Prop :=
  (∀ c v k, imwrite_ok env c v k = imwrite_ok env' c v k) ∧
  (∀ v k, insert_event_ok env v k = insert_event_ok env' v k) ∧
  (∀ v k, rollback_event_ok env v k = rollback_event_ok env' v k) ∧
  (∀ t, mark_time env t = mark_time env' t) ∧
  sweep_time env = sweep_time env'.

(** The ids stored in the Visitors table. *)
Definition stored_ids (st : State) : list N := (Visitors st).*1.

(** The visitors of the registry and of the pending exits are stored. *)
Definition referenced_are_stored (st : State) : Prop :=
  (∀ t td, active_tracks st !! t = Some td → visitor_id td ∈ stored_ids st) ∧
  (∀ v, is_Some (pending_exit st !! v) → v ∈ stored_ids st).
(** ** Calls that return

    As long as no rollback raises, [register_new_visitor] and [log_event]
    are plain functions of the tables and the loops of [update_frame] are
    plain left folds.  The definitions of this section spell that case out.
    No statement about the tracker rests on them: they serve the proofs,
    which reduce a call that returns to them ([returns_calm]) and a call
    that raises to one of their prefixes. *)

(** [register_new_visitor] when it returns. *)
Definition calm_register_new_visitor (env : Env) (rows : list (N * Embedding))
    (e : Embedding) : option N * list (N * Embedding) :=
  match insert_visitor env rows e with
  | Some v => if id_is_free rows v then (Some v, rows ++ [(v, e)]) else (None, rows)
  | None => (None, rows)
  end.

(** [log_event] when it returns. *)
Definition calm_log_event (env : Env) (events : list EventRow)
    (v : N) (k : EventKind) (img : Crop) : list EventRow :=
  if insert_event_ok env v k
  then events ++ [{| ev_visitor := v; ev_type := k; ev_image := img |}]
  else events.

(** [resolve_new] when it returns. *)
Definition calm_resolve_new (env : Env) (cfg : Config) (rows : list (N * Embedding))
    (crop_img : Crop) : option N * list (N * Embedding) :=
  match get_embedding env crop_img with
  | None => (None, rows)
  | Some embedding =>
      match find_visitor env rows embedding (similarity_threshold cfg) with
      | Some (v, _) => (Some v, rows)
      | None => calm_register_new_visitor env rows embedding
      end
  end.

(** The body of LOOP 1 when it returns. *)
Definition calm_loop1_body (env : Env) (cfg : Config) (sc : Scan) (det : Z * Crop) : Scan :=
  let '(track_id, crop_img) := det in
  let st := sc_state sc in
  let ids := {[track_id]} ∪ current_track_ids sc in
  match active_tracks st !! track_id with
  | Some td =>
      {| sc_state :=
           set_active (<[track_id := {| visitor_id := visitor_id td; last_crop := crop_img |}]>
                         (active_tracks st)) st;
         current_track_ids := ids;
         current_visitor_ids_in_frame := {[visitor_id td]} ∪ current_visitor_ids_in_frame sc |}
  | None =>
      match calm_resolve_new env cfg (Visitors st) crop_img with
      | (Some v, rows) =>
          {| sc_state :=
               set_active (<[track_id := {| visitor_id := v; last_crop := crop_img |}]>
                             (active_tracks st)) (set_visitors rows st);
             current_track_ids := ids;
             current_visitor_ids_in_frame := {[v]} ∪ current_visitor_ids_in_frame sc |}
      | (None, rows) =>
          {| sc_state := set_visitors rows st;
             current_track_ids := ids;
             current_visitor_ids_in_frame := current_visitor_ids_in_frame sc |}
      end
  end.

(** LOOP 1 when no iteration raises. *)
Definition calm_loop1 (env : Env) (cfg : Config) (st : State)
    (tracks : option (list (Z * Crop))) : Scan :=
  foldl (calm_loop1_body env cfg)
        {| sc_state := st; current_track_ids := ∅; current_visitor_ids_in_frame := ∅ |}
        (default [] tracks).

(** The body of LOOP 2 when it returns. *)
Definition calm_loop2_body (env : Env) (acc : State * list Emission) (v : N)
    : State * list Emission :=
  let st := set_pending (delete v (pending_exit acc.1)) acc.1 in
  if decide (v ∈ logged_entry_this_visit st) then (st, acc.2)
  else
    match crop_to_log (active_tracks st) v with
    | None => (st, acc.2)
    | Some c =>
        let em := {| em_visitor := v; em_kind := Entry; em_crop := c;
                     em_outcome := outcome_of env v Entry c |} in
        if imwrite_ok env c v Entry
        then (set_logged ({[v]} ∪ logged_entry_this_visit st)
                (set_events (calm_log_event env (Events st) v Entry c) st),
              acc.2 ++ [em])
        else (st, acc.2 ++ [em])
    end.

(** The body of LOOP 4 when it returns. *)
Definition calm_loop4_body (env : Env) (cfg : Config) (acc : State * list Emission)
    (item : N * ExitData) : State * list Emission :=
  let '(v, exit_data) := item in
  let st := acc.1 in
  let time_disappeared := sweep_time env - timestamp exit_data in
  if Qgtb time_disappeared (exit_timeout cfg) then
    let c := exit_crop exit_data in
    let em := {| em_visitor := v; em_kind := Exit; em_crop := c;
                 em_outcome := outcome_of env v Exit c |} in
    let st := if imwrite_ok env c v Exit
              then set_events (calm_log_event env (Events st) v Exit c) st else st in
    (set_logged (logged_entry_this_visit st ∖ {[v]})
       (set_pending (delete v (pending_exit st)) st),
     acc.2 ++ [em])
  else acc.

(** LOOPs 1 and 2 when nothing raises. *)
Definition calm_after_entries (env : Env) (cfg : Config) (st : State)
    (tracks : option (list (Z * Crop))) : State * list Emission :=
  let sc := calm_loop1 env cfg st tracks in
  foldl (calm_loop2_body env) (sc_state sc, [])
        (elements (current_visitor_ids_in_frame sc)).

(** LOOPs 1 to 3 when nothing raises. *)
Definition calm_after_churn (env : Env) (cfg : Config) (st : State)
    (tracks : option (list (Z * Crop))) : State * list Emission :=
  let sc := calm_loop1 env cfg st tracks in
  let r := calm_after_entries env cfg st tracks in
  let lost_track_ids := dom (active_tracks r.1) ∖ current_track_ids sc in
  (foldl (loop3_body env (current_visitor_ids_in_frame sc)) r.1 (elements lost_track_ids),
   r.2).

(** [update_frame] when nothing raises. *)
Definition calm_update_frame (env : Env) (cfg : Config) (st : State)
    (tracks : option (list (Z * Crop))) : State * list Emission :=
  let r := calm_after_churn env cfg st tracks in
  foldl (calm_loop4_body env cfg) r (map_to_list (pending_exit r.1)).

(** The visitors LOOP 1 finds when no iteration raises. *)
Definition calm_visible_visitors (env : Env) (cfg : Config) (st : State)
    (tracks : option (list (Z * Crop))) : gset N :=
  current_visitor_ids_in_frame (calm_loop1 env cfg st tracks).

(** A run all of whose calls return. *)
Fixpoint calm_run (cfg : Config) (st : State) (frames : list Frame) : State * list Emission :=
  match frames with
  | [] => (st, [])
  | f :: rest =>
      let r := calm_update_frame (f_env f) cfg st (f_tracks f) in
      let r' := calm_run cfg r.1 rest in
      (r'.1, r.2 ++ r'.2)
  end.

(** [self.active_tracks] at the end of LOOP 1 when no iteration raises. *)
Definition calm_resolved (env : Env) (cfg : Config) (st : State)
    (tracks : option (list (Z * Crop))) : gmap Z TrackData :=
  active_tracks (sc_state (calm_loop1 env cfg st tracks)).

(** The visitor is visible in no frame of a run all of whose calls return. *)
Fixpoint calm_never_visible (cfg : Config) (v : N) (st : State) (frames : list Frame) : Prop :=
  match frames with
  | [] => True
  | f :: rest =>
      v ∉ calm_visible_visitors (f_env f) cfg st (f_tracks f) ∧
      calm_never_visible cfg v (calm_update_frame (f_env f) cfg st (f_tracks f)).1 rest
  end.

(** ** Scenarios

    Collaborators for the worked examples.  Crop [0] shows no face; any
    other crop is its own embedding; two embeddings are similar when they
    are equal; the database numbers new visitors from 100.  The three
    switches make the image save, the INSERT into Events and the INSERT
    into Visitors fail; the connection holds, so that every rollback
    works. *)
Definition world (now : Q) (images events visitors : bool) : Env :=
  {| get_embedding := λ c, if (c =? 0)%N then None else Some c;
     similarity := λ a b, if (a =? b)%N then 1 else 0;
     select_ok := λ _, true;
     insert_visitor := λ rows _,
       if visitors then Some (100 + N.of_nat (length rows))%N else None;
     rollback_visitor_ok := λ _ _, true;
     imwrite_ok := λ _ _ _, images;
     insert_event_ok := λ _ _, events;
     rollback_event_ok := λ _ _, true;
     mark_time := λ _, now;
     sweep_time := now |}.

(** A frame at time [now] in which everything works. *)
Definition sees (now : Q) (tracks : list (Z * Crop)) : Frame :=
  {| f_env := world now true true true; f_tracks := Some tracks |}.

(** A frame at time [now] in which the image save fails. *)
Definition sees_unsaved (now : Q) (tracks : list (Z * Crop)) : Frame :=
  {| f_env := world now false true true; f_tracks := Some tracks |}.

(** The same collaborators behind a connection that is gone: no statement
    goes through and no rollback either. *)
Definition disconnected (env : Env) : Env :=
  {| get_embedding := get_embedding env;
     similarity := similarity env;
     select_ok := λ _, false;
     insert_visitor := λ _ _, None;
     rollback_visitor_ok := λ _ _, false;
     imwrite_ok := imwrite_ok env;
     insert_event_ok := λ _ _, false;
     rollback_event_ok := λ _ _, false;
     mark_time := mark_time env;
     sweep_time := sweep_time env |}.

(** A frame at time [now] during which the connection is gone. *)
Definition sees_offline (now : Q) (tracks : option (list (Z * Crop))) : Frame :=
  {| f_env := disconnected (world now true true true); f_tracks := tracks |}.

(** A frame at time [now] without any track id. *)
Definition sees_nobody (now : Q) : Frame :=
  {| f_env := world now true true true; f_tracks := None |}.

(** Emissions of the scenarios. *)
Definition entry_100 (o : Outcome) : Emission :=
  {| em_visitor := 100; em_kind := Entry; em_crop := 7%N; em_outcome := o |}.

Definition exit_100 (o : Outcome) : Emission :=
  {| em_visitor := 100; em_kind := Exit; em_crop := 7%N; em_outcome := o |}.

(** Two visits of visitor 100: seen at 0, gone at 1, exit at 5; seen again
    at 6 under another track id, gone at 7, exit at 11. *)
Definition two_visits : list Frame :=
  [sees 0 [(1%Z, 7%N)]; sees_nobody 1; sees_nobody 5;
   sees 6 [(2%Z, 7%N)]; sees_nobody 7; sees_nobody 11].

(** The same, but the second visit lasts two frames and the image of its
    entry cannot be saved. *)
Definition second_visit_unsaved : list Frame :=
  [sees 0 [(1%Z, 7%N)]; sees_nobody 1; sees_nobody 5;
   sees_unsaved 6 [(2%Z, 7%N)]; sees_unsaved (13 # 2) [(2%Z, 7%N)];
   sees_nobody 7; sees_nobody 11].

(** One visit whose entry image cannot be saved in either of its two
    frames. *)
Definition unsaved_visit : list Frame :=
  [sees_unsaved 0 [(1%Z, 7%N)]; sees_unsaved 1 [(1%Z, 7%N)]; sees_nobody 2; sees_nobody 6].

(** A video of three frames with a face in each, and nobody at the
    keyboard. *)
Definition three_shots : list Shot :=
  [ {| shot_env := world 0 true true true; shot_tracking := Boxes (Some [(1%Z, 7%N)]);
       shot_quit := false |};
    {| shot_env := world 1 true true true; shot_tracking := Boxes (Some [(1%Z, 8%N)]);
       shot_quit := false |};
    {| shot_env := world 2 true true true; shot_tracking := Boxes (Some [(2%Z, 9%N)]);
       shot_quit := false |} ].

(** A state in which track 1 stands for visitor 100, whose entry is logged. *)
Definition one_visitor : State :=
  (run default_config (init []) [sees 0 [(1%Z, 7%N)]]).1.

(** What LOOP 1 maintains, relative to the state [st0] at the start of the
    frame. *)
Record scan_inv (st0 : State) (sc : Scan) : Prop := {
  si_visible_tracked : ∀ v, v ∈ current_visitor_ids_in_frame sc →
    ∃ tid td, tid ∈ current_track_ids sc ∧
              active_tracks (sc_state sc) !! tid = Some td ∧ visitor_id td = v;
  si_tracked_visible : ∀ tid td, tid ∈ current_track_ids sc →
    active_tracks (sc_state sc) !! tid = Some td →
    visitor_id td ∈ current_visitor_ids_in_frame sc;
  si_unseen : ∀ tid, tid ∉ current_track_ids sc →
    active_tracks (sc_state sc) !! tid = active_tracks st0 !! tid;
  si_binding_kept : ∀ tid td, active_tracks st0 !! tid = Some td →
    ∃ td', active_tracks (sc_state sc) !! tid = Some td' ∧ visitor_id td' = visitor_id td;
  si_pending : pending_exit (sc_state sc) = pending_exit st0;
  si_logged : logged_entry_this_visit (sc_state sc) = logged_entry_this_visit st0;
  si_events : Events (sc_state sc) = Events st0 }.

(** Closes a decidable goal about concrete data by evaluation. *)
Ltac by_compute :=
  match goal with
  | |- ?P => let d := constr:(_ : Decision P) in
             apply (@bool_decide_unpack P d); vm_compute; exact I
  end.

(** ** Folds *)

Lemma foldl_inv {A B : Type} (P : A → Prop) (f : A → B → A) (l : list B) (a : A) :
  P a → (∀ a x, x ∈ l → P a → P (f a x)) → P (foldl f a l).
Proof.
  revert a. induction l as [|x l IH]; intros a Ha Hstep; simpl; [done|].
  apply IH.
  - apply Hstep; [left | done].
  - intros a' y Hy. apply Hstep. by right.
Qed.

(** ** LOOP 1 *)

Section Loop1.
Context (env : Env) (cfg : Config).

Lemma scan_inv_start st0 :
  scan_inv st0 {| sc_state := st0; current_track_ids := ∅;
                  current_visitor_ids_in_frame := ∅ |}.
Proof.
  split; simpl; try done; set_solver.
Qed.

Lemma scan_inv_step st0 sc det :
  scan_inv st0 sc → scan_inv st0 (calm_loop1_body env cfg sc det).
Proof.
  intros [Hvt Htv Hun Hkept Hp Hl He]. destruct det as [track_id crop_img].
  unfold calm_loop1_body.
  destruct (active_tracks (sc_state sc) !! track_id) as [td0|] eqn:Hknown.
  - split; simpl; try done.
    + intros v Hv. apply elem_of_union in Hv as [Hv|Hv].
      * apply elem_of_singleton in Hv as ->.
        exists track_id, {| visitor_id := visitor_id td0; last_crop := crop_img |}.
        split; [set_solver|]. by rewrite lookup_insert_eq.
      * destruct (Hvt v Hv) as (tid & td & Htid & Hlk & Hvid).
        destruct (decide (tid = track_id)) as [->|Hne].
        -- exists track_id, {| visitor_id := visitor_id td0; last_crop := crop_img |}.
           split; [set_solver|]. rewrite lookup_insert_eq. split; [done|].
           simpl. congruence.
        -- exists tid, td. split; [set_solver|]. by rewrite lookup_insert_ne.
    + intros tid td Htid Hlk.
      destruct (decide (tid = track_id)) as [->|Hne].
      * rewrite lookup_insert_eq in Hlk. inversion Hlk; subst; simpl. set_solver.
      * rewrite lookup_insert_ne in Hlk by done.
        apply elem_of_union_r. apply (Htv tid td); [set_solver | done].
    + intros tid Htid. rewrite lookup_insert_ne by set_solver.
      apply Hun. set_solver.
    + intros tid td Htd. destruct (Hkept tid td Htd) as (td' & Hlk & Hvid).
      destruct (decide (tid = track_id)) as [->|Hne].
      * eexists. rewrite lookup_insert_eq. split; [done|]. simpl. congruence.
      * exists td'. by rewrite lookup_insert_ne.
  - destruct (calm_resolve_new env cfg (Visitors (sc_state sc)) crop_img) as [[v|] rows].
    + split; simpl; try done.
      * intros v' Hv'. apply elem_of_union in Hv' as [Hv'|Hv'].
        -- apply elem_of_singleton in Hv' as ->.
           exists track_id, {| visitor_id := v; last_crop := crop_img |}.
           split; [set_solver|]. by rewrite lookup_insert_eq.
        -- destruct (Hvt v' Hv') as (tid & td & Htid & Hlk & Hvid).
           exists tid, td. split; [set_solver|]. split; [|done].
           rewrite lookup_insert_ne; [done|]. congruence.
      * intros tid td Htid Hlk.
        destruct (decide (tid = track_id)) as [->|Hne].
        -- rewrite lookup_insert_eq in Hlk. inversion Hlk; subst; simpl. set_solver.
        -- rewrite lookup_insert_ne in Hlk by done.
           apply elem_of_union_r. apply (Htv tid td); [set_solver | done].
      * intros tid Htid. rewrite lookup_insert_ne by set_solver.
        apply Hun. set_solver.
      * intros tid td Htd. destruct (Hkept tid td Htd) as (td' & Hlk & Hvid).
        exists td'. split; [|done]. rewrite lookup_insert_ne; [done|]. congruence.
    + split; simpl; try done.
      * intros v' Hv'. destruct (Hvt v' Hv') as (tid & td & Htid & Hlk & Hvid).
        exists tid, td. split; [set_solver|]. done.
      * intros tid td Htid Hlk.
        destruct (decide (tid = track_id)) as [->|Hne]; [congruence|].
        apply (Htv tid td); [set_solver | done].
      * intros tid Htid. apply Hun. set_solver.
Qed.

Lemma loop1_inv st0 tracks : scan_inv st0 (calm_loop1 env cfg st0 tracks).
Proof.
  unfold calm_loop1. apply foldl_inv; [apply scan_inv_start|].
  intros sc det _. apply scan_inv_step.
Qed.

(** [current_track_ids] ends up as the set of the reported ids. *)
Lemma loop1_track_ids st0 tracks :
  current_track_ids (calm_loop1 env cfg st0 tracks) = list_to_set (default [] tracks).*1.
Proof.
  unfold calm_loop1. generalize (default [] tracks). intros l.
  assert (∀ sc, current_track_ids (foldl (calm_loop1_body env cfg) sc l)
                = list_to_set l.*1 ∪ current_track_ids sc) as Hgen.
  { induction l as [|[tid c] l IH]; intros sc; simpl; [set_solver|].
    rewrite IH. unfold calm_loop1_body.
    destruct (active_tracks (sc_state sc) !! tid);
      [|destruct (calm_resolve_new env cfg (Visitors (sc_state sc)) c) as [[?|] ?]];
      simpl; set_solver. }
  rewrite Hgen. simpl. set_solver.
Qed.
End Loop1.

(** ** LOOP 2 *)

Lemma crop_to_log_Some active v c :
  crop_to_log active v = Some c →
  ∃ tid td, active !! tid = Some td ∧ visitor_id td = v ∧ last_crop td = c.
Proof.
  unfold crop_to_log. intros H.
  apply fmap_Some in H as ([i td] & Hfind & ->).
  apply list_find_Some in Hfind as (Hlk & Hv & _).
  apply list_elem_of_lookup_2 in Hlk.
  apply list_elem_of_fmap in Hlk as ([tid td'] & -> & Hin).
  apply elem_of_map_to_list in Hin. by exists tid, td'.
Qed.

Lemma crop_to_log_None active v :
  crop_to_log active v = None →
  ∀ tid td, active !! tid = Some td → visitor_id td ≠ v.
Proof.
  unfold crop_to_log. intros H tid td Hlk.
  apply fmap_None in H. rewrite list_find_None in H.
  rewrite Forall_forall in H. apply H.
  apply list_elem_of_fmap. exists (tid, td). split; [done|].
  by apply elem_of_map_to_list.
Qed.

Lemma crop_to_log_is_Some active v tid td :
  active !! tid = Some td → visitor_id td = v → is_Some (crop_to_log active v).
Proof.
  intros Hlk Hv. destruct (crop_to_log active v) eqn:E; [done|].
  exfalso. by eapply crop_to_log_None.
Qed.

Lemma outcome_image_saved env v k c :
  outcome_of env v k c ≠ ImageFailed ↔ imwrite_ok env c v k = true.
Proof.
  unfold outcome_of.
  destruct (imwrite_ok env c v k), (insert_event_ok env v k), (rollback_event_ok env v k);
    naive_solver.
Qed.

Lemma events_of_app v tr1 tr2 : events_of v (tr1 ++ tr2) = events_of v tr1 ++ events_of v tr2.
Proof. apply filter_app. Qed.

Lemma events_of_one_eq v em : em_visitor em = v → events_of v [em] = [em].
Proof. intros H. unfold events_of. by rewrite filter_cons_True. Qed.

Lemma events_of_one_ne v em : em_visitor em ≠ v → events_of v [em] = [].
Proof. intros H. unfold events_of. by rewrite filter_cons_False. Qed.

Lemma recorded_rows_app tr1 tr2 :
  recorded_rows (tr1 ++ tr2) = recorded_rows tr1 ++ recorded_rows tr2.
Proof. apply omap_app. Qed.

Section Loop2.
Context (env : Env).

Lemma entry_of_ext st st' v :
  active_tracks st' = active_tracks st →
  (v ∈ logged_entry_this_visit st' ↔ v ∈ logged_entry_this_visit st) →
  entry_of env st' v = entry_of env st v.
Proof.
  intros Ha Hl. unfold entry_of. rewrite Ha.
  destruct (decide (v ∈ logged_entry_this_visit st')),
           (decide (v ∈ logged_entry_this_visit st)); naive_solver.
Qed.

(** The parts of the state LOOP 2 leaves alone. *)
Lemma loop2_body_frame acc v :
  active_tracks (calm_loop2_body env acc v).1 = active_tracks acc.1 ∧
  Visitors (calm_loop2_body env acc v).1 = Visitors acc.1.
Proof.
  unfold calm_loop2_body. simpl.
  destruct (decide (v ∈ logged_entry_this_visit acc.1)); [done|].
  destruct (crop_to_log (active_tracks acc.1) v) as [c|]; [|done].
  by destruct (imwrite_ok env c v Entry).
Qed.

Lemma loop2_frame l acc :
  active_tracks (foldl (calm_loop2_body env) acc l).1 = active_tracks acc.1 ∧
  Visitors (foldl (calm_loop2_body env) acc l).1 = Visitors acc.1.
Proof.
  apply (foldl_inv (λ a, active_tracks a.1 = active_tracks acc.1 ∧
                         Visitors a.1 = Visitors acc.1)); [done|].
  intros a x _ [Ha Hv]. destruct (loop2_body_frame a x) as [-> ->]. done.
Qed.

(** The iteration for [v] does not touch what concerns another visitor. *)
Lemma loop2_body_other acc v w :
  w ≠ v →
  pending_exit (calm_loop2_body env acc v).1 !! w = pending_exit acc.1 !! w ∧
  (w ∈ logged_entry_this_visit (calm_loop2_body env acc v).1
     ↔ w ∈ logged_entry_this_visit acc.1) ∧
  events_of w (calm_loop2_body env acc v).2 = events_of w acc.2.
Proof.
  intros Hne. unfold calm_loop2_body. simpl.
  destruct (decide (v ∈ logged_entry_this_visit acc.1)); simpl.
  { by rewrite lookup_delete_ne. }
  destruct (crop_to_log (active_tracks acc.1) v) as [c|]; simpl.
  2: { by rewrite lookup_delete_ne. }
  destruct (imwrite_ok env c v Entry); simpl;
    rewrite lookup_delete_ne by done; rewrite events_of_app;
    rewrite events_of_one_ne by (simpl; congruence); rewrite app_nil_r;
    (split; [done|]); (split; [|done]); set_solver.
Qed.

Lemma loop2_other l acc w :
  w ∉ l →
  pending_exit (foldl (calm_loop2_body env) acc l).1 !! w = pending_exit acc.1 !! w ∧
  (w ∈ logged_entry_this_visit (foldl (calm_loop2_body env) acc l).1
     ↔ w ∈ logged_entry_this_visit acc.1) ∧
  events_of w (foldl (calm_loop2_body env) acc l).2 = events_of w acc.2.
Proof.
  revert acc. induction l as [|x l IH]; intros acc Hw; simpl; [done|].
  apply not_elem_of_cons in Hw as [Hne Hw].
  destruct (IH (calm_loop2_body env acc x) Hw) as (-> & -> & ->).
  by apply loop2_body_other.
Qed.

(** The iteration for [v] itself. *)
Lemma loop2_body_self acc v :
  pending_exit (calm_loop2_body env acc v).1 !! v = None ∧
  (v ∈ logged_entry_this_visit (calm_loop2_body env acc v).1
     ↔ v ∈ logged_entry_this_visit acc.1
       ∨ ∃ em, em ∈ entry_of env acc.1 v ∧ image_saved em) ∧
  events_of v (calm_loop2_body env acc v).2 = events_of v acc.2 ++ entry_of env acc.1 v.
Proof.
  unfold calm_loop2_body, entry_of. simpl.
  destruct (decide (v ∈ logged_entry_this_visit acc.1)) as [Hin|Hnin]; simpl.
  { rewrite lookup_delete_eq, app_nil_r. naive_solver. }
  destruct (crop_to_log (active_tracks acc.1) v) as [c|]; simpl.
  2: { rewrite lookup_delete_eq, app_nil_r. split; [done|]. split; [|done].
       split; [tauto|]. intros [?|(em & Hem & _)]; [done|]. by apply elem_of_nil in Hem. }
  destruct (imwrite_ok env c v Entry) eqn:Hw; simpl;
    rewrite lookup_delete_eq, events_of_app; rewrite events_of_one_eq by done;
    (split; [done|]); (split; [|done]).
  - split; [|set_solver]. intros _. right. eexists. split; [apply list_elem_of_here|].
    unfold image_saved. simpl. by apply outcome_image_saved.
  - split; [tauto|]. intros [?|(em & Hem & Hs)]; [done|].
    apply list_elem_of_singleton in Hem as ->. unfold image_saved in Hs. simpl in Hs.
    apply outcome_image_saved in Hs. congruence.
Qed.

Lemma loop2_self l acc v :
  NoDup l → v ∈ l →
  pending_exit (foldl (calm_loop2_body env) acc l).1 !! v = None ∧
  (v ∈ logged_entry_this_visit (foldl (calm_loop2_body env) acc l).1
     ↔ v ∈ logged_entry_this_visit acc.1
       ∨ ∃ em, em ∈ entry_of env acc.1 v ∧ image_saved em) ∧
  events_of v (foldl (calm_loop2_body env) acc l).2 = events_of v acc.2 ++ entry_of env acc.1 v.
Proof.
  revert acc. induction l as [|x l IH]; intros acc Hnd Hv; simpl.
  { by apply elem_of_nil in Hv. }
  apply NoDup_cons in Hnd as [Hx Hnd].
  destruct (decide (x = v)) as [->|Hne].
  - destruct (loop2_other l (calm_loop2_body env acc v) v Hx) as (-> & -> & ->).
    apply loop2_body_self.
  - apply elem_of_cons in Hv as [?|Hv]; [congruence|].
    destruct (IH (calm_loop2_body env acc x) Hnd Hv) as (-> & -> & ->).
    destruct (loop2_body_other acc x v) as (_ & Hl & ->); [done|].
    rewrite (entry_of_ext acc.1 (calm_loop2_body env acc x).1 v);
      [|apply loop2_body_frame|done].
    rewrite Hl. done.
Qed.

(** The Events table grows by the recorded emissions. *)
Lemma loop2_body_events acc v E :
  Events acc.1 = E ++ recorded_rows acc.2 →
  Events (calm_loop2_body env acc v).1 = E ++ recorded_rows (calm_loop2_body env acc v).2.
Proof.
  intros HE. unfold calm_loop2_body. simpl.
  destruct (decide (v ∈ logged_entry_this_visit acc.1)); [done|].
  destruct (crop_to_log (active_tracks acc.1) v) as [c|]; [|done].
  unfold outcome_of, calm_log_event.
  destruct (imwrite_ok env c v Entry), (insert_event_ok env v Entry),
    (rollback_event_ok env v Entry); simpl;
    rewrite recorded_rows_app; simpl; rewrite HE, ?app_nil_r, ?app_assoc; done.
Qed.
End Loop2.

(** ** LOOP 3 *)

Section Loop3.
Context (env : Env) (visible : gset N).

Lemma loop3_body_frame st tid :
  logged_entry_this_visit (loop3_body env visible st tid) = logged_entry_this_visit st ∧
  Visitors (loop3_body env visible st tid) = Visitors st ∧
  Events (loop3_body env visible st tid) = Events st.
Proof.
  unfold loop3_body. destruct (active_tracks st !! tid) as [td|]; [|done].
  by destruct (decide (visitor_id td ∈ visible)).
Qed.

Lemma loop3_frame l st :
  logged_entry_this_visit (foldl (loop3_body env visible) st l) = logged_entry_this_visit st ∧
  Visitors (foldl (loop3_body env visible) st l) = Visitors st ∧
  Events (foldl (loop3_body env visible) st l) = Events st.
Proof.
  apply (foldl_inv (λ a, logged_entry_this_visit a = logged_entry_this_visit st ∧
                         Visitors a = Visitors st ∧ Events a = Events st)); [done|].
  intros a x _ (Hl & Hv & He). destruct (loop3_body_frame a x) as (-> & -> & ->). done.
Qed.

Lemma loop3_body_active st tid t :
  active_tracks (loop3_body env visible st tid) !! t
  = if decide (t = tid) then None else active_tracks st !! t.
Proof.
  unfold loop3_body. destruct (active_tracks st !! tid) as [td|] eqn:E.
  - destruct (decide (visitor_id td ∈ visible)); simpl;
      destruct (decide (t = tid)) as [->|?];
      by rewrite ?lookup_delete_eq, ?lookup_delete_ne.
  - destruct (decide (t = tid)) as [->|?]; done.
Qed.

(** The lost bindings are removed, the others stay. *)
Lemma loop3_active l st t :
  active_tracks (foldl (loop3_body env visible) st l) !! t
  = if decide (t ∈ l) then None else active_tracks st !! t.
Proof.
  revert st. induction l as [|x l IH]; intros st; cbn [foldl].
  { rewrite decide_False; [done|]. apply not_elem_of_nil. }
  rewrite IH, loop3_body_active.
  destruct (decide (t ∈ l)), (decide (t = x)), (decide (t ∈ x :: l));
    try done; set_solver.
Qed.

Lemma loop3_body_pending st tid w :
  pending_exit (loop3_body env visible st tid) !! w
  = match active_tracks st !! tid with
    | Some td =>
        if decide (visitor_id td = w ∧ w ∉ visible)
        then Some {| timestamp := mark_time env tid; exit_crop := last_crop td |}
        else pending_exit st !! w
    | None => pending_exit st !! w
    end.
Proof.
  unfold loop3_body. destruct (active_tracks st !! tid) as [td|]; [|done].
  destruct (decide (visitor_id td = w ∧ w ∉ visible)) as [[Hv Hw]|Hno];
    destruct (decide (visitor_id td ∈ visible)) as [Hin|Hnin]; simpl; try done.
  - by subst w.
  - subst w. by rewrite lookup_insert_eq.
  - rewrite lookup_insert_ne; [done|]. intros Heq. apply Hno. split; [done|]. by rewrite <- Heq.
Qed.

(** A visitor that is visible, or that no lost binding stands for, keeps
    its pending exit as it is. *)
Lemma loop3_pending_keep l st w :
  (w ∈ visible ∨ ∀ t td, t ∈ l → active_tracks st !! t = Some td → visitor_id td ≠ w) →
  pending_exit (foldl (loop3_body env visible) st l) !! w = pending_exit st !! w.
Proof.
  revert st. induction l as [|x l IH]; intros st Hw; simpl; [done|].
  rewrite IH.
  - rewrite loop3_body_pending. destruct (active_tracks st !! x) as [td|] eqn:E; [|done].
    rewrite decide_False; [done|]. intros [Hv Hnv].
    destruct Hw as [?|Hw]; [done|]. apply (Hw x td); [left|done|done].
  - destruct Hw as [?|Hw]; [by left|right].
    intros t td Ht Hlk. rewrite loop3_body_active in Hlk.
    destruct (decide (t = x)); [done|]. apply (Hw t td); [by right|done].
Qed.

(** A visitor that is not visible and that a lost binding stands for is
    marked pending, with the clock reading and the last crop of one of
    its lost bindings. *)
Lemma loop3_pending_mark l st w t td :
  NoDup l → w ∉ visible → t ∈ l →
  active_tracks st !! t = Some td → visitor_id td = w →
  ∃ t' td', t' ∈ l ∧ active_tracks st !! t' = Some td' ∧ visitor_id td' = w ∧
    pending_exit (foldl (loop3_body env visible) st l) !! w
    = Some {| timestamp := mark_time env t'; exit_crop := last_crop td' |}.
Proof.
  revert t td. induction l as [|x l IH] using rev_ind; intros t td Hnd Hnv Ht Hlk Hv.
  { by apply elem_of_nil in Ht. }
  apply NoDup_app in Hnd as (Hnd & Hdisj & _).
  assert (x ∉ l) as Hx. { intros Hin. apply (Hdisj x Hin). apply list_elem_of_here. }
  rewrite foldl_app. simpl. rewrite loop3_body_pending, loop3_active.
  rewrite decide_False by done.
  destruct (active_tracks st !! x) as [tdx|] eqn:Ex.
  - destruct (decide (visitor_id tdx = w ∧ w ∉ visible)) as [[Hvx _]|Hno].
    + exists x, tdx. split; [set_solver|]. done.
    + apply elem_of_app in Ht as [Ht|Ht].
      * destruct (IH t td Hnd Hnv Ht Hlk Hv) as (t' & td' & Ht' & Hlk' & Hv' & Hp).
        exists t', td'. split; [set_solver|]. done.
      * apply list_elem_of_singleton in Ht as ->. exfalso. apply Hno.
        split; [congruence|done].
  - apply elem_of_app in Ht as [Ht|Ht].
    + destruct (IH t td Hnd Hnv Ht Hlk Hv) as (t' & td' & Ht' & Hlk' & Hv' & Hp).
      exists t', td'. split; [set_solver|]. done.
    + apply list_elem_of_singleton in Ht as ->. congruence.
Qed.
(** Whatever LOOP 3 does to the pending exit of a visitor is one of
    these two. *)
Lemma loop3_pending_cases l st w :
  pending_exit (foldl (loop3_body env visible) st l) !! w = pending_exit st !! w
  ∨ (w ∉ visible ∧ ∃ t td, t ∈ l ∧ active_tracks st !! t = Some td ∧ visitor_id td = w ∧
       pending_exit (foldl (loop3_body env visible) st l) !! w
       = Some {| timestamp := mark_time env t; exit_crop := last_crop td |}).
Proof.
  induction l as [|x l IH] using rev_ind; [by left|].
  rewrite foldl_app. cbn [foldl]. rewrite loop3_body_pending, loop3_active.
  destruct (decide (x ∈ l)) as [Hx|Hx].
  { destruct IH as [IH|(Hw & t & td & Ht & Hlk & Hv & Hp)]; [by left|right].
    split; [done|]. exists t, td. split; [set_solver|]. done. }
  destruct (active_tracks st !! x) as [tdx|] eqn:Ex.
  - destruct (decide (visitor_id tdx = w ∧ w ∉ visible)) as [[Hvx Hw]|Hno].
    + right. split; [done|]. exists x, tdx. split; [set_solver|]. done.
    + destruct IH as [IH|(Hw & t & td & Ht & Hlk & Hv & Hp)]; [by left|right].
      split; [done|]. exists t, td. split; [set_solver|]. done.
  - destruct IH as [IH|(Hw & t & td & Ht & Hlk & Hv & Hp)]; [by left|right].
    split; [done|]. exists t, td. split; [set_solver|]. done.
Qed.
End Loop3.

(** ** LOOP 4 *)

Section Loop4.
Context (env : Env) (cfg : Config).

Lemma loop4_body_frame acc item :
  active_tracks (calm_loop4_body env cfg acc item).1 = active_tracks acc.1 ∧
  Visitors (calm_loop4_body env cfg acc item).1 = Visitors acc.1.
Proof.
  unfold calm_loop4_body. destruct item as [v xd].
  destruct (Qgtb _ _); [|done]. simpl.
  by destruct (imwrite_ok env (exit_crop xd) v Exit).
Qed.

Lemma loop4_frame l acc :
  active_tracks (foldl (calm_loop4_body env cfg) acc l).1 = active_tracks acc.1 ∧
  Visitors (foldl (calm_loop4_body env cfg) acc l).1 = Visitors acc.1.
Proof.
  apply (foldl_inv (λ a, active_tracks a.1 = active_tracks acc.1 ∧
                         Visitors a.1 = Visitors acc.1)); [done|].
  intros a x _ [Ha Hv]. destruct (loop4_body_frame a x) as [-> ->]. done.
Qed.

Lemma loop4_body_other acc v xd w :
  w ≠ v →
  pending_exit (calm_loop4_body env cfg acc (v, xd)).1 !! w = pending_exit acc.1 !! w ∧
  (w ∈ logged_entry_this_visit (calm_loop4_body env cfg acc (v, xd)).1
     ↔ w ∈ logged_entry_this_visit acc.1) ∧
  events_of w (calm_loop4_body env cfg acc (v, xd)).2 = events_of w acc.2.
Proof.
  intros Hne. unfold calm_loop4_body. destruct (Qgtb _ _); [|done]. simpl.
  rewrite events_of_app, events_of_one_ne by (simpl; congruence). rewrite app_nil_r.
  destruct (imwrite_ok env (exit_crop xd) v Exit); simpl;
    rewrite lookup_delete_ne by done; (split; [done|]); (split; [|done]); set_solver.
Qed.

Lemma loop4_other l acc w :
  w ∉ l.*1 →
  pending_exit (foldl (calm_loop4_body env cfg) acc l).1 !! w = pending_exit acc.1 !! w ∧
  (w ∈ logged_entry_this_visit (foldl (calm_loop4_body env cfg) acc l).1
     ↔ w ∈ logged_entry_this_visit acc.1) ∧
  events_of w (foldl (calm_loop4_body env cfg) acc l).2 = events_of w acc.2.
Proof.
  revert acc. induction l as [|[x xd] l IH]; intros acc Hw; cbn [foldl]; [done|].
  rewrite fmap_cons in Hw. apply not_elem_of_cons in Hw as [Hne Hw].
  destruct (IH (calm_loop4_body env cfg acc (x, xd)) Hw) as (-> & -> & ->).
  by apply loop4_body_other.
Qed.

Lemma loop4_body_self acc v xd :
  pending_exit (calm_loop4_body env cfg acc (v, xd)).1 !! v
    = (if expired env cfg xd then None else pending_exit acc.1 !! v) ∧
  (v ∈ logged_entry_this_visit (calm_loop4_body env cfg acc (v, xd)).1
     ↔ v ∈ logged_entry_this_visit acc.1 ∧ expired env cfg xd = false) ∧
  events_of v (calm_loop4_body env cfg acc (v, xd)).2 = events_of v acc.2 ++ exit_of env cfg v xd.
Proof.
  unfold calm_loop4_body, exit_of, expired.
  destruct (Qgtb _ _); simpl.
  2: { rewrite app_nil_r. naive_solver. }
  rewrite events_of_app, events_of_one_eq by done.
  destruct (imwrite_ok env (exit_crop xd) v Exit); simpl;
    rewrite lookup_delete_eq; (split; [done|]); (split; [|done]); set_solver.
Qed.

Lemma loop4_self l acc v xd :
  NoDup l.*1 → (v, xd) ∈ l →
  pending_exit (foldl (calm_loop4_body env cfg) acc l).1 !! v
    = (if expired env cfg xd then None else pending_exit acc.1 !! v) ∧
  (v ∈ logged_entry_this_visit (foldl (calm_loop4_body env cfg) acc l).1
     ↔ v ∈ logged_entry_this_visit acc.1 ∧ expired env cfg xd = false) ∧
  events_of v (foldl (calm_loop4_body env cfg) acc l).2 = events_of v acc.2 ++ exit_of env cfg v xd.
Proof.
  revert acc. induction l as [|[x xd'] l IH]; intros acc Hnd Hv; cbn [foldl].
  { by apply elem_of_nil in Hv. }
  rewrite fmap_cons in Hnd. apply NoDup_cons in Hnd as [Hx Hnd]. simpl in Hx.
  apply elem_of_cons in Hv as [Heq|Hv].
  - inversion Heq; subst x xd'.
    destruct (loop4_other l (calm_loop4_body env cfg acc (v, xd)) v Hx) as (-> & -> & ->).
    apply loop4_body_self.
  - assert (v ≠ x) as Hne.
    { intros ->. apply Hx. apply list_elem_of_fmap. by exists (x, xd). }
    destruct (IH (calm_loop4_body env cfg acc (x, xd')) Hnd Hv) as (-> & -> & ->).
    destruct (loop4_body_other acc x xd' v Hne) as (-> & -> & ->). done.
Qed.

Lemma loop4_body_events acc item E :
  Events acc.1 = E ++ recorded_rows acc.2 →
  Events (calm_loop4_body env cfg acc item).1 = E ++ recorded_rows (calm_loop4_body env cfg acc item).2.
Proof.
  intros HE. unfold calm_loop4_body. destruct item as [v xd].
  destruct (Qgtb _ _); [|done]. simpl.
  unfold outcome_of, calm_log_event.
  destruct (imwrite_ok env (exit_crop xd) v Exit), (insert_event_ok env v Exit),
    (rollback_event_ok env v Exit); simpl;
    rewrite recorded_rows_app; simpl; rewrite HE, ?app_nil_r, ?app_assoc; done.
Qed.
End Loop4.

(** ** One frame *)

Section OneFrame.
Context (env : Env) (cfg : Config) (st : State) (tracks : option (list (Z * Crop))).

Local Abbreviation sc := (calm_loop1 env cfg st tracks).
Local Abbreviation V := (calm_visible_visitors env cfg st tracks).
Local Abbreviation s1 := (sc_state (calm_loop1 env cfg st tracks)).
Local Abbreviation r2 := (calm_after_entries env cfg st tracks).
Local Abbreviation r3 := (calm_after_churn env cfg st tracks).
Local Abbreviation r4 := (calm_update_frame env cfg st tracks).

Lemma frame_s1_logged : logged_entry_this_visit s1 = logged_entry_this_visit st.
Proof. apply (si_logged _ _ (loop1_inv env cfg st tracks)). Qed.

Lemma frame_s1_pending : pending_exit s1 = pending_exit st.
Proof. apply (si_pending _ _ (loop1_inv env cfg st tracks)). Qed.

Lemma frame_unseen t :
  t ∉ current_track_ids sc → active_tracks s1 !! t = active_tracks st !! t.
Proof. apply (si_unseen _ _ (loop1_inv env cfg st tracks)). Qed.

(** A visible visitor has an active track after LOOP 1. *)
Lemma visible_has_track v :
  v ∈ V → ∃ tid td, tid ∈ current_track_ids sc ∧
                    active_tracks s1 !! tid = Some td ∧ visitor_id td = v.
Proof. apply (si_visible_tracked _ _ (loop1_inv env cfg st tracks)). Qed.

Lemma entry_of_visible v :
  v ∈ V → v ∉ logged_entry_this_visit st →
  ∃ c, entry_of env s1 v
       = [{| em_visitor := v; em_kind := Entry; em_crop := c;
             em_outcome := outcome_of env v Entry c |}].
Proof.
  intros Hv Hl. destruct (visible_has_track v Hv) as (tid & td & _ & Hlk & Hvid).
  destruct (crop_to_log_is_Some _ _ _ _ Hlk Hvid) as [c Hc].
  exists c. unfold entry_of. rewrite frame_s1_logged, decide_False by done.
  by rewrite Hc.
Qed.

Lemma entry_of_logged v :
  v ∈ logged_entry_this_visit st → entry_of env s1 v = [].
Proof.
  intros Hl. unfold entry_of. by rewrite frame_s1_logged, decide_True.
Qed.

(** After LOOP 2. *)
Lemma frame_r2_active : active_tracks r2.1 = active_tracks s1.
Proof. apply (loop2_frame env). Qed.

Lemma frame_r2_visible v :
  v ∈ V →
  pending_exit r2.1 !! v = None ∧
  (v ∈ logged_entry_this_visit r2.1
     ↔ v ∈ logged_entry_this_visit st ∨ ∃ em, em ∈ entry_of env s1 v ∧ image_saved em) ∧
  events_of v r2.2 = entry_of env s1 v.
Proof.
  intros Hv.
  destruct (loop2_self env (elements V) (s1, []) v) as (Hp & Hl & He).
  { apply NoDup_elements. }
  { by apply elem_of_elements. }
  split; [exact Hp|]. split; [|exact He].
  rewrite <- frame_s1_logged. exact Hl.
Qed.

Lemma frame_r2_hidden v :
  v ∉ V →
  pending_exit r2.1 !! v = pending_exit st !! v ∧
  (v ∈ logged_entry_this_visit r2.1 ↔ v ∈ logged_entry_this_visit st) ∧
  events_of v r2.2 = [].
Proof.
  intros Hv.
  destruct (loop2_other env (elements V) (s1, []) v) as (Hp & Hl & He).
  { by rewrite elem_of_elements. }
  rewrite <- frame_s1_pending, <- frame_s1_logged. done.
Qed.

(** After LOOP 3. *)
Lemma frame_r3_trace : r3.2 = r2.2.
Proof. done. Qed.

Lemma frame_r3_logged : logged_entry_this_visit r3.1 = logged_entry_this_visit r2.1.
Proof. apply loop3_frame. Qed.

Lemma frame_r3_active t :
  active_tracks r3.1 !! t
  = if decide (t ∈ current_track_ids sc) then active_tracks s1 !! t else None.
Proof.
  unfold r3, calm_after_churn. simpl. rewrite loop3_active.
  fold r2 sc. rewrite frame_r2_active.
  destruct (decide (t ∈ elements (dom (active_tracks s1) ∖ current_track_ids sc)))
    as [Hin|Hnin]; destruct (decide (t ∈ current_track_ids sc)) as [HT|HT]; try done.
  - apply elem_of_elements in Hin. set_solver.
  - rewrite elem_of_elements in Hnin.
    destruct (active_tracks s1 !! t) eqn:E; [|done].
    exfalso. apply Hnin. apply elem_of_difference. split; [|done].
    apply elem_of_dom. by rewrite E.
Qed.

(** Every binding that survives the frame was reported in it and stands
    for a visible visitor. *)
Lemma frame_r3_active_visible t td :
  active_tracks r3.1 !! t = Some td →
  t ∈ current_track_ids sc ∧ visitor_id td ∈ V.
Proof.
  rewrite frame_r3_active. destruct (decide (t ∈ current_track_ids sc)); [|done].
  intros Hlk. split; [done|].
  by apply (si_tracked_visible _ _ (loop1_inv env cfg st tracks) t td).
Qed.

Lemma frame_r3_visible v : v ∈ V → pending_exit r3.1 !! v = None.
Proof.
  intros Hv. unfold r3, calm_after_churn. simpl. rewrite loop3_pending_keep; [|by left].
  by apply frame_r2_visible.
Qed.

(** The lost bindings are the bindings of the old state that the frame
    does not report. *)
Lemma lost_binding t :
  t ∈ elements (dom (active_tracks r2.1) ∖ current_track_ids sc)
  ↔ t ∉ current_track_ids sc ∧ is_Some (active_tracks st !! t).
Proof.
  rewrite elem_of_elements, elem_of_difference, elem_of_dom, frame_r2_active.
  split.
  - intros [Hs HT]. split; [done|]. by rewrite <- frame_unseen.
  - intros [HT Hs]. split; [|done]. by rewrite frame_unseen.
Qed.

Lemma frame_r3_kept v :
  (∀ t td, t ∉ current_track_ids sc → active_tracks st !! t = Some td →
           visitor_id td ≠ v) →
  pending_exit r3.1 !! v = pending_exit r2.1 !! v.
Proof.
  intros Hno. unfold r3, calm_after_churn. simpl. apply loop3_pending_keep. right.
  intros t td Ht Hlk. fold sc r2 in Ht. apply lost_binding in Ht as [HT _].
  fold r2 in Hlk. rewrite frame_r2_active, frame_unseen in Hlk by done.
  by apply (Hno t td).
Qed.

Lemma frame_r3_marked v t td :
  v ∉ V → t ∉ current_track_ids sc →
  active_tracks st !! t = Some td → visitor_id td = v →
  ∃ t' td', t' ∉ current_track_ids sc ∧ active_tracks st !! t' = Some td' ∧
    visitor_id td' = v ∧
    pending_exit r3.1 !! v
    = Some {| timestamp := mark_time env t'; exit_crop := last_crop td' |}.
Proof.
  intros Hv HT Hlk Hvid.
  assert (∀ t, t ∉ current_track_ids sc → active_tracks r2.1 !! t = active_tracks st !! t)
    as Hsame.
  { intros t0 Ht0. rewrite frame_r2_active. by apply frame_unseen. }
  destruct (loop3_pending_mark env V
              (elements (dom (active_tracks r2.1) ∖ current_track_ids sc))
              r2.1 v t td) as (t' & td' & Ht' & Hlk' & Hv' & Hp); try done.
  { apply NoDup_elements. }
  { apply lost_binding. split; [done|]. by rewrite Hlk. }
  { by rewrite Hsame. }
  apply lost_binding in Ht' as [HT' _].
  exists t', td'. split; [done|]. split; [by rewrite <- Hsame|]. split; [done|].
  exact Hp.
Qed.

Lemma frame_r3_cases v :
  pending_exit r3.1 !! v = pending_exit r2.1 !! v
  ∨ (v ∉ V ∧ ∃ t td, t ∉ current_track_ids sc ∧ active_tracks st !! t = Some td ∧
       visitor_id td = v ∧
       pending_exit r3.1 !! v
       = Some {| timestamp := mark_time env t; exit_crop := last_crop td |}).
Proof.
  destruct (loop3_pending_cases env V
              (elements (dom (active_tracks r2.1) ∖ current_track_ids sc)) r2.1 v)
    as [H|(Hv & t & td & Ht & Hlk & Hvid & Hp)]; [by left|right].
  split; [done|]. apply lost_binding in Ht as [HT _].
  exists t, td. split; [done|]. split; [|done].
  by rewrite frame_r2_active, frame_unseen in Hlk.
Qed.

(** After LOOP 4. *)
Lemma frame_r4_active : active_tracks r4.1 = active_tracks r3.1.
Proof. apply loop4_frame. Qed.

Lemma frame_r4_pending_Some v xd :
  pending_exit r3.1 !! v = Some xd →
  pending_exit r4.1 !! v = (if expired env cfg xd then None else Some xd) ∧
  (v ∈ logged_entry_this_visit r4.1
     ↔ v ∈ logged_entry_this_visit r2.1 ∧ expired env cfg xd = false) ∧
  events_of v r4.2 = events_of v r2.2 ++ exit_of env cfg v xd.
Proof.
  intros Hp.
  destruct (loop4_self env cfg (map_to_list (pending_exit r3.1)) r3 v xd)
    as (Hp4 & Hl4 & He4).
  { apply NoDup_fst_map_to_list. }
  { by apply elem_of_map_to_list. }
  fold r4 in Hp4, Hl4, He4. rewrite Hp in Hp4. rewrite frame_r3_logged in Hl4. done.
Qed.

Lemma frame_r4_pending_None v :
  pending_exit r3.1 !! v = None →
  pending_exit r4.1 !! v = None ∧
  (v ∈ logged_entry_this_visit r4.1 ↔ v ∈ logged_entry_this_visit r2.1) ∧
  events_of v r4.2 = events_of v r2.2.
Proof.
  intros Hp.
  destruct (loop4_other env cfg (map_to_list (pending_exit r3.1)) r3 v)
    as (Hp4 & Hl4 & He4).
  { intros Hin. apply list_elem_of_fmap in Hin as ([v' xd] & -> & Hin).
    apply elem_of_map_to_list in Hin.
    change (pending_exit r3.1 !! v' = None) in Hp. congruence. }
  fold r4 in Hp4, Hl4, He4. rewrite Hp in Hp4. rewrite frame_r3_logged in Hl4. done.
Qed.

Lemma frame_track_ids : current_track_ids sc = reported_ids tracks.
Proof. apply loop1_track_ids. Qed.

(** What the frame does for a visible visitor. *)
Lemma frame_visible v :
  v ∈ V →
  pending_exit r4.1 !! v = None ∧
  (v ∈ logged_entry_this_visit r4.1
     ↔ v ∈ logged_entry_this_visit st ∨ ∃ em, em ∈ entry_of env s1 v ∧ image_saved em) ∧
  events_of v r4.2 = entry_of env s1 v.
Proof.
  intros Hv. destruct (frame_r2_visible v Hv) as (Hp2 & Hl2 & He2).
  destruct (frame_r4_pending_None v (frame_r3_visible v Hv)) as (Hp4 & Hl4 & He4).
  rewrite Hl4, He4. done.
Qed.

(** What the frame does for a visitor that is not visible. *)
Lemma frame_hidden v :
  v ∉ V →
  match pending_exit r3.1 !! v with
  | Some xd =>
      pending_exit r4.1 !! v = (if expired env cfg xd then None else Some xd) ∧
      (v ∈ logged_entry_this_visit r4.1
         ↔ v ∈ logged_entry_this_visit st ∧ expired env cfg xd = false) ∧
      events_of v r4.2 = exit_of env cfg v xd
  | None =>
      pending_exit r4.1 !! v = None ∧
      (v ∈ logged_entry_this_visit r4.1 ↔ v ∈ logged_entry_this_visit st) ∧
      events_of v r4.2 = []
  end.
Proof.
  intros Hv. destruct (frame_r2_hidden v Hv) as (Hp2 & Hl2 & He2).
  destruct (pending_exit r3.1 !! v) as [xd|] eqn:E.
  - destruct (frame_r4_pending_Some v xd E) as (Hp4 & Hl4 & He4).
    rewrite Hp4, Hl4, He4, He2, Hl2. done.
  - destruct (frame_r4_pending_None v E) as (Hp4 & Hl4 & He4).
    rewrite Hp4, Hl4, He4, He2, Hl2. done.
Qed.

(** No binding of the visitor survives a frame that does not show it. *)
Lemma frame_hidden_untracked v t td :
  v ∉ V → active_tracks r4.1 !! t = Some td → visitor_id td ≠ v.
Proof.
  intros Hv Hlk Heq. rewrite frame_r4_active in Hlk.
  apply frame_r3_active_visible in Hlk as [_ Hin]. congruence.
Qed.

(** The Events table after the frame. *)
Lemma frame_r2_events : Events r2.1 = Events st ++ recorded_rows r2.2.
Proof.
  unfold r2, calm_after_entries.
  apply (foldl_inv (λ a, Events a.1 = Events st ++ recorded_rows a.2)).
  - simpl. rewrite app_nil_r. apply (si_events _ _ (loop1_inv env cfg st tracks)).
  - intros a x _. apply loop2_body_events.
Qed.

Lemma frame_r3_events : Events r3.1 = Events st ++ recorded_rows r3.2.
Proof.
  rewrite frame_r3_trace, <- frame_r2_events. apply loop3_frame.
Qed.

Lemma frame_events : Events r4.1 = Events st ++ recorded_rows r4.2.
Proof.
  unfold r4, calm_update_frame.
  apply (foldl_inv (λ a, Events a.1 = Events st ++ recorded_rows a.2)).
  - apply frame_r3_events.
  - intros a x _. apply loop4_body_events.
Qed.
End OneFrame.

(** ** Properties of one frame *)

(** After a frame update no visible visitor is a key of
    [pending_exit]: LOOP 2 cancels the pending exit of every visible
    visitor, and an entry that is pending after the frame is either an old
    one or was made in LOOP 3 for a lost binding of a visitor that is not
    visible. *)
Theorem calm_visible_never_pending env cfg st tracks :
  let V := calm_visible_visitors env cfg st tracks in
  let st' := (calm_update_frame env cfg st tracks).1 in
  (∀ v, v ∈ V → pending_exit (calm_after_entries env cfg st tracks).1 !! v = None) ∧
  (∀ v, v ∈ V → pending_exit st' !! v = None) ∧
  (∀ v xd, pending_exit st' !! v = Some xd →
     v ∉ V ∧
     (pending_exit st !! v = Some xd
      ∨ ∃ t td, t ∉ reported_ids tracks ∧ active_tracks st !! t = Some td ∧
          visitor_id td = v ∧
          xd = {| timestamp := mark_time env t; exit_crop := last_crop td |})).
Proof.
  intros V st'. subst V st'. split; [|split].
  - intros v Hv. by apply frame_r2_visible.
  - intros v Hv. by apply frame_visible.
  - intros v xd Hp.
    assert (v ∉ calm_visible_visitors env cfg st tracks) as Hv.
    { intros Hv. apply (frame_visible env cfg st tracks) in Hv as (Hn & _). congruence. }
    split; [done|].
    pose proof (frame_hidden env cfg st tracks v Hv) as Hh.
    destruct (pending_exit (calm_after_churn env cfg st tracks).1 !! v) as [xd3|] eqn:E3.
    2: { destruct Hh as (Hn & _). congruence. }
    destruct Hh as (Hp4 & _). rewrite Hp in Hp4.
    assert (xd3 = xd) as ->. { destruct (expired env cfg xd3); congruence. }
    destruct (frame_r3_cases env cfg st tracks v)
      as [Hsame|(_ & t & td & Ht & Hlk & Hvid & Hmark)].
    + left. rewrite <- E3, Hsame. symmetry. by apply frame_r2_hidden.
    + right. exists t, td. rewrite frame_track_ids in Ht.
      split; [done|]. split; [done|]. split; [done|]. congruence.
Qed.



(** ** Re-identification *)

Lemma top_row_None rows : top_row rows = None → rows = [].
Proof.
  destruct rows as [|r rest]; [done|]. simpl.
  destruct (top_row rest) as [r'|]; [|done]. by destruct (Qle_bool r'.2 r.2).
Qed.

Lemma top_row_Some rows r :
  top_row rows = Some r → r ∈ rows ∧ ∀ r', r' ∈ rows → r'.2 <= r.2.
Proof.
  revert r. induction rows as [|r0 rest IH]; intros r; simpl; [done|].
  destruct (top_row rest) as [r1|] eqn:E.
  - destruct (IH r1 eq_refl) as [Hin Hmax].
    destruct (Qle_bool r1.2 r0.2) eqn:Hle; intros [= <-].
    + apply Qle_bool_iff in Hle. split; [left|].
      intros r' [->|Hr']%elem_of_cons; [apply Qle_refl|].
      eapply Qle_trans; [by apply Hmax|done].
    + assert (r0.2 < r1.2) as Hlt.
      { apply Qnot_le_lt. intros Hc. apply Qle_bool_iff in Hc. congruence. }
      split; [by right|].
      intros r' [->|Hr']%elem_of_cons; [by apply Qlt_le_weak|by apply Hmax].
  - apply top_row_None in E as ->. intros [= <-]. split; [left|].
    intros r' [->|Hr']%elem_of_cons; [apply Qle_refl|by apply elem_of_nil in Hr'].
Qed.

Lemma elem_of_candidates env e thr rows v s :
  (v, s) ∈ candidates env e thr rows
  ↔ thr <= s ∧ ∃ e', (v, e') ∈ rows ∧ s = similarity env e e'.
Proof.
  unfold candidates. rewrite list_elem_of_filter, list_elem_of_fmap. simpl.
  rewrite Is_true_true, Qle_bool_iff. split.
  - intros [Hle ([v' e'] & [= -> ->] & Hin)]. eauto.
  - intros [Hle (e' & Hin & ->)]. split; [done|]. by exists (v, e').
Qed.

(** [find_visitor] returns a stored visitor of greatest similarity among
    those that meet the threshold. *)
Lemma find_visitor_Some env rows e thr v s :
  find_visitor env rows e thr = Some (v, s) →
  select_ok env e = true ∧
  ∃ e', (v, e') ∈ rows ∧ s = similarity env e e' ∧ thr <= s ∧
        ∀ v2 e2, (v2, e2) ∈ rows → similarity env e e2 <= s.
Proof.
  unfold find_visitor. destruct (select_ok env e); [|done].
  intros [Hin Hmax]%top_row_Some. split; [done|].
  apply elem_of_candidates in Hin as [Hle (e' & Hin & Hs)].
  exists e'. split; [done|]. split; [done|]. split; [done|].
  intros v2 e2 Hin2.
  destruct (Qlt_le_dec (similarity env e e2) thr) as [Hlt|Hge].
  - apply Qlt_le_weak. by eapply Qlt_le_trans.
  - apply (Hmax (v2, similarity env e e2)). apply elem_of_candidates. eauto.
Qed.

Lemma find_visitor_None env rows e thr :
  find_visitor env rows e thr = None →
  select_ok env e = false
  ∨ ∀ v2 e2, (v2, e2) ∈ rows → similarity env e e2 < thr.
Proof.
  unfold find_visitor. destruct (select_ok env e); [|by left].
  intros Hnil%top_row_None. right. intros v2 e2 Hin.
  apply Qnot_le_lt. intros Hle.
  assert ((v2, similarity env e e2) ∈ candidates env e thr rows) as Hc.
  { apply elem_of_candidates. eauto. }
  rewrite Hnil in Hc. by apply elem_of_nil in Hc.
Qed.

(** For a crop with an embedding, resolution returns the
    stored visitor of greatest cosine similarity only when that similarity
    is at least the threshold and the search succeeded, and leaves the table
    alone; otherwise it registers the embedding under a new identity and
    returns it, provided the INSERT succeeds and returns an id that is not
    yet stored; when the INSERT fails, resolution yields nothing and the
    table is unchanged. *)
Theorem calm_reid_resolution env cfg rows crop_img e :
  get_embedding env crop_img = Some e →
  let thr := similarity_threshold cfg in
  let no_match :=
    select_ok env e = false ∨ ∀ v2 e2, (v2, e2) ∈ rows → similarity env e e2 < thr in
  match calm_resolve_new env cfg rows crop_img with
  | (Some v, rows') =>
      (rows' = rows ∧ select_ok env e = true ∧
       ∃ e', (v, e') ∈ rows ∧ thr <= similarity env e e' ∧
             ∀ v2 e2, (v2, e2) ∈ rows → similarity env e e2 <= similarity env e e')
      ∨ (rows' = rows ++ [(v, e)] ∧ v ∉ rows.*1 ∧
         insert_visitor env rows e = Some v ∧ no_match)
  | (None, rows') =>
      rows' = rows ∧ no_match ∧
      (insert_visitor env rows e = None
       ∨ ∃ v, insert_visitor env rows e = Some v ∧ v ∈ rows.*1)
  end.
Proof.
  intros He thr no_match. unfold calm_resolve_new. rewrite He.
  destruct (find_visitor env rows e (similarity_threshold cfg)) as [[v s]|] eqn:Hfind.
  - left. apply find_visitor_Some in Hfind as (Hok & e' & Hin & -> & Hle & Hmax).
    split; [done|]. split; [done|]. by exists e'.
  - apply find_visitor_None in Hfind. unfold calm_register_new_visitor, id_is_free.
    destruct (insert_visitor env rows e) as [v|] eqn:Hins.
    + destruct (bool_decide (v ∉ rows.*1)) eqn:Hfree.
      * right. apply bool_decide_eq_true in Hfree. done.
      * apply bool_decide_eq_false in Hfree. split; [done|]. split; [done|].
        right. exists v. split; [done|]. by apply dec_stable.
    + split; [done|]. split; [done|]. by left.
Qed.

(** ** Unusable crops *)

(** LOOP 1 never reads [current_track_ids]. *)
Lemma loop1_body_ids env cfg sc sc' X det :
  sc_state sc' = sc_state sc →
  current_visitor_ids_in_frame sc' = current_visitor_ids_in_frame sc →
  current_track_ids sc' = X ∪ current_track_ids sc →
  sc_state (calm_loop1_body env cfg sc' det) = sc_state (calm_loop1_body env cfg sc det) ∧
  current_visitor_ids_in_frame (calm_loop1_body env cfg sc' det)
    = current_visitor_ids_in_frame (calm_loop1_body env cfg sc det) ∧
  current_track_ids (calm_loop1_body env cfg sc' det)
    = X ∪ current_track_ids (calm_loop1_body env cfg sc det).
Proof.
  intros Hs Hv Ht. destruct det as [tid c]. unfold calm_loop1_body. rewrite Hs, Hv, Ht.
  destruct (active_tracks (sc_state sc) !! tid);
    [|destruct (calm_resolve_new env cfg (Visitors (sc_state sc)) c) as [[?|] ?]];
    simpl; (split; [done|]); (split; [done|]); set_solver.
Qed.

Lemma loop1_fold_ids env cfg l sc sc' X :
  sc_state sc' = sc_state sc →
  current_visitor_ids_in_frame sc' = current_visitor_ids_in_frame sc →
  current_track_ids sc' = X ∪ current_track_ids sc →
  sc_state (foldl (calm_loop1_body env cfg) sc' l) = sc_state (foldl (calm_loop1_body env cfg) sc l) ∧
  current_visitor_ids_in_frame (foldl (calm_loop1_body env cfg) sc' l)
    = current_visitor_ids_in_frame (foldl (calm_loop1_body env cfg) sc l) ∧
  current_track_ids (foldl (calm_loop1_body env cfg) sc' l)
    = X ∪ current_track_ids (foldl (calm_loop1_body env cfg) sc l).
Proof.
  revert sc sc'. induction l as [|det l IH]; intros sc sc' Hs Hv Ht; cbn [foldl]; [done|].
  destruct (loop1_body_ids env cfg sc sc' X det Hs Hv Ht) as (Hs' & Hv' & Ht').
  by apply IH.
Qed.

Lemma loop1_body_skip env cfg sc track_id crop_img :
  active_tracks (sc_state sc) !! track_id = None →
  get_embedding env crop_img = None →
  calm_loop1_body env cfg sc (track_id, crop_img)
  = {| sc_state := sc_state sc;
       current_track_ids := {[track_id]} ∪ current_track_ids sc;
       current_visitor_ids_in_frame := current_visitor_ids_in_frame sc |}.
Proof.
  intros Hnew Hemb. unfold calm_loop1_body, calm_resolve_new. rewrite Hnew, Hemb.
  by destruct (sc_state sc).
Qed.

(** A reported binding that is not in the registry and whose crop
    has no embedding is skipped: the iteration of LOOP 1 changes neither the
    state nor the set of visible visitors, and the whole frame ends in the
    state, with the emissions, of the same frame without the binding.  The
    registry keeps no mark of the skip, so a later report of the binding
    goes through the embedder again and, once resolution yields a visitor,
    gets its entry in the registry with that visitor made visible. *)
Theorem calm_no_usable_face_is_skipped_and_retried env cfg :
  (∀ sc track_id crop_img,
     active_tracks (sc_state sc) !! track_id = None →
     get_embedding env crop_img = None →
     calm_loop1_body env cfg sc (track_id, crop_img)
     = {| sc_state := sc_state sc;
          current_track_ids := {[track_id]} ∪ current_track_ids sc;
          current_visitor_ids_in_frame := current_visitor_ids_in_frame sc |}) ∧
  (∀ st pre post track_id crop_img,
     calm_resolved env cfg st (Some pre) !! track_id = None →
     get_embedding env crop_img = None →
     calm_update_frame env cfg st (Some (pre ++ (track_id, crop_img) :: post))
     = calm_update_frame env cfg st (Some (pre ++ post))
     ∧ calm_visible_visitors env cfg st (Some (pre ++ (track_id, crop_img) :: post))
       = calm_visible_visitors env cfg st (Some (pre ++ post))) ∧
  (∀ sc track_id crop_img v rows,
     active_tracks (sc_state sc) !! track_id = None →
     calm_resolve_new env cfg (Visitors (sc_state sc)) crop_img = (Some v, rows) →
     let sc' := calm_loop1_body env cfg sc (track_id, crop_img) in
     active_tracks (sc_state sc') !! track_id
       = Some {| visitor_id := v; last_crop := crop_img |} ∧
     v ∈ current_visitor_ids_in_frame sc').
Proof.
  split; [|split].
  - apply loop1_body_skip.
  - intros st pre post tid c Hnew Hemb.
    set (start := {| sc_state := st; current_track_ids := ∅;
                     current_visitor_ids_in_frame := ∅ |}).
    set (scA := foldl (calm_loop1_body env cfg) start pre).
    assert (calm_loop1 env cfg st (Some (pre ++ (tid, c) :: post))
            = foldl (calm_loop1_body env cfg) (calm_loop1_body env cfg scA (tid, c)) post) as HL.
    { unfold calm_loop1. simpl. by rewrite foldl_app. }
    assert (calm_loop1 env cfg st (Some (pre ++ post)) = foldl (calm_loop1_body env cfg) scA post) as HR.
    { unfold calm_loop1. simpl. by rewrite foldl_app. }
    assert (active_tracks st !! tid = None) as Hst.
    { destruct (active_tracks st !! tid) as [td|] eqn:E; [|done].
      destruct (si_binding_kept _ _ (loop1_inv env cfg st (Some pre)) tid td E)
        as (td' & Hlk & _).
      unfold calm_resolved in Hnew. congruence. }
    destruct (loop1_fold_ids env cfg post scA (calm_loop1_body env cfg scA (tid, c)) {[tid]})
      as (Hs & Hv & Ht).
    { by rewrite loop1_body_skip. }
    { by rewrite loop1_body_skip. }
    { by rewrite loop1_body_skip. }
    rewrite <- HL, <- HR in Hs, Hv, Ht.
    assert (calm_after_entries env cfg st (Some (pre ++ (tid, c) :: post))
            = calm_after_entries env cfg st (Some (pre ++ post))) as H2.
    { unfold calm_after_entries. by rewrite Hs, Hv. }
    split; [|exact Hv].
    unfold calm_update_frame.
    assert (calm_after_churn env cfg st (Some (pre ++ (tid, c) :: post))
            = calm_after_churn env cfg st (Some (pre ++ post))) as H3.
    { unfold calm_after_churn. rewrite H2, Hv, Ht.
      replace (dom (active_tracks (calm_after_entries env cfg st (Some (pre ++ post))).1)
                 ∖ ({[tid]} ∪ current_track_ids (calm_loop1 env cfg st (Some (pre ++ post)))))
        with (dom (active_tracks (calm_after_entries env cfg st (Some (pre ++ post))).1)
                ∖ current_track_ids (calm_loop1 env cfg st (Some (pre ++ post)))); [done|].
      apply set_eq. intros t. rewrite !elem_of_difference, elem_of_union, elem_of_singleton.
      split; [|tauto]. intros [Hdom HT]. split; [done|]. intros [->|?]; [|done].
      apply elem_of_dom in Hdom. rewrite frame_r2_active, frame_unseen in Hdom by done.
      rewrite Hst in Hdom. by destruct Hdom. }
    by rewrite H3.
  - intros sc tid c v rows Hnew Hres sc'. unfold sc', calm_loop1_body.
    rewrite Hnew, Hres. simpl. rewrite lookup_insert_eq. split; [done|]. set_solver.
Qed.

(** ** A failing event sink *)

Lemma memory_eq st st' :
  memory st = memory st' ↔
  active_tracks st = active_tracks st' ∧ pending_exit st = pending_exit st' ∧
  logged_entry_this_visit st = logged_entry_this_visit st' ∧ Visitors st = Visitors st'.
Proof.
  unfold memory. split.
  - intros [= -> -> -> ->]. done.
  - intros (-> & -> & -> & ->). done.
Qed.

Lemma loop1_body_sim env cfg sc sc' det :
  memory (sc_state sc) = memory (sc_state sc') →
  current_track_ids sc = current_track_ids sc' →
  current_visitor_ids_in_frame sc = current_visitor_ids_in_frame sc' →
  memory (sc_state (calm_loop1_body env cfg sc det))
    = memory (sc_state (calm_loop1_body (reliable env) cfg sc' det)) ∧
  current_track_ids (calm_loop1_body env cfg sc det)
    = current_track_ids (calm_loop1_body (reliable env) cfg sc' det) ∧
  current_visitor_ids_in_frame (calm_loop1_body env cfg sc det)
    = current_visitor_ids_in_frame (calm_loop1_body (reliable env) cfg sc' det).
Proof.
  intros (Ha & Hp & Hl & Hv)%memory_eq Ht Hvis. destruct det as [tid c].
  unfold calm_loop1_body. rewrite <- Ha, <- Hv, <- Ht, <- Hvis.
  change (calm_resolve_new (reliable env) cfg (Visitors (sc_state sc)) c)
    with (calm_resolve_new env cfg (Visitors (sc_state sc)) c).
  destruct (active_tracks (sc_state sc) !! tid);
    [|destruct (calm_resolve_new env cfg (Visitors (sc_state sc)) c) as [[?|] ?]];
    simpl; rewrite memory_eq; simpl; rewrite <- ?Ha, <- ?Hp, <- ?Hl, <- ?Hv; done.
Qed.

Lemma loop1_sim env cfg st st' tracks :
  memory st = memory st' →
  memory (sc_state (calm_loop1 env cfg st tracks))
    = memory (sc_state (calm_loop1 (reliable env) cfg st' tracks)) ∧
  current_track_ids (calm_loop1 env cfg st tracks)
    = current_track_ids (calm_loop1 (reliable env) cfg st' tracks) ∧
  current_visitor_ids_in_frame (calm_loop1 env cfg st tracks)
    = current_visitor_ids_in_frame (calm_loop1 (reliable env) cfg st' tracks).
Proof.
  intros Hm. unfold calm_loop1. generalize (default [] tracks). intros l.
  assert (∀ sc sc',
    memory (sc_state sc) = memory (sc_state sc') →
    current_track_ids sc = current_track_ids sc' →
    current_visitor_ids_in_frame sc = current_visitor_ids_in_frame sc' →
    memory (sc_state (foldl (calm_loop1_body env cfg) sc l))
      = memory (sc_state (foldl (calm_loop1_body (reliable env) cfg) sc' l)) ∧
    current_track_ids (foldl (calm_loop1_body env cfg) sc l)
      = current_track_ids (foldl (calm_loop1_body (reliable env) cfg) sc' l) ∧
    current_visitor_ids_in_frame (foldl (calm_loop1_body env cfg) sc l)
      = current_visitor_ids_in_frame (foldl (calm_loop1_body (reliable env) cfg) sc' l)) as Hgen.
  { induction l as [|det l IH]; intros sc sc' H1 H2 H3; cbn [foldl]; [done|].
    destruct (loop1_body_sim env cfg sc sc' det H1 H2 H3) as (? & ? & ?). by apply IH. }
  by apply Hgen.
Qed.

(** The trace only grows. *)
Lemma loop2_body_extends env acc v : ∃ k, (calm_loop2_body env acc v).2 = acc.2 ++ k.
Proof.
  unfold calm_loop2_body. simpl.
  destruct (decide _); [exists []; by rewrite app_nil_r|].
  destruct (crop_to_log _ _) as [c|]; [|exists []; by rewrite app_nil_r].
  destruct (imwrite_ok env c v Entry); eauto.
Qed.

Lemma loop2_extends env l acc : ∃ k, (foldl (calm_loop2_body env) acc l).2 = acc.2 ++ k.
Proof.
  revert acc. induction l as [|x l IH]; intros acc; cbn [foldl].
  { exists []. by rewrite app_nil_r. }
  destruct (IH (calm_loop2_body env acc x)) as [k ->].
  destruct (loop2_body_extends env acc x) as [k' ->].
  exists (k' ++ k). by rewrite app_assoc.
Qed.

Lemma loop4_body_extends env cfg acc item : ∃ k, (calm_loop4_body env cfg acc item).2 = acc.2 ++ k.
Proof.
  unfold calm_loop4_body. destruct item as [v xd].
  destruct (Qgtb _ _); [eauto|]. exists []. by rewrite app_nil_r.
Qed.

Lemma loop4_extends env cfg l acc : ∃ k, (foldl (calm_loop4_body env cfg) acc l).2 = acc.2 ++ k.
Proof.
  revert acc. induction l as [|x l IH]; intros acc; cbn [foldl].
  { exists []. by rewrite app_nil_r. }
  destruct (IH (calm_loop4_body env cfg acc x)) as [k ->].
  destruct (loop4_body_extends env cfg acc x) as [k' ->].
  exists (k' ++ k). by rewrite app_assoc.
Qed.

Lemma loop2_body_sim env acc acc' v :
  memory acc.1 = memory acc'.1 → skeleton acc.2 = skeleton acc'.2 →
  Forall entry_saved (calm_loop2_body env acc v).2 →
  memory (calm_loop2_body env acc v).1 = memory (calm_loop2_body (reliable env) acc' v).1 ∧
  skeleton (calm_loop2_body env acc v).2 = skeleton (calm_loop2_body (reliable env) acc' v).2.
Proof.
  intros (Ha & Hp & Hl & Hv)%memory_eq Hsk. unfold calm_loop2_body. simpl.
  rewrite <- Ha, <- Hp, <- Hl.
  destruct (decide (v ∈ logged_entry_this_visit acc.1)).
  { intros _. simpl. rewrite memory_eq. simpl. by rewrite Ha, Hl, Hv. }
  destruct (crop_to_log (active_tracks acc.1) v) as [c|].
  2: { intros _. simpl. rewrite memory_eq. simpl. by rewrite Ha, Hl, Hv. }
  destruct (imwrite_ok env c v Entry) eqn:Hw; simpl.
  - intros _. rewrite memory_eq. simpl. unfold skeleton in *.
    rewrite !fmap_app, Hsk, Ha, Hl, Hv. done.
  - intros Hall. exfalso. rewrite Forall_app, Forall_singleton in Hall.
    destruct Hall as [_ Hall]. specialize (Hall eq_refl).
    apply Hall. simpl. unfold outcome_of. by rewrite Hw.
Qed.

Lemma loop2_sim env l acc acc' :
  memory acc.1 = memory acc'.1 → skeleton acc.2 = skeleton acc'.2 →
  Forall entry_saved (foldl (calm_loop2_body env) acc l).2 →
  memory (foldl (calm_loop2_body env) acc l).1 = memory (foldl (calm_loop2_body (reliable env)) acc' l).1 ∧
  skeleton (foldl (calm_loop2_body env) acc l).2 = skeleton (foldl (calm_loop2_body (reliable env)) acc' l).2.
Proof.
  revert acc acc'. induction l as [|x l IH]; intros acc acc' Hm Hsk Hall; cbn [foldl] in *; [done|].
  destruct (loop2_extends env l (calm_loop2_body env acc x)) as [k Hk].
  destruct (loop2_body_sim env acc acc' x Hm Hsk) as [Hm' Hsk'].
  { rewrite Hk, Forall_app in Hall. by destruct Hall. }
  by apply IH.
Qed.

Lemma loop3_sim env visible l st st' :
  memory st = memory st' →
  memory (foldl (loop3_body env visible) st l)
  = memory (foldl (loop3_body (reliable env) visible) st' l).
Proof.
  revert st st'. induction l as [|x l IH]; intros st st' Hm; cbn [foldl]; [done|].
  apply IH. apply memory_eq in Hm as (Ha & Hp & Hl & Hv).
  unfold loop3_body. rewrite <- Ha.
  destruct (active_tracks st !! x) as [td|]; [|by apply memory_eq].
  destruct (decide (visitor_id td ∈ visible)); apply memory_eq; simpl;
    by rewrite <- ?Ha, <- ?Hp, <- ?Hl, <- ?Hv.
Qed.

Lemma loop4_body_sim env cfg acc acc' item :
  memory acc.1 = memory acc'.1 → skeleton acc.2 = skeleton acc'.2 →
  memory (calm_loop4_body env cfg acc item).1 = memory (calm_loop4_body (reliable env) cfg acc' item).1 ∧
  skeleton (calm_loop4_body env cfg acc item).2 = skeleton (calm_loop4_body (reliable env) cfg acc' item).2.
Proof.
  intros Hm Hsk. pose proof Hm as (Ha & Hp & Hl & Hv)%memory_eq.
  unfold calm_loop4_body. destruct item as [v xd].
  change (sweep_time (reliable env)) with (sweep_time env).
  destruct (Qgtb _ _); [|done]. simpl.
  split.
  - apply memory_eq. destruct (imwrite_ok env (exit_crop xd) v Exit); simpl;
      by rewrite <- ?Ha, <- ?Hp, <- ?Hl, <- ?Hv.
  - unfold skeleton in *. by rewrite !fmap_app, Hsk.
Qed.

Lemma loop4_sim env cfg l acc acc' :
  memory acc.1 = memory acc'.1 → skeleton acc.2 = skeleton acc'.2 →
  memory (foldl (calm_loop4_body env cfg) acc l).1
    = memory (foldl (calm_loop4_body (reliable env) cfg) acc' l).1 ∧
  skeleton (foldl (calm_loop4_body env cfg) acc l).2
    = skeleton (foldl (calm_loop4_body (reliable env) cfg) acc' l).2.
Proof.
  revert acc acc'. induction l as [|x l IH]; intros acc acc' Hm Hsk; cbn [foldl]; [done|].
  destruct (loop4_body_sim env cfg acc acc' x Hm Hsk) as [Hm' Hsk']. by apply IH.
Qed.

(** A frame in which no entry image save fails leaves the memory, and makes
    the emissions, of the same frame with a sink that never fails. *)
Lemma update_frame_sim env cfg st st' tracks :
  memory st = memory st' →
  Forall entry_saved (calm_update_frame env cfg st tracks).2 →
  memory (calm_update_frame env cfg st tracks).1
    = memory (calm_update_frame (reliable env) cfg st' tracks).1 ∧
  skeleton (calm_update_frame env cfg st tracks).2
    = skeleton (calm_update_frame (reliable env) cfg st' tracks).2.
Proof.
  intros Hm Hall.
  destruct (loop1_sim env cfg st st' tracks Hm) as (Hm1 & HT & HV).
  destruct (loop4_extends env cfg (map_to_list (pending_exit (calm_after_churn env cfg st tracks).1))
              (calm_after_churn env cfg st tracks)) as [k Hk].
  fold (calm_update_frame env cfg st tracks) in Hk. rewrite Hk, Forall_app in Hall.
  destruct Hall as [Hall _].
  change (calm_after_churn env cfg st tracks).2 with (calm_after_entries env cfg st tracks).2 in Hall.
  destruct (loop2_sim env (elements (current_visitor_ids_in_frame (calm_loop1 env cfg st tracks)))
              (sc_state (calm_loop1 env cfg st tracks), [])
              (sc_state (calm_loop1 (reliable env) cfg st' tracks), []) Hm1 eq_refl Hall)
    as [Hm2 Hsk2].
  assert (calm_after_entries (reliable env) cfg st' tracks
          = foldl (calm_loop2_body (reliable env))
              (sc_state (calm_loop1 (reliable env) cfg st' tracks), [])
              (elements (current_visitor_ids_in_frame (calm_loop1 env cfg st tracks)))) as Hae.
  { unfold calm_after_entries. by rewrite HV. }
  rewrite <- Hae in Hm2, Hsk2.
  change (foldl (calm_loop2_body env) (sc_state (calm_loop1 env cfg st tracks), [])
            (elements (current_visitor_ids_in_frame (calm_loop1 env cfg st tracks))))
    with (calm_after_entries env cfg st tracks) in Hm2, Hsk2.
  assert (memory (calm_after_churn env cfg st tracks).1
          = memory (calm_after_churn (reliable env) cfg st' tracks).1) as Hm3.
  { unfold calm_after_churn. simpl. rewrite <- HT, <- HV.
    pose proof Hm2 as (Ha2 & _)%memory_eq. rewrite <- Ha2. by apply loop3_sim. }
  unfold calm_update_frame.
  pose proof Hm3 as (_ & Hp3 & _)%memory_eq. rewrite <- Hp3.
  by apply loop4_sim.
Qed.

Lemma run_sim cfg frames st st' :
  memory st = memory st' →
  Forall entry_saved (calm_run cfg st frames).2 →
  memory (calm_run cfg st frames).1 = memory (calm_run cfg st' (reliably frames)).1 ∧
  skeleton (calm_run cfg st frames).2 = skeleton (calm_run cfg st' (reliably frames)).2.
Proof.
  revert st st'. induction frames as [|f frames IH]; intros st st' Hm Hall; [done|].
  cbn [calm_run reliably fmap list_fmap f_env f_tracks] in *. simpl in Hall.
  rewrite Forall_app in Hall. destruct Hall as [Hall1 Hall2].
  destruct (update_frame_sim (f_env f) cfg st st' (f_tracks f) Hm Hall1) as [Hm1 Hsk1].
  destruct (IH _ _ Hm1 Hall2) as [Hm2 Hsk2].
  simpl. split; [exact Hm2|]. unfold skeleton in *. by rewrite !fmap_app, Hsk1, Hsk2.
Qed.

Lemma run_events cfg frames st :
  Events (calm_run cfg st frames).1 = Events st ++ recorded_rows (calm_run cfg st frames).2.
Proof.
  revert st. induction frames as [|f frames IH]; intros st; simpl.
  { by rewrite app_nil_r. }
  rewrite IH, frame_events, recorded_rows_app, app_assoc. done.
Qed.

(** Only the emissions that went through are rows of the
    Events table.  As long as no image save of an entry fails, a run leaves
    the tracker in the memory, and makes the emissions, of the same run with
    a sink that never fails: a failed INSERT into Events and a failed save
    of an exit image are not retried and change nothing in memory.  An entry
    whose image save fails is not recorded either, but its visitor stays out
    of [logged_entry_this_visit], and the entry is emitted again by the next
    frame that shows the visitor. *)
Theorem calm_sink_failure_policy cfg st frames :
  let r := calm_run cfg st frames in
  let r' := calm_run cfg st (reliably frames) in
  Events r.1 = Events st ++ recorded_rows r.2 ∧
  (Forall entry_saved r.2 → memory r.1 = memory r'.1 ∧ skeleton r.2 = skeleton r'.2) ∧
  (∀ env st0 tracks em,
     em ∈ (calm_update_frame env cfg st0 tracks).2 →
     em_kind em = Entry → em_outcome em = ImageFailed →
     let st1 := (calm_update_frame env cfg st0 tracks).1 in
     em_visitor em ∉ logged_entry_this_visit st1 ∧
     ∀ env2 tracks2,
       em_visitor em ∈ calm_visible_visitors env2 cfg st1 tracks2 →
       ∃ em2, em2 ∈ (calm_update_frame env2 cfg st1 tracks2).2 ∧
              em_visitor em2 = em_visitor em ∧ em_kind em2 = Entry).
Proof.
  intros r r'. split; [apply run_events|]. split; [by apply run_sim|].
  intros env st0 tracks em Hem Hkind Hout st1.
  assert (em ∈ events_of (em_visitor em) (calm_update_frame env cfg st0 tracks).2) as Hin.
  { unfold events_of. by apply list_elem_of_filter. }
  set (v := em_visitor em) in *.
  assert (v ∉ logged_entry_this_visit st1) as Hnot.
  { destruct (decide (v ∈ calm_visible_visitors env cfg st0 tracks)) as [Hv|Hv].
    - destruct (frame_visible env cfg st0 tracks v Hv) as (_ & Hl & He).
      rewrite He in Hin. unfold st1. rewrite Hl.
      destruct (decide (v ∈ logged_entry_this_visit st0)) as [Hl0|Hl0].
      { rewrite entry_of_logged in Hin by done. by apply elem_of_nil in Hin. }
      destruct (entry_of_visible env cfg st0 tracks v Hv Hl0) as [c Hc].
      rewrite Hc in Hin. apply list_elem_of_singleton in Hin.
      intros [?|(em' & Hem' & Hsaved)]; [done|].
      rewrite Hc in Hem'. apply list_elem_of_singleton in Hem'. subst em'.
      apply Hsaved. by rewrite <- Hin.
    - pose proof (frame_hidden env cfg st0 tracks v Hv) as Hh.
      destruct (pending_exit (calm_after_churn env cfg st0 tracks).1 !! v) as [xd|].
      + destruct Hh as (_ & _ & He). rewrite He in Hin. unfold exit_of in Hin.
        destruct (expired env cfg xd); [|by apply elem_of_nil in Hin].
        apply list_elem_of_singleton in Hin. by rewrite Hin in Hkind.
      + destruct Hh as (_ & _ & He). rewrite He in Hin. by apply elem_of_nil in Hin. }
  split; [done|]. intros env2 tracks2 Hv2.
  destruct (frame_visible env2 cfg st1 tracks2 v Hv2) as (_ & _ & He2).
  destruct (entry_of_visible env2 cfg st1 tracks2 v Hv2 Hnot) as [c Hc].
  rewrite Hc in He2.
  exists {| em_visitor := v; em_kind := Entry; em_crop := c;
            em_outcome := outcome_of env2 v Entry c |}.
  split; [|done].
  eapply (list_elem_of_filter (λ em, em_visitor em = v)).
  fold (events_of v (calm_update_frame env2 cfg st1 tracks2).2).
  rewrite He2. apply list_elem_of_here.
Qed.

(** ** Visits *)

Lemma replay_app o ks1 ks2 :
  replay o (ks1 ++ ks2) = replay o ks1 ≫= λ o', replay o' ks2.
Proof.
  revert o. induction ks1 as [|k ks1 IH]; intros o; simpl; [done|].
  destruct k, o; simpl; by rewrite ?IH.
Qed.

Lemma replay_app_Some o ks1 ks2 o' :
  replay o (ks1 ++ ks2) = Some o' →
  ∃ o1, replay o ks1 = Some o1 ∧ replay o1 ks2 = Some o'.
Proof.
  rewrite replay_app. destruct (replay o ks1) as [o1|]; [|done]. simpl. eauto.
Qed.

Lemma replay_tally o ks o' :
  replay o ks = Some o' →
  (tally Entry ks + (if o then 1 else 0) = tally Exit ks + (if o' then 1 else 0))%nat.
Proof.
  revert o. induction ks as [|k ks IH]; intros o; simpl.
  { intros [= ->]. done. }
  unfold tally in *.
  destruct k, o; try done; intros H%IH; rewrite ?filter_cons_True, ?filter_cons_False by done;
    simpl in *; lia.
Qed.

(** Between two exits that follow each other there is exactly one entry. *)
Lemma replay_between o a mid b o' :
  replay o (a ++ Exit :: mid ++ Exit :: b) = Some o' →
  Exit ∉ mid → mid = [Entry].
Proof.
  intros (o1 & _ & H)%replay_app_Some Hmid. simpl in H.
  destruct o1; [|done].
  destruct mid as [|k mid]; [done|].
  destruct k; [|exfalso; apply Hmid; left]. simpl in H.
  destruct mid as [|k mid]; [done|].
  destruct k; [done|]. exfalso. apply Hmid. right. left.
Qed.

Lemma kinds_of_app v tr1 tr2 : kinds_of v (tr1 ++ tr2) = kinds_of v tr1 ++ kinds_of v tr2.
Proof. unfold kinds_of. by rewrite events_of_app, fmap_app. Qed.

Lemma kinds_of_cons v em tr :
  kinds_of v (em :: tr)
  = if decide (em_visitor em = v) then em_kind em :: kinds_of v tr else kinds_of v tr.
Proof.
  unfold kinds_of, events_of. rewrite filter_cons. by destruct (decide (em_visitor em = v)).
Qed.

Lemma count_of_tally v k tr : count_of v k tr = tally k (kinds_of v tr).
Proof.
  unfold count_of, tally. induction tr as [|em tr IH]; [done|].
  rewrite kinds_of_cons, filter_cons.
  destruct (decide (em_visitor em = v ∧ em_kind em = k)) as [[Hv Hk]|Hno].
  - rewrite decide_True, filter_cons_True by done. simpl. by rewrite IH.
  - destruct (decide (em_visitor em = v)) as [Hv|Hv]; [|done].
    rewrite filter_cons_False; [done|]. intros Hk. apply Hno. done.
Qed.

Lemma elem_of_events_of v em tr : em ∈ events_of v tr ↔ em ∈ tr ∧ em_visitor em = v.
Proof. unfold events_of. rewrite list_elem_of_filter. tauto. Qed.

Section Visits.
Context (env : Env) (cfg : Config) (st : State) (tracks : option (list (Z * Crop))).
Context (v : N).

Local Abbreviation r := (calm_update_frame env cfg st tracks).

(** The visitor of every binding and of every pending exit has its entry
    logged. *)
Local Abbreviation covered s :=
  (tracked s v ∨ is_Some (pending_exit s !! v) → v ∈ logged_entry_this_visit s).

(** One frame continues the visits of [v], provided the image of the entry
    it may emit is saved. *)
Lemma frame_visits :
  covered st →
  Forall entry_saved r.2 →
  covered r.1 ∧
  replay (bool_decide (v ∈ logged_entry_this_visit st)) (kinds_of v r.2)
  = Some (bool_decide (v ∈ logged_entry_this_visit r.1)).
Proof.
  intros Hcov Hsaved.
  destruct (decide (v ∈ calm_visible_visitors env cfg st tracks)) as [Hv|Hv].
  - destruct (frame_visible env cfg st tracks v Hv) as (Hp & Hl & He).
    unfold kinds_of. rewrite He.
    destruct (decide (v ∈ logged_entry_this_visit st)) as [Hin|Hnin].
    + assert (v ∈ logged_entry_this_visit r.1) as Hin' by (rewrite Hl; by left).
      split; [done|]. rewrite entry_of_logged by done.
      rewrite (bool_decide_eq_true_2 _ Hin), (bool_decide_eq_true_2 _ Hin'). done.
    + destruct (entry_of_visible env cfg st tracks v Hv Hnin) as [c Hc].
      assert (v ∈ logged_entry_this_visit r.1) as Hin'.
      { rewrite Hl. right. eexists. split; [rewrite Hc; apply list_elem_of_here|].
        rewrite Forall_forall in Hsaved. apply Hsaved; [|done].
        eapply elem_of_events_of. rewrite He, Hc. apply list_elem_of_here. }
      split; [done|]. rewrite Hc.
      rewrite (bool_decide_eq_false_2 _ Hnin), (bool_decide_eq_true_2 _ Hin'). done.
  - assert (¬ tracked r.1 v) as Hunt.
    { intros (t & td & Hlk & Hvid). by eapply (frame_hidden_untracked env cfg st tracks). }
    pose proof (frame_hidden env cfg st tracks v Hv) as Hh.
    destruct (pending_exit (calm_after_churn env cfg st tracks).1 !! v) as [xd|] eqn:E3.
    + destruct Hh as (Hp & Hl & He).
      assert (v ∈ logged_entry_this_visit st) as Hin.
      { apply Hcov.
        destruct (frame_r3_cases env cfg st tracks v)
          as [Hsame|(_ & t & td & _ & Hlk & Hvid & _)].
        - right. destruct (frame_r2_hidden env cfg st tracks v Hv) as (<- & _).
          by rewrite <- Hsame, E3.
        - left. by exists t, td. }
      unfold kinds_of. rewrite He. unfold exit_of.
      rewrite (bool_decide_eq_true_2 _ Hin).
      destruct (expired env cfg xd).
      * assert (v ∉ logged_entry_this_visit r.1) as Hnin' by (rewrite Hl; by intros [_ ?]).
        split; [intros [?|Hs]; [done|rewrite Hp in Hs; by destruct Hs]|].
        rewrite (bool_decide_eq_false_2 _ Hnin'). done.
      * assert (v ∈ logged_entry_this_visit r.1) as Hin' by (by rewrite Hl).
        split; [done|]. rewrite (bool_decide_eq_true_2 _ Hin'). done.
    + destruct Hh as (Hp & Hl & He).
      split; [intros [?|Hs]; [done|rewrite Hp in Hs; by destruct Hs]|].
      unfold kinds_of. rewrite He. cbn [fmap list_fmap replay]. f_equal.
      by apply bool_decide_ext.
Qed.
End Visits.

(** In a run in which no entry image save fails, the emissions for a
    visitor are a sequence of visits. *)
Lemma run_visits cfg frames st v tr0 :
  (tracked st v ∨ is_Some (pending_exit st !! v) → v ∈ logged_entry_this_visit st) →
  replay false (kinds_of v tr0) = Some (bool_decide (v ∈ logged_entry_this_visit st)) →
  Forall entry_saved (calm_run cfg st frames).2 →
  replay false (kinds_of v (tr0 ++ (calm_run cfg st frames).2))
  = Some (bool_decide (v ∈ logged_entry_this_visit (calm_run cfg st frames).1)).
Proof.
  revert st tr0. induction frames as [|f frames IH]; intros st tr0 Hcov Hrep Hsaved.
  { simpl. by rewrite app_nil_r. }
  cbn [calm_run] in *. simpl in *. rewrite Forall_app in Hsaved. destruct Hsaved as [Hs1 Hs2].
  destruct (frame_visits (f_env f) cfg st (f_tracks f) v Hcov Hs1) as [Hcov1 Hrep1].
  rewrite app_assoc. apply IH; [done| |done].
  rewrite kinds_of_app, replay_app, Hrep. simpl. exact Hrep1.
Qed.

Lemma init_visits rows v :
  (tracked (init rows) v ∨ is_Some (pending_exit (init rows) !! v)
   → v ∈ logged_entry_this_visit (init rows)) ∧
  replay false (kinds_of v []) = Some (bool_decide (v ∈ logged_entry_this_visit (init rows))).
Proof.
  split.
  - intros [(t & td & Hlk & _)|Hs]; simpl in *.
    + by rewrite lookup_empty in Hlk.
    + rewrite lookup_empty in Hs. by destruct Hs.
  - rewrite bool_decide_eq_false_2; [done|]. simpl. set_solver.
Qed.

Lemma tally_0 k ks : tally k ks = 0%nat → k ∉ ks.
Proof.
  unfold tally. intros Hlen Hin.
  assert (k ∈ filter (λ k', k' = k) ks) as Hf by (by apply list_elem_of_filter).
  destruct (filter (λ k', k' = k) ks); [by apply elem_of_nil in Hf|done].
Qed.

Lemma run_from_init cfg rows frames v :
  Forall entry_saved (calm_run cfg (init rows) frames).2 →
  replay false (kinds_of v (calm_run cfg (init rows) frames).2)
  = Some (bool_decide (v ∈ logged_entry_this_visit (calm_run cfg (init rows) frames).1)).
Proof.
  intros Hsaved. destruct (init_visits rows v) as [Hcov Hrep].
  apply (run_visits cfg frames (init rows) v [] Hcov Hrep Hsaved).
Qed.

(** ** Absences *)

Lemma run_app cfg st l1 l2 :
  calm_run cfg st (l1 ++ l2)
  = ((calm_run cfg (calm_run cfg st l1).1 l2).1, (calm_run cfg st l1).2 ++ (calm_run cfg (calm_run cfg st l1).1 l2).2).
Proof.
  revert st. induction l1 as [|f l1 IH]; intros st; cbn [calm_run app].
  { simpl. by destruct (calm_run cfg st l2). }
  rewrite IH. simpl. by rewrite app_assoc.
Qed.

Lemma never_visible_app cfg v st l1 l2 :
  calm_never_visible cfg v st (l1 ++ l2)
  ↔ calm_never_visible cfg v st l1 ∧ calm_never_visible cfg v (calm_run cfg st l1).1 l2.
Proof.
  revert st. induction l1 as [|f l1 IH]; intros st; cbn [calm_never_visible app calm_run]; [tauto|].
  rewrite IH. simpl. tauto.
Qed.

(** After a frame, the visitor of a pending exit has no binding. *)
Lemma pending_untracked env cfg st tracks v :
  is_Some (pending_exit (calm_update_frame env cfg st tracks).1 !! v) →
  ¬ tracked (calm_update_frame env cfg st tracks).1 v.
Proof.
  intros Hs (t & td & Hlk & Hvid).
  rewrite frame_r4_active in Hlk. apply frame_r3_active_visible in Hlk as [_ Hv].
  rewrite Hvid in Hv. apply (frame_visible env cfg st tracks) in Hv as (Hp & _).
  rewrite Hp in Hs. by destruct Hs.
Qed.

(** A frame that does not show a visitor without bindings leaves its
    pending exit to the sweep. *)
Lemma frame_absent env cfg st tracks v :
  v ∉ calm_visible_visitors env cfg st tracks → ¬ tracked st v →
  pending_exit (calm_after_churn env cfg st tracks).1 !! v = pending_exit st !! v ∧
  ¬ tracked (calm_update_frame env cfg st tracks).1 v.
Proof.
  intros Hv Hunt. split.
  - destruct (frame_r3_cases env cfg st tracks v)
      as [Hsame|(_ & t & td & _ & Hlk & Hvid & _)].
    + rewrite Hsame. by apply frame_r2_hidden.
    + exfalso. apply Hunt. by exists t, td.
  - intros (t & td & Hlk & Hvid). by eapply (frame_hidden_untracked env cfg st tracks).
Qed.

(** While the visitor stays away and the timeout has not elapsed, its
    pending exit waits and nothing is emitted for it. *)
Lemma run_waiting cfg v xd frames st :
  pending_exit st !! v = Some xd → ¬ tracked st v →
  calm_never_visible cfg v st frames →
  Forall (λ f, expired (f_env f) cfg xd = false) frames →
  events_of v (calm_run cfg st frames).2 = [] ∧
  pending_exit (calm_run cfg st frames).1 !! v = Some xd ∧
  ¬ tracked (calm_run cfg st frames).1 v ∧
  (v ∈ logged_entry_this_visit (calm_run cfg st frames).1 ↔ v ∈ logged_entry_this_visit st).
Proof.
  revert st. induction frames as [|f frames IH]; intros st Hp Hunt Hnv Hne; [done|].
  cbn [calm_run calm_never_visible] in *. destruct Hnv as [Hv Hnv].
  apply Forall_cons in Hne as [Hne1 Hne].
  destruct (frame_absent (f_env f) cfg st (f_tracks f) v Hv Hunt) as [H3 Hunt'].
  pose proof (frame_hidden (f_env f) cfg st (f_tracks f) v Hv) as Hh.
  rewrite H3, Hp, Hne1 in Hh. destruct Hh as (Hp' & Hl' & He').
  destruct (IH _ Hp' Hunt' Hnv Hne) as (He & Hp2 & Hunt2 & Hl2).
  simpl. rewrite events_of_app, He', He. unfold exit_of. rewrite Hne1.
  split; [done|]. split; [done|]. split; [done|]. rewrite Hl2, Hl'. tauto.
Qed.

(** While a visitor without bindings and without pending exit stays away,
    nothing is emitted for it. *)
Lemma run_gone cfg v frames st :
  pending_exit st !! v = None → ¬ tracked st v →
  calm_never_visible cfg v st frames →
  events_of v (calm_run cfg st frames).2 = [] ∧
  pending_exit (calm_run cfg st frames).1 !! v = None.
Proof.
  revert st. induction frames as [|f frames IH]; intros st Hp Hunt Hnv; [done|].
  cbn [calm_run calm_never_visible] in *. destruct Hnv as [Hv Hnv].
  destruct (frame_absent (f_env f) cfg st (f_tracks f) v Hv Hunt) as [H3 Hunt'].
  pose proof (frame_hidden (f_env f) cfg st (f_tracks f) v Hv) as Hh.
  rewrite H3, Hp in Hh. destruct Hh as (Hp' & Hl' & He').
  destruct (IH _ Hp' Hunt' Hnv) as (He & Hp2).
  simpl. by rewrite events_of_app, He', He.
Qed.

Lemma expired_after_deadline env cfg xd :
  expired env cfg xd = true ↔ timestamp xd + exit_timeout cfg < sweep_time env.
Proof.
  unfold expired, Qgtb. rewrite negb_true_iff. split.
  - intros H. apply Qnot_le_lt. intros Hle.
    assert (sweep_time env - timestamp xd <= exit_timeout cfg) as Hc by lra.
    apply Qle_bool_iff in Hc. congruence.
  - intros Hlt. destruct (Qle_bool _ _) eqn:E; [|done].
    apply Qle_bool_iff in E. lra.
Qed.

(** The frame in which the only binding of a visitor disappears marks the
    visitor pending with the last crop of that binding. *)
Lemma frame_departure env cfg st tracks v t td :
  active_tracks st !! t = Some td → visitor_id td = v →
  (∀ t' td', active_tracks st !! t' = Some td' → visitor_id td' = v → t' = t) →
  v ∉ calm_visible_visitors env cfg st tracks →
  pending_exit (calm_after_churn env cfg st tracks).1 !! v
    = Some {| timestamp := mark_time env t; exit_crop := last_crop td |} ∧
  ¬ tracked (calm_update_frame env cfg st tracks).1 v.
Proof.
  intros Hlk Hvid Hsole Hv.
  assert (t ∉ current_track_ids (calm_loop1 env cfg st tracks)) as HT.
  { intros HT.
    destruct (si_binding_kept _ _ (loop1_inv env cfg st tracks) t td Hlk) as (td' & Hlk' & Hv').
    apply Hv. unfold calm_visible_visitors. rewrite <- Hvid, <- Hv'.
    by apply (si_tracked_visible _ _ (loop1_inv env cfg st tracks) t td'). }
  split.
  - destruct (frame_r3_marked env cfg st tracks v t td Hv HT Hlk Hvid)
      as (t' & td' & _ & Hlk' & Hvid' & Hp).
    assert (t' = t) as -> by (by eapply Hsole).
    rewrite Hlk in Hlk'. by inversion Hlk'; subst td'.
  - intros (t' & td' & Hlk' & Hvid'). by eapply (frame_hidden_untracked env cfg st tracks).
Qed.

(** The frame whose sweep finds the pending exit of an absent visitor
    expired emits its exit, and nothing else for the visitor. *)
Lemma frame_expiry env cfg st tracks v xd :
  v ∉ calm_visible_visitors env cfg st tracks →
  pending_exit (calm_after_churn env cfg st tracks).1 !! v = Some xd →
  expired env cfg xd = true →
  events_of v (calm_update_frame env cfg st tracks).2
    = [{| em_visitor := v; em_kind := Exit; em_crop := exit_crop xd;
          em_outcome := outcome_of env v Exit (exit_crop xd) |}] ∧
  pending_exit (calm_update_frame env cfg st tracks).1 !! v = None ∧
  v ∉ logged_entry_this_visit (calm_update_frame env cfg st tracks).1.
Proof.
  intros Hv Hp Hexp. pose proof (frame_hidden env cfg st tracks v Hv) as Hh.
  rewrite Hp, Hexp in Hh. destruct Hh as (Hp' & Hl' & He').
  unfold exit_of in He'. rewrite Hexp in He'.
  split; [done|]. split; [done|]. rewrite Hl'. by intros [_ ?].
Qed.

Lemma frame_not_yet env cfg st tracks v xd :
  v ∉ calm_visible_visitors env cfg st tracks →
  pending_exit (calm_after_churn env cfg st tracks).1 !! v = Some xd →
  expired env cfg xd = false →
  events_of v (calm_update_frame env cfg st tracks).2 = [] ∧
  pending_exit (calm_update_frame env cfg st tracks).1 !! v = Some xd.
Proof.
  intros Hv Hp Hexp. pose proof (frame_hidden env cfg st tracks v Hv) as Hh.
  rewrite Hp, Hexp in Hh. destruct Hh as (Hp' & Hl' & He').
  unfold exit_of in He'. by rewrite Hexp in He'.
Qed.

Lemma not_expired_before_deadline env cfg xd :
  expired env cfg xd = false ↔ sweep_time env <= timestamp xd + exit_timeout cfg.
Proof.
  split.
  - intros H. apply Qnot_lt_le. intros Hlt. apply expired_after_deadline in Hlt. congruence.
  - intros Hle. destruct (expired env cfg xd) eqn:E; [|done].
    apply expired_after_deadline in E. lra.
Qed.

Lemma count_of_events_of v k tr : count_of v k tr = count_of v k (events_of v tr).
Proof.
  rewrite !count_of_tally. f_equal. unfold kinds_of, events_of. f_equal.
  induction tr as [|em tr IH]; [done|].
  rewrite filter_cons. destruct (decide (em_visitor em = v)) as [Hv|Hv].
  - rewrite filter_cons_True by done. by rewrite <- IH.
  - done.
Qed.

(** ** Properties of runs *)

(** In a frame, an entry is emitted for a visible visitor
    if and only if the visitor is absent from [logged_entry_this_visit], and
    at most once; the visitor is then in the set if and only if it was
    there before or the image of the entry was saved.  Consequently, in a
    run from the initial state in which no entry image save fails, exactly
    one entry is emitted for a visitor between two of its exits that follow
    each other. *)
Theorem calm_entry_deduplication cfg :
  (∀ env st tracks v,
     v ∈ calm_visible_visitors env cfg st tracks →
     let r := calm_update_frame env cfg st tracks in
     ((∃ em, em ∈ r.2 ∧ em_visitor em = v ∧ em_kind em = Entry)
        ↔ v ∉ logged_entry_this_visit st) ∧
     (count_of v Entry r.2 ≤ 1)%nat ∧
     (v ∈ logged_entry_this_visit r.1
        ↔ v ∈ logged_entry_this_visit st
          ∨ ∃ em, em ∈ r.2 ∧ em_visitor em = v ∧ em_kind em = Entry ∧ image_saved em)) ∧
  (∀ rows frames v a x1 mid x2 b,
     Forall entry_saved (calm_run cfg (init rows) frames).2 →
     (calm_run cfg (init rows) frames).2 = a ++ x1 :: mid ++ x2 :: b →
     em_visitor x1 = v → em_kind x1 = Exit →
     em_visitor x2 = v → em_kind x2 = Exit →
     count_of v Exit mid = 0%nat →
     count_of v Entry mid = 1%nat).
Proof.
  split.
  - intros env st tracks v Hv r.
    destruct (frame_visible env cfg st tracks v Hv) as (_ & Hl & He). fold r in Hl, He.
    assert (∀ em, em ∈ entry_of env (sc_state (calm_loop1 env cfg st tracks)) v →
                  em_visitor em = v ∧ em_kind em = Entry) as Hshape.
    { intros em. unfold entry_of.
      destruct (decide _); [by intros ?%elem_of_nil|].
      destruct (crop_to_log _ _); [|by intros ?%elem_of_nil].
      by intros ->%list_elem_of_singleton. }
    split; [|split].
    + split.
      * intros (em & Hem & Hvis & _) Hin.
        assert (em ∈ events_of v r.2) as Hev by (by apply elem_of_events_of).
        rewrite He, entry_of_logged in Hev by done. by apply elem_of_nil in Hev.
      * intros Hnin. destruct (entry_of_visible env cfg st tracks v Hv Hnin) as [c Hc].
        exists {| em_visitor := v; em_kind := Entry; em_crop := c;
                  em_outcome := outcome_of env v Entry c |}.
        split; [|done].
        eapply elem_of_events_of. rewrite He, Hc. apply list_elem_of_here.
    + rewrite count_of_tally. unfold kinds_of. rewrite He. unfold entry_of.
      destruct (decide _); [by compute; lia|].
      destruct (crop_to_log _ _); compute; lia.
    + rewrite Hl. split.
      * intros [?|(em & Hem & Hs)]; [by left|right].
        exists em. destruct (Hshape em Hem) as [? ?].
        split; [|done]. eapply elem_of_events_of. by rewrite He.
      * intros [?|(em & Hem & Hvis & Hk & Hs)]; [by left|right].
        exists em. split; [|done]. rewrite <- He. by apply elem_of_events_of.
  - intros rows frames v a x1 mid x2 b Hsaved Htr Hv1 Hk1 Hv2 Hk2 Hnone.
    pose proof (run_from_init cfg rows frames v Hsaved) as Hrep.
    rewrite Htr in Hrep.
    rewrite kinds_of_app, kinds_of_cons, decide_True in Hrep by done.
    rewrite kinds_of_app, kinds_of_cons, decide_True in Hrep by done.
    rewrite Hk1, Hk2 in Hrep.
    apply replay_between in Hrep.
    + rewrite count_of_tally, Hrep. reflexivity.
    + apply tally_0. by rewrite <- count_of_tally.
Qed.

(** In a run from the initial state in which no entry
    image save fails, at every point of the trace the exits emitted for a
    visitor do not outnumber its entries, at most one entry is without its
    exit, and an exit is only emitted while one is. *)
Theorem calm_entry_precedes_exit cfg rows frames v before after :
  Forall entry_saved (calm_run cfg (init rows) frames).2 →
  (calm_run cfg (init rows) frames).2 = before ++ after →
  (count_of v Exit before ≤ count_of v Entry before ≤ count_of v Exit before + 1)%nat ∧
  (∀ em rest, after = em :: rest → em_visitor em = v → em_kind em = Exit →
     count_of v Entry before = (count_of v Exit before + 1)%nat).
Proof.
  intros Hsaved Htr.
  pose proof (run_from_init cfg rows frames v Hsaved) as Hrep.
  rewrite Htr, kinds_of_app in Hrep.
  apply replay_app_Some in Hrep as (o1 & Hbefore & Hafter).
  pose proof (replay_tally _ _ _ Hbefore) as Ht. rewrite <- !count_of_tally in Ht.
  split.
  - destruct o1; lia.
  - intros em rest -> Hv Hk. rewrite kinds_of_cons, decide_True, Hk in Hafter by done.
    destruct o1; [lia|done].
Qed.

(** Whatever the clock says, a frame that shows a visitor cancels
    its pending exit in LOOP 2, before LOOPs 3 and 4, emits no exit for it,
    and emits no entry either when the entry of the visit is logged.  So
    when a visitor is pending after frame N, stays away during the frames in
    between and is resolved again in a frame that occurs before the deadline
    elapses (none of the earlier frames having a later clock), no exit is
    emitted for the visitor in any of these frames, its pending exit is
    gone, and a visit whose entry was logged goes on without another
    entry. *)
Theorem calm_reappearance_cancels_pending_exit cfg :
  (∀ env st tracks v,
     v ∈ calm_visible_visitors env cfg st tracks →
     pending_exit (calm_after_entries env cfg st tracks).1 !! v = None ∧
     pending_exit (calm_update_frame env cfg st tracks).1 !! v = None ∧
     count_of v Exit (calm_update_frame env cfg st tracks).2 = 0%nat ∧
     (v ∈ logged_entry_this_visit st →
      events_of v (calm_update_frame env cfg st tracks).2 = [] ∧
      v ∈ logged_entry_this_visit (calm_update_frame env cfg st tracks).1)) ∧
  (∀ env0 st0 tracks0 v xd between f,
     let stN := (calm_update_frame env0 cfg st0 tracks0).1 in
     pending_exit stN !! v = Some xd →
     calm_never_visible cfg v stN between →
     v ∈ calm_visible_visitors (f_env f) cfg (calm_run cfg stN between).1 (f_tracks f) →
     Forall (λ g, sweep_time (f_env g) <= sweep_time (f_env f)) between →
     expired (f_env f) cfg xd = false →
     let r := calm_run cfg stN (between ++ [f]) in
     count_of v Exit r.2 = 0%nat ∧
     pending_exit r.1 !! v = None ∧
     (v ∈ logged_entry_this_visit stN →
      events_of v r.2 = [] ∧ v ∈ logged_entry_this_visit r.1)).
Proof.
  assert (∀ env st tracks v,
     v ∈ calm_visible_visitors env cfg st tracks →
     pending_exit (calm_after_entries env cfg st tracks).1 !! v = None ∧
     pending_exit (calm_update_frame env cfg st tracks).1 !! v = None ∧
     count_of v Exit (calm_update_frame env cfg st tracks).2 = 0%nat ∧
     (v ∈ logged_entry_this_visit st →
      events_of v (calm_update_frame env cfg st tracks).2 = [] ∧
      v ∈ logged_entry_this_visit (calm_update_frame env cfg st tracks).1)) as Hframe.
  { intros env st tracks v Hv.
    destruct (frame_visible env cfg st tracks v Hv) as (Hp & Hl & He).
    split; [by apply frame_r2_visible|]. split; [done|]. split.
    - rewrite count_of_tally. unfold kinds_of. rewrite He. unfold entry_of.
      destruct (decide _); [done|]. by destruct (crop_to_log _ _).
    - intros Hin. rewrite He, Hl. split; [by apply entry_of_logged|by left]. }
  split; [exact Hframe|].
  intros env0 st0 tracks0 v xd between f stN Hp Hnv Hv Hmono Hnot r.
  subst r. set (st := (calm_update_frame env0 cfg st0 tracks0).1) in *. subst stN.
  assert (Forall (λ g, expired (f_env g) cfg xd = false) between) as Hquiet.
  { eapply Forall_impl; [exact Hmono|]. intros g Hg. simpl in Hg.
    apply not_expired_before_deadline. apply not_expired_before_deadline in Hnot. lra. }
  assert (¬ tracked st v) as Hunt.
  { apply pending_untracked. fold st. by rewrite Hp. }
  destruct (run_waiting cfg v xd between st Hp Hunt Hnv Hquiet) as (He1 & Hp1 & _ & Hl1).
  destruct (Hframe (f_env f) (calm_run cfg st between).1 (f_tracks f) v Hv)
    as (_ & Hp2 & Hc2 & Hlogged).
  rewrite run_app. cbn [calm_run fst snd]. rewrite app_nil_r.
  split; [|split].
  - rewrite count_of_events_of, events_of_app, He1. simpl.
    by rewrite <- count_of_events_of.
  - done.
  - intros Hin. rewrite events_of_app, He1. simpl. apply Hlogged. by apply Hl1.
Qed.

(** The sweep of a frame emits the exit of exactly those
    pending exits whose deadline (the reading of the clock when the visitor
    was marked, plus the timeout) is before the reading of the clock at the
    sweep, removes them from the buffer and closes their visit; a pending
    exit whose deadline is not yet over stays and nothing is emitted for it.
    When the only binding of a visitor disappears and the visitor is not
    resolved again, the frames up to the deadline emit nothing for it, the
    first frame after the deadline emits its exit, and no other frame emits
    anything for it: exactly one exit, dated after the deadline. *)
Theorem calm_exit_expiry_sweep cfg :
  (∀ env st tracks v xd,
     let r := calm_update_frame env cfg st tracks in
     pending_exit (calm_after_churn env cfg st tracks).1 !! v = Some xd →
     (timestamp xd + exit_timeout cfg < sweep_time env →
      events_of v r.2
        = [{| em_visitor := v; em_kind := Exit; em_crop := exit_crop xd;
              em_outcome := outcome_of env v Exit (exit_crop xd) |}] ∧
      pending_exit r.1 !! v = None ∧ v ∉ logged_entry_this_visit r.1) ∧
     (sweep_time env <= timestamp xd + exit_timeout cfg →
      events_of v r.2 = [] ∧ pending_exit r.1 !! v = Some xd)) ∧
  (∀ env st tracks em,
     em ∈ (calm_update_frame env cfg st tracks).2 → em_kind em = Exit →
     ∃ xd, pending_exit (calm_after_churn env cfg st tracks).1 !! em_visitor em = Some xd ∧
           timestamp xd + exit_timeout cfg < sweep_time env ∧
           em_crop em = exit_crop xd) ∧
  (∀ st v t td before f after,
     active_tracks st !! t = Some td → visitor_id td = v →
     (∀ t' td', active_tracks st !! t' = Some td' → visitor_id td' = v → t' = t) →
     calm_never_visible cfg v st (before ++ f :: after) →
     let xd := {| timestamp := mark_time (f_env (hd f before)) t;
                  exit_crop := last_crop td |} in
     Forall (λ g, sweep_time (f_env g) <= timestamp xd + exit_timeout cfg) before →
     timestamp xd + exit_timeout cfg < sweep_time (f_env f) →
     let r := calm_run cfg st (before ++ f :: after) in
     events_of v r.2
       = [{| em_visitor := v; em_kind := Exit; em_crop := last_crop td;
             em_outcome := outcome_of (f_env f) v Exit (last_crop td) |}] ∧
     pending_exit r.1 !! v = None).
Proof.
  split; [|split].
  - intros env st tracks v xd r Hp.
    assert (v ∉ calm_visible_visitors env cfg st tracks) as Hv.
    { intros Hv. apply (frame_r3_visible env cfg st tracks) in Hv. congruence. }
    split.
    + intros Hlate%expired_after_deadline. by apply frame_expiry.
    + intros Hearly%not_expired_before_deadline. by apply frame_not_yet.
  - intros env st tracks em Hem Hkind.
    set (v := em_visitor em).
    assert (em ∈ events_of v (calm_update_frame env cfg st tracks).2) as Hin.
    { by apply elem_of_events_of. }
    destruct (decide (v ∈ calm_visible_visitors env cfg st tracks)) as [Hv|Hv].
    { destruct (frame_visible env cfg st tracks v Hv) as (_ & _ & He).
      rewrite He in Hin. unfold entry_of in Hin.
      destruct (decide _); [by apply elem_of_nil in Hin|].
      destruct (crop_to_log _ _); [|by apply elem_of_nil in Hin].
      apply list_elem_of_singleton in Hin. by rewrite Hin in Hkind. }
    pose proof (frame_hidden env cfg st tracks v Hv) as Hh.
    destruct (pending_exit (calm_after_churn env cfg st tracks).1 !! v) as [xd|] eqn:E.
    + destruct Hh as (_ & _ & He). rewrite He in Hin. unfold exit_of in Hin.
      destruct (expired env cfg xd) eqn:Hexp; [|by apply elem_of_nil in Hin].
      apply list_elem_of_singleton in Hin. exists xd.
      split; [done|]. split; [by apply expired_after_deadline|]. by rewrite Hin.
    + destruct Hh as (_ & _ & He). rewrite He in Hin. by apply elem_of_nil in Hin.
  - intros st v t td before f after Hlk Hvid Hsole Hnv xd Hearly Hlate r. subst r.
    apply never_visible_app in Hnv as [Hnv1 Hnv2]. cbn [calm_never_visible] in Hnv2.
    destruct Hnv2 as [Hvf Hnv3].
    rewrite run_app. cbn [calm_run fst snd].
    apply expired_after_deadline in Hlate.
    assert (Forall (λ g, expired (f_env g) cfg xd = false) before) as Hquiet.
    { eapply Forall_impl; [exact Hearly|]. intros g Hg.
      by apply not_expired_before_deadline. }
    assert (events_of v (calm_run cfg st before).2 = [] ∧
            pending_exit (calm_after_churn (f_env f) cfg (calm_run cfg st before).1 (f_tracks f)).1 !! v
              = Some xd) as [He1 Hp1].
    { destruct before as [|f0 quiet].
      - simpl. split; [done|].
        by apply (frame_departure (f_env f) cfg st (f_tracks f) v t td).
      - cbn [hd] in xd. cbn [calm_never_visible] in Hnv1. destruct Hnv1 as [Hv0 Hnvq].
        apply Forall_cons in Hquiet as [Hq0 Hquiet].
        destruct (frame_departure (f_env f0) cfg st (f_tracks f0) v t td Hlk Hvid Hsole Hv0)
          as [Hp0 Hunt0].
        destruct (frame_not_yet (f_env f0) cfg st (f_tracks f0) v xd Hv0 Hp0 Hq0)
          as [He0 Hp0'].
        destruct (run_waiting cfg v xd quiet _ Hp0' Hunt0 Hnvq Hquiet)
          as (Heq & Hpq & Huntq & _).
        cbn [calm_run fst snd] in Hvf |- *. rewrite events_of_app, He0, Heq. split; [done|].
        destruct (frame_absent (f_env f) cfg _ (f_tracks f) v Hvf Huntq) as [-> _].
        exact Hpq. }
    destruct (frame_expiry (f_env f) cfg _ (f_tracks f) v xd Hvf Hp1 Hlate)
      as (Hef & Hpf & _).
    assert (¬ tracked (calm_update_frame (f_env f) cfg (calm_run cfg st before).1 (f_tracks f)).1 v)
      as Huntf.
    { intros (t' & td' & Hlk' & Hvid').
      by eapply (frame_hidden_untracked (f_env f) cfg (calm_run cfg st before).1 (f_tracks f)). }
    destruct (run_gone cfg v after _ Hpf Huntf Hnv3) as [Hea Hpa].
    rewrite !events_of_app, He1, Hef, Hea. done.
Qed.

(** ** The registry after a frame *)

Lemma frame_active env cfg st tracks t :
  active_tracks (calm_update_frame env cfg st tracks).1 !! t
  = if decide (t ∈ reported_ids tracks) then calm_resolved env cfg st tracks !! t else None.
Proof.
  rewrite frame_r4_active, frame_r3_active, frame_track_ids. done.
Qed.

(** After a frame the registry holds exactly the reported bindings
    that are known or could be resolved; a binding the frame does not
    report is gone, whatever it stood for. *)
Theorem calm_registry_is_the_reported_bindings env cfg st tracks t :
  active_tracks (calm_update_frame env cfg st tracks).1 !! t
  = if decide (t ∈ reported_ids tracks) then calm_resolved env cfg st tracks !! t else None.
Proof. apply frame_active. Qed.

Lemma latest_crop_cons_eq t c l :
  latest_crop t ((t, c) :: l) = Some (default c (latest_crop t l)).
Proof.
  unfold latest_crop. rewrite filter_cons_True by done.
  destruct (filter (λ d : Z * Crop, d.1 = t) l) as [|d k] eqn:E; [done|].
  rewrite last_cons. destruct (last (d :: k)) eqn:El; [done|].
  by apply last_None in El.
Qed.

Lemma latest_crop_cons_ne t t' c l : t' ≠ t → latest_crop t ((t', c) :: l) = latest_crop t l.
Proof. intros Hne. unfold latest_crop. by rewrite filter_cons_False. Qed.

Lemma latest_crop_reported t l c : latest_crop t l = Some c → t ∈ l.*1.
Proof.
  unfold latest_crop. intros H. apply fmap_Some in H as ([t' c'] & Hlast & ->).
  apply last_Some_elem_of in Hlast. apply list_elem_of_filter in Hlast as [Ht Hin].
  simpl in Ht. subst t'. apply list_elem_of_fmap. by exists (t, c').
Qed.

(** LOOP 1 on a binding that is already in the registry. *)
Lemma loop1_known env cfg l sc t td :
  active_tracks (sc_state sc) !! t = Some td →
  active_tracks (sc_state (foldl (calm_loop1_body env cfg) sc l)) !! t
  = Some {| visitor_id := visitor_id td;
            last_crop := default (last_crop td) (latest_crop t l) |}.
Proof.
  revert sc td. induction l as [|[t' c] l IH]; intros sc td Hlk; cbn [foldl].
  { rewrite Hlk. by destruct td. }
  destruct (decide (t' = t)) as [->|Hne].
  - rewrite (IH _ {| visitor_id := visitor_id td; last_crop := c |}).
    + by rewrite latest_crop_cons_eq.
    + unfold calm_loop1_body. rewrite Hlk. simpl. by rewrite lookup_insert_eq.
  - rewrite latest_crop_cons_ne by done. apply IH.
    unfold calm_loop1_body.
    destruct (active_tracks (sc_state sc) !! t') as [td'|];
      [|destruct (calm_resolve_new env cfg (Visitors (sc_state sc)) c) as [[?|] ?]];
      simpl; rewrite ?lookup_insert_ne by done; done.
Qed.

(** A binding that is in the registry and is reported again keeps its
    visitor, whatever the embedder and the database would say about the new
    crop, and its last crop becomes the crop of the frame; its visitor is
    visible. *)
Theorem calm_known_binding_is_refreshed env cfg st tracks t td c :
  active_tracks st !! t = Some td →
  latest_crop t (default [] tracks) = Some c →
  active_tracks (calm_update_frame env cfg st tracks).1 !! t
    = Some {| visitor_id := visitor_id td; last_crop := c |} ∧
  visitor_id td ∈ calm_visible_visitors env cfg st tracks.
Proof.
  intros Hlk Hc.
  assert (t ∈ reported_ids tracks) as Hrep.
  { unfold reported_ids. apply elem_of_list_to_set. by eapply latest_crop_reported. }
  assert (calm_resolved env cfg st tracks !! t
          = Some {| visitor_id := visitor_id td; last_crop := c |}) as Hres.
  { unfold calm_resolved, calm_loop1.
    rewrite (loop1_known env cfg (default [] tracks)
               {| sc_state := st; current_track_ids := ∅;
                  current_visitor_ids_in_frame := ∅ |} t td Hlk), Hc. done. }
  split.
  - by rewrite frame_active, decide_True.
  - apply (si_tracked_visible _ _ (loop1_inv env cfg st tracks) t
             {| visitor_id := visitor_id td; last_crop := c |}); [|done].
    by rewrite frame_track_ids.
Qed.

(** After a frame the visitors with a binding in the registry are
    exactly the visitors the frame shows, and none of them has a pending
    exit. *)
Theorem calm_tracked_visitors_are_the_visible env cfg st tracks v :
  (tracked (calm_update_frame env cfg st tracks).1 v ↔ v ∈ calm_visible_visitors env cfg st tracks) ∧
  (tracked (calm_update_frame env cfg st tracks).1 v →
   pending_exit (calm_update_frame env cfg st tracks).1 !! v = None).
Proof.
  assert (tracked (calm_update_frame env cfg st tracks).1 v
          → v ∈ calm_visible_visitors env cfg st tracks) as Hin.
  { intros (t & td & Hlk & Hvid). rewrite frame_r4_active in Hlk.
    apply frame_r3_active_visible in Hlk as [_ Hv]. by rewrite <- Hvid. }
  split; [split; [exact Hin|]|].
  - intros Hv. destruct (visible_has_track env cfg st tracks v Hv) as (t & td & HT & Hlk & Hvid).
    exists t, td. split; [|done].
    by rewrite frame_r4_active, frame_r3_active, decide_True.
  - intros Hv%Hin. by apply frame_visible.
Qed.

(** ** The emissions of a frame *)

Lemma entry_of_length env st v : (length (entry_of env st v) ≤ 1)%nat.
Proof.
  unfold entry_of. destruct (decide _); [simpl; lia|].
  destruct (crop_to_log _ _); simpl; lia.
Qed.

(** A frame emits at most one event for a visitor: never two entries,
    never two exits, never an entry and an exit. *)
Theorem calm_one_emission_per_visitor_and_frame env cfg st tracks v :
  (length (events_of v (calm_update_frame env cfg st tracks).2) ≤ 1)%nat.
Proof.
  destruct (decide (v ∈ calm_visible_visitors env cfg st tracks)) as [Hv|Hv].
  - destruct (frame_visible env cfg st tracks v Hv) as (_ & _ & ->). apply entry_of_length.
  - pose proof (frame_hidden env cfg st tracks v Hv) as Hh.
    destruct (pending_exit (calm_after_churn env cfg st tracks).1 !! v) as [xd|].
    + destruct Hh as (_ & _ & ->). unfold exit_of. destruct (expired env cfg xd); simpl; lia.
    + destruct Hh as (_ & _ & ->). simpl. lia.
Qed.

(** [logged_entry_this_visit] follows the emissions: a visitor leaves
    the set only in a frame that emits its exit, and enters it only in a
    frame that emits its entry with the image saved. *)
Theorem calm_visit_flag_follows_the_emissions env cfg st tracks v :
  let r := calm_update_frame env cfg st tracks in
  (v ∈ logged_entry_this_visit st → v ∉ logged_entry_this_visit r.1 →
   ∃ em, em ∈ r.2 ∧ em_visitor em = v ∧ em_kind em = Exit) ∧
  (v ∉ logged_entry_this_visit st → v ∈ logged_entry_this_visit r.1 →
   ∃ em, em ∈ r.2 ∧ em_visitor em = v ∧ em_kind em = Entry ∧ image_saved em).
Proof.
  intros r. subst r.
  destruct (decide (v ∈ calm_visible_visitors env cfg st tracks)) as [Hv|Hv].
  - destruct (frame_visible env cfg st tracks v Hv) as (_ & Hl & He). split.
    + intros Hin Hout. exfalso. apply Hout. rewrite Hl. by left.
    + intros Hout Hin. rewrite Hl in Hin. destruct Hin as [?|(em & Hem & Hs)]; [done|].
      destruct (entry_of_visible env cfg st tracks v Hv Hout) as [c Hc].
      exists em. split; [eapply elem_of_events_of; by rewrite He|].
      rewrite Hc in Hem. apply list_elem_of_singleton in Hem. by subst em.
  - pose proof (frame_hidden env cfg st tracks v Hv) as Hh.
    destruct (pending_exit (calm_after_churn env cfg st tracks).1 !! v) as [xd|].
    + destruct Hh as (_ & Hl & He). split.
      * intros Hin Hout. unfold exit_of in He.
        destruct (expired env cfg xd); [|exfalso; apply Hout; by rewrite Hl].
        eexists. split; [eapply elem_of_events_of; rewrite He; apply list_elem_of_here|].
        done.
      * intros Hout Hin. rewrite Hl in Hin. by destruct Hin.
    + destruct Hh as (_ & Hl & _). split.
      * intros Hin Hout. by rewrite Hl in Hout.
      * intros Hout Hin. by rewrite Hl in Hin.
Qed.

Lemma loop2_kinds env l acc :
  Forall (λ em, em_kind em = Entry) acc.2 →
  Forall (λ em, em_kind em = Entry) (foldl (calm_loop2_body env) acc l).2.
Proof.
  intros Hacc. apply (foldl_inv (λ a, Forall (λ em, em_kind em = Entry) a.2)); [done|].
  intros a x _ Ha. unfold calm_loop2_body. simpl.
  destruct (decide _); [done|]. destruct (crop_to_log _ _) as [c|]; [|done].
  destruct (imwrite_ok env c x Entry); simpl; apply Forall_app; split; try done;
    by apply Forall_singleton.
Qed.

Lemma loop4_kinds env cfg l acc :
  ∃ k, (foldl (calm_loop4_body env cfg) acc l).2 = acc.2 ++ k ∧ Forall (λ em, em_kind em = Exit) k.
Proof.
  revert acc. induction l as [|[v xd] l IH]; intros acc; cbn [foldl].
  { exists []. by rewrite app_nil_r. }
  destruct (IH (calm_loop4_body env cfg acc (v, xd))) as (k & -> & Hk).
  unfold calm_loop4_body. destruct (Qgtb _ _); simpl.
  - eexists (_ :: k). rewrite <- app_assoc. split; [done|]. by constructor.
  - by exists k.
Qed.

(** Within a frame every entry is emitted before every exit: the
    trace of the frame is the entries of LOOP 2 followed by the exits of
    LOOP 4. *)
Theorem calm_entries_are_emitted_before_exits env cfg st tracks :
  ∃ exits,
    (calm_update_frame env cfg st tracks).2 = (calm_after_entries env cfg st tracks).2 ++ exits ∧
    Forall (λ em, em_kind em = Entry) (calm_after_entries env cfg st tracks).2 ∧
    Forall (λ em, em_kind em = Exit) exits.
Proof.
  destruct (loop4_kinds env cfg
              (map_to_list (pending_exit (calm_after_churn env cfg st tracks).1))
              (calm_after_churn env cfg st tracks)) as (k & Hk & Hexits).
  exists k. split; [exact Hk|]. split; [|done].
  unfold calm_after_entries. by apply loop2_kinds.
Qed.

(** ** Frames that only show known bindings *)

Lemma foldl_pointwise {A B : Type} (f g : A → B → A) (l : list B) (a : A) :
  (∀ a x, f a x = g a x) → foldl f a l = foldl g a l.
Proof.
  intros Hfg. revert a. induction l as [|x l IH]; intros a; simpl; [done|].
  by rewrite Hfg, IH.
Qed.

Lemma loop2_body_sink env env' acc v :
  same_sink_and_clock env env' → calm_loop2_body env acc v = calm_loop2_body env' acc v.
Proof.
  intros (Hi & He & Hr & _ & _). unfold calm_loop2_body, outcome_of, calm_log_event.
  destruct (decide _); [done|]. destruct (crop_to_log _ _) as [c|]; [|done].
  by rewrite (Hi c v Entry), (He v Entry), (Hr v Entry).
Qed.

Lemma loop3_body_sink env env' visible st t :
  same_sink_and_clock env env' → loop3_body env visible st t = loop3_body env' visible st t.
Proof.
  intros (_ & _ & _ & Hm & _). unfold loop3_body. by rewrite (Hm t).
Qed.

Lemma loop4_body_sink env env' cfg acc item :
  same_sink_and_clock env env' → calm_loop4_body env cfg acc item = calm_loop4_body env' cfg acc item.
Proof.
  intros (Hi & He & Hr & _ & Hs). unfold calm_loop4_body, outcome_of, calm_log_event.
  destruct item as [v xd].
  by rewrite Hs, (Hi (exit_crop xd) v Exit), (He v Exit), (Hr v Exit).
Qed.

Lemma loop1_all_known env env' cfg l sc :
  (∀ t, t ∈ l.*1 → is_Some (active_tracks (sc_state sc) !! t)) →
  foldl (calm_loop1_body env cfg) sc l = foldl (calm_loop1_body env' cfg) sc l ∧
  Visitors (sc_state (foldl (calm_loop1_body env cfg) sc l)) = Visitors (sc_state sc).
Proof.
  revert sc. induction l as [|[t c] l IH]; intros sc Hknown; cbn [foldl]; [done|].
  destruct (Hknown t) as [td Htd]; [rewrite fmap_cons; left|].
  assert (∀ e, calm_loop1_body e cfg sc (t, c)
               = {| sc_state :=
                      set_active (<[t := {| visitor_id := visitor_id td; last_crop := c |}]>
                                    (active_tracks (sc_state sc))) (sc_state sc);
                    current_track_ids := {[t]} ∪ current_track_ids sc;
                    current_visitor_ids_in_frame :=
                      {[visitor_id td]} ∪ current_visitor_ids_in_frame sc |}) as Hstep.
  { intros e. unfold calm_loop1_body. by rewrite Htd. }
  rewrite !Hstep.
  edestruct IH as [Hfold Hvis]; [|split; [exact Hfold|rewrite Hvis; done]].
  intros t' Ht'. simpl.
  destruct (decide (t' = t)) as [->|Hne]; [by rewrite lookup_insert_eq|].
  rewrite lookup_insert_ne by done. apply Hknown. rewrite fmap_cons. by right.
Qed.

(** A frame that reports only bindings of the registry neither asks
    the embedder nor searches or extends the Visitors table: it ends in the
    same state, with the same emissions, whatever the embedder and the
    search would answer, and the table is as before. *)
Theorem calm_known_bindings_need_no_lookup env env' cfg st tracks :
  reported_ids tracks ⊆ dom (active_tracks st) →
  same_sink_and_clock env env' →
  calm_update_frame env cfg st tracks = calm_update_frame env' cfg st tracks ∧
  Visitors (calm_update_frame env cfg st tracks).1 = Visitors st.
Proof.
  intros Hknown Hsame.
  assert (∀ t, t ∈ (default [] tracks).*1 → is_Some (active_tracks st !! t)) as Hk.
  { intros t Ht. apply elem_of_dom, Hknown. unfold reported_ids.
    by apply elem_of_list_to_set. }
  destruct (loop1_all_known env env' cfg (default [] tracks)
              {| sc_state := st; current_track_ids := ∅;
                 current_visitor_ids_in_frame := ∅ |} Hk) as [H1 Hv1].
  fold (calm_loop1 env cfg st tracks) in H1, Hv1. fold (calm_loop1 env' cfg st tracks) in H1.
  assert (calm_after_entries env cfg st tracks = calm_after_entries env' cfg st tracks) as H2.
  { unfold calm_after_entries. rewrite <- H1. apply foldl_pointwise.
    intros a x. by apply loop2_body_sink. }
  assert (calm_after_churn env cfg st tracks = calm_after_churn env' cfg st tracks) as H3.
  { unfold calm_after_churn. rewrite <- H2, <- H1. f_equal. apply foldl_pointwise.
    intros a x. by apply loop3_body_sink. }
  split.
  - unfold calm_update_frame. rewrite <- H3. apply foldl_pointwise.
    intros a x. by apply loop4_body_sink.
  - destruct (loop4_frame env cfg
                (map_to_list (pending_exit (calm_after_churn env cfg st tracks).1))
                (calm_after_churn env cfg st tracks)) as [_ Hv4].
    fold (calm_update_frame env cfg st tracks) in Hv4. rewrite Hv4.
    destruct (loop3_frame env (current_visitor_ids_in_frame (calm_loop1 env cfg st tracks))
                (elements (dom (active_tracks (calm_after_entries env cfg st tracks).1)
                             ∖ current_track_ids (calm_loop1 env cfg st tracks)))
                (calm_after_entries env cfg st tracks).1) as (_ & Hv3 & _).
    change (Visitors (calm_after_churn env cfg st tracks).1
            = Visitors (calm_after_entries env cfg st tracks).1) in Hv3.
    rewrite Hv3.
    destruct (loop2_frame env
                (elements (current_visitor_ids_in_frame (calm_loop1 env cfg st tracks)))
                (sc_state (calm_loop1 env cfg st tracks), [])) as [_ Hv2].
    fold (calm_after_entries env cfg st tracks) in Hv2. rewrite Hv2. exact Hv1.
Qed.

(** ** The Visitors table *)

Lemma frame_visitors env cfg st tracks :
  Visitors (calm_update_frame env cfg st tracks).1 = Visitors (sc_state (calm_loop1 env cfg st tracks)).
Proof.
  destruct (loop4_frame env cfg
              (map_to_list (pending_exit (calm_after_churn env cfg st tracks).1))
              (calm_after_churn env cfg st tracks)) as [_ Hv4].
  fold (calm_update_frame env cfg st tracks) in Hv4. rewrite Hv4.
  destruct (loop3_frame env (current_visitor_ids_in_frame (calm_loop1 env cfg st tracks))
              (elements (dom (active_tracks (calm_after_entries env cfg st tracks).1)
                           ∖ current_track_ids (calm_loop1 env cfg st tracks)))
              (calm_after_entries env cfg st tracks).1) as (_ & Hv3 & _).
  change (Visitors (calm_after_churn env cfg st tracks).1
          = Visitors (calm_after_entries env cfg st tracks).1) in Hv3.
  rewrite Hv3.
  destruct (loop2_frame env
              (elements (current_visitor_ids_in_frame (calm_loop1 env cfg st tracks)))
              (sc_state (calm_loop1 env cfg st tracks), [])) as [_ Hv2].
  exact Hv2.
Qed.

(** What resolution does to the table: nothing, or one appended row with
    the visitor it returns and the embedding of the crop. *)
Lemma resolve_new_rows env cfg rows c o rows' :
  calm_resolve_new env cfg rows c = (o, rows') →
  (rows' = rows ∧ ∀ v, o = Some v → v ∈ rows.*1)
  ∨ ∃ v e, o = Some v ∧ rows' = rows ++ [(v, e)] ∧ get_embedding env c = Some e.
Proof.
  unfold calm_resolve_new. destruct (get_embedding env c) as [e|] eqn:He.
  2: { intros [= <- <-]. left. split; [done|]. by intros v. }
  destruct (find_visitor env rows e (similarity_threshold cfg)) as [[v s]|] eqn:Hf.
  { intros [= <- <-]. left. split; [done|]. intros v' [= <-].
    apply find_visitor_Some in Hf as (_ & e' & Hin & _).
    apply list_elem_of_fmap. by exists (v, e'). }
  unfold calm_register_new_visitor. destruct (insert_visitor env rows e) as [v|].
  2: { intros [= <- <-]. left. split; [done|]. by intros v. }
  destruct (id_is_free rows v).
  - intros [= <- <-]. right. by exists v, e.
  - intros [= <- <-]. left. split; [done|]. by intros v'.
Qed.

Lemma loop1_body_visible_mono env cfg sc det :
  current_visitor_ids_in_frame sc ⊆ current_visitor_ids_in_frame (calm_loop1_body env cfg sc det).
Proof.
  destruct det as [t c]. unfold calm_loop1_body.
  destruct (active_tracks (sc_state sc) !! t);
    [|destruct (calm_resolve_new env cfg (Visitors (sc_state sc)) c) as [[?|] ?]];
    simpl; set_solver.
Qed.

Lemma loop1_visible_mono env cfg l sc :
  current_visitor_ids_in_frame sc
  ⊆ current_visitor_ids_in_frame (foldl (calm_loop1_body env cfg) sc l).
Proof.
  apply (foldl_inv (λ a, current_visitor_ids_in_frame sc ⊆ current_visitor_ids_in_frame a));
    [done|].
  intros a x _ Ha. etrans; [exact Ha|apply loop1_body_visible_mono].
Qed.

Lemma loop1_new_rows env cfg l sc :
  ∃ new,
    Visitors (sc_state (foldl (calm_loop1_body env cfg) sc l)) = Visitors (sc_state sc) ++ new ∧
    (length new ≤ length l)%nat ∧
    Forall (λ row : N * Embedding,
              row.1 ∈ current_visitor_ids_in_frame (foldl (calm_loop1_body env cfg) sc l) ∧
              ∃ d, d ∈ l ∧ get_embedding env d.2 = Some row.2) new.
Proof.
  revert sc. induction l as [|[t c] l IH]; intros sc; cbn [foldl].
  { exists []. rewrite app_nil_r. split; [done|]. split; [done|]. constructor. }
  destruct (IH (calm_loop1_body env cfg sc (t, c))) as (new1 & Hrows1 & Hlen1 & Hall1).
  assert (∃ new0,
    Visitors (sc_state (calm_loop1_body env cfg sc (t, c))) = Visitors (sc_state sc) ++ new0 ∧
    (length new0 ≤ 1)%nat ∧
    Forall (λ row : N * Embedding,
              row.1 ∈ current_visitor_ids_in_frame (calm_loop1_body env cfg sc (t, c)) ∧
              get_embedding env c = Some row.2) new0) as (new0 & Hrows0 & Hlen0 & Hall0).
  { unfold calm_loop1_body.
    destruct (active_tracks (sc_state sc) !! t) as [td|].
    { exists []. simpl. rewrite app_nil_r. split; [done|]. split; [lia|]. constructor. }
    destruct (calm_resolve_new env cfg (Visitors (sc_state sc)) c) as [o rows'] eqn:Hres.
    destruct (resolve_new_rows _ _ _ _ _ _ Hres) as [[-> _]|(v & e & -> & -> & He)].
    - exists []. destruct o; simpl; rewrite app_nil_r; (split; [done|]); (split; [lia|]);
        constructor.
    - exists [(v, e)]. simpl. split; [done|]. split; [lia|].
      apply Forall_singleton. simpl. split; [set_solver|done]. }
  exists (new0 ++ new1). rewrite Hrows1, Hrows0, app_assoc. split; [done|].
  split; [rewrite length_app; simpl; lia|].
  apply Forall_app. split.
  - eapply Forall_impl; [exact Hall0|]. intros row [Hin He]. split.
    + by apply (loop1_visible_mono env cfg l (calm_loop1_body env cfg sc (t, c))).
    + exists (t, c). split; [left|done].
  - eapply Forall_impl; [exact Hall1|]. intros row [Hin (d & Hd & He)]. split; [done|].
    exists d. split; [by right|done].
Qed.

Lemma visitors_table_only_grows_aux env cfg st tracks :
  ∃ new, Visitors (calm_update_frame env cfg st tracks).1 = Visitors st ++ new.
Proof.
  rewrite frame_visitors.
  destruct (loop1_new_rows env cfg (default [] tracks)
              {| sc_state := st; current_track_ids := ∅;
                 current_visitor_ids_in_frame := ∅ |}) as (new & Hnew & _).
  by exists new.
Qed.

(** A frame never deletes or changes a row of the Visitors table.  It
    appends at most one row per reported pair, and every appended row
    carries the embedding of a reported crop under a visitor that the frame
    shows. *)
Theorem calm_visitors_table_only_grows env cfg st tracks :
  ∃ new,
    Visitors (calm_update_frame env cfg st tracks).1 = Visitors st ++ new ∧
    (length new ≤ length (default [] tracks))%nat ∧
    Forall (λ row : N * Embedding,
              row.1 ∈ calm_visible_visitors env cfg st tracks ∧
              ∃ d, d ∈ default [] tracks ∧ get_embedding env d.2 = Some row.2) new.
Proof.
  rewrite frame_visitors. apply loop1_new_rows.
Qed.

Lemma run_visitors_grow cfg frames st :
  ∃ new, Visitors (calm_run cfg st frames).1 = Visitors st ++ new.
Proof.
  revert st. induction frames as [|f frames IH]; intros st; cbn [calm_run fst].
  { exists []. by rewrite app_nil_r. }
  destruct (IH (calm_update_frame (f_env f) cfg st (f_tracks f)).1) as [new2 ->].
  destruct (visitors_table_only_grows_aux (f_env f) cfg st (f_tracks f)) as [new1 ->].
  exists (new1 ++ new2). by rewrite app_assoc.
Qed.

Lemma loop1_stored env cfg st tracks :
  (∀ t td, active_tracks st !! t = Some td → visitor_id td ∈ stored_ids st) →
  ∀ t td, active_tracks (sc_state (calm_loop1 env cfg st tracks)) !! t = Some td →
          visitor_id td ∈ stored_ids (sc_state (calm_loop1 env cfg st tracks)).
Proof.
  intros Hst. unfold calm_loop1.
  apply (foldl_inv (λ sc, ∀ t td, active_tracks (sc_state sc) !! t = Some td →
                                  visitor_id td ∈ stored_ids (sc_state sc))); [done|].
  intros sc [t c] _ Hsc t' td'. unfold calm_loop1_body, stored_ids in *.
  destruct (active_tracks (sc_state sc) !! t) as [td|] eqn:Hlk.
  - simpl. destruct (decide (t' = t)) as [->|Hne].
    + rewrite lookup_insert_eq. intros [= <-]. simpl. by eapply Hsc.
    + rewrite lookup_insert_ne by done. apply Hsc.
  - destruct (calm_resolve_new env cfg (Visitors (sc_state sc)) c) as [o rows'] eqn:Hres.
    destruct (resolve_new_rows _ _ _ _ _ _ Hres) as [[-> Hin]|(v & e & -> & -> & He)].
    + destruct o as [v|]; simpl; [|apply Hsc].
      destruct (decide (t' = t)) as [->|Hne].
      * rewrite lookup_insert_eq. intros [= <-]. simpl. by apply Hin.
      * rewrite lookup_insert_ne by done. apply Hsc.
    + simpl. rewrite fmap_app. destruct (decide (t' = t)) as [->|Hne].
      * rewrite lookup_insert_eq. intros [= <-]. simpl. set_solver.
      * rewrite lookup_insert_ne by done. intros Hlk'. apply elem_of_app. left.
        by eapply Hsc.
Qed.

Lemma stored_ids_grow env cfg st tracks v :
  v ∈ stored_ids st → v ∈ stored_ids (calm_update_frame env cfg st tracks).1.
Proof.
  unfold stored_ids. destruct (visitors_table_only_grows_aux env cfg st tracks) as [new ->].
  rewrite fmap_app. set_solver.
Qed.

(** One frame keeps the references stored and emits only for stored
    visitors. *)
Lemma frame_stored env cfg st tracks :
  referenced_are_stored st →
  referenced_are_stored (calm_update_frame env cfg st tracks).1 ∧
  ∀ em, em ∈ (calm_update_frame env cfg st tracks).2 →
        em_visitor em ∈ stored_ids (calm_update_frame env cfg st tracks).1.
Proof.
  intros [Hact Hpend].
  assert (∀ v, v ∈ calm_visible_visitors env cfg st tracks →
               v ∈ stored_ids (calm_update_frame env cfg st tracks).1) as Hvis.
  { intros v Hv. destruct (visible_has_track env cfg st tracks v Hv) as (t & td & _ & Hlk & <-).
    unfold stored_ids. rewrite frame_visitors.
    by apply (loop1_stored env cfg st tracks Hact t td). }
  assert (∀ v, is_Some (pending_exit (calm_after_churn env cfg st tracks).1 !! v) →
               v ∉ calm_visible_visitors env cfg st tracks →
               v ∈ stored_ids (calm_update_frame env cfg st tracks).1) as Hchurn.
  { intros v Hs Hv. apply stored_ids_grow.
    destruct (frame_r3_cases env cfg st tracks v) as [Hsame|(_ & t & td & _ & Hlk & <- & _)].
    - apply Hpend. destruct (frame_r2_hidden env cfg st tracks v Hv) as (<- & _).
      by rewrite <- Hsame.
    - by eapply Hact. }
  split; [split|].
  - intros t td Hlk. apply Hvis. rewrite frame_r4_active in Hlk.
    by apply frame_r3_active_visible in Hlk as [_ ?].
  - intros v Hs.
    destruct (decide (v ∈ calm_visible_visitors env cfg st tracks)) as [Hv|Hv].
    { apply (frame_visible env cfg st tracks) in Hv as (Hn & _).
      rewrite Hn in Hs. by destruct Hs. }
    apply Hchurn; [|done].
    pose proof (frame_hidden env cfg st tracks v Hv) as Hh.
    destruct (pending_exit (calm_after_churn env cfg st tracks).1 !! v) as [xd|]; [done|].
    destruct Hh as (Hn & _). rewrite Hn in Hs. by destruct Hs.
  - intros em Hem.
    set (v := em_visitor em).
    assert (em ∈ events_of v (calm_update_frame env cfg st tracks).2) as Hin.
    { by apply elem_of_events_of. }
    destruct (decide (v ∈ calm_visible_visitors env cfg st tracks)) as [Hv|Hv]; [by apply Hvis|].
    apply Hchurn; [|done].
    pose proof (frame_hidden env cfg st tracks v Hv) as Hh.
    destruct (pending_exit (calm_after_churn env cfg st tracks).1 !! v) as [xd|]; [done|].
    destruct Hh as (_ & _ & He). rewrite He in Hin. by apply elem_of_nil in Hin.
Qed.

Lemma run_stored cfg frames st :
  referenced_are_stored st →
  referenced_are_stored (calm_run cfg st frames).1 ∧
  ∀ em, em ∈ (calm_run cfg st frames).2 → em_visitor em ∈ stored_ids (calm_run cfg st frames).1.
Proof.
  revert st. induction frames as [|f frames IH]; intros st Hst; cbn [calm_run fst snd].
  { split; [done|]. by intros em ?%elem_of_nil. }
  destruct (frame_stored (f_env f) cfg st (f_tracks f) Hst) as [Hst1 Hem1].
  destruct (IH _ Hst1) as [Hst2 Hem2]. split; [done|].
  intros em [Hem|Hem]%elem_of_app; [|by apply Hem2].
  specialize (Hem1 em Hem). unfold stored_ids in *.
  destruct (run_visitors_grow cfg frames (calm_update_frame (f_env f) cfg st (f_tracks f)).1)
    as [new ->].
  rewrite fmap_app. set_solver.
Qed.

Lemma elem_of_recorded_rows row tr :
  row ∈ recorded_rows tr → ∃ em, em ∈ tr ∧ ev_visitor row = em_visitor em.
Proof.
  unfold recorded_rows. intros (em & Hem & Hrow)%list_elem_of_omap.
  exists em. split; [done|]. destruct (decide _); [|done]. by inversion Hrow.
Qed.

(** In a run from the initial state every emission, and every row the
    run adds to the Events table, is for a visitor that is stored in the
    Visitors table at the end of the run. *)
Theorem calm_events_refer_to_stored_visitors cfg rows frames :
  let r := calm_run cfg (init rows) frames in
  (∀ em, em ∈ r.2 → em_visitor em ∈ stored_ids r.1) ∧
  (∀ row, row ∈ Events r.1 → ev_visitor row ∈ stored_ids r.1).
Proof.
  intros r. subst r.
  assert (referenced_are_stored (init rows)) as Hinit.
  { split; simpl.
    - intros t td Hlk. by rewrite lookup_empty in Hlk.
    - intros v Hs. rewrite lookup_empty in Hs. by destruct Hs. }
  destruct (run_stored cfg frames (init rows) Hinit) as [_ Hem].
  split; [exact Hem|].
  intros row Hrow. rewrite run_events in Hrow. simpl in Hrow.
  apply elem_of_recorded_rows in Hrow as (em & Hin & ->). by apply Hem.
Qed.

(** ** A frame like the one before *)

Lemma trace_nil_by_visitor tr : (∀ v, events_of v tr = []) → tr = [].
Proof.
  intros Hall. destruct tr as [|em tr]; [done|].
  specialize (Hall (em_visitor em)). unfold events_of in Hall.
  by rewrite filter_cons_True in Hall.
Qed.

Lemma known_bindings_need_no_lookup_aux env cfg st tracks :
  reported_ids tracks ⊆ dom (active_tracks st) →
  Visitors (calm_update_frame env cfg st tracks).1 = Visitors st.
Proof.
  intros Hknown. rewrite frame_visitors.
  assert (∀ t, t ∈ (default [] tracks).*1 → is_Some (active_tracks st !! t)) as Hk.
  { intros t Ht. apply elem_of_dom, Hknown. unfold reported_ids.
    by apply elem_of_list_to_set. }
  by destruct (loop1_all_known env env cfg (default [] tracks)
                 {| sc_state := st; current_track_ids := ∅;
                    current_visitor_ids_in_frame := ∅ |} Hk) as [_ ?].
Qed.

(** When a frame reports exactly the bindings of the registry, no
    exit is pending and the entry of every tracked visitor is logged, the
    frame emits nothing and changes nothing but the last crops: the pending
    exits, the logged entries and both tables are as before and the registry
    has the same bindings. *)
Theorem calm_steady_frame_is_silent env cfg st tracks :
  dom (active_tracks st) = reported_ids tracks →
  pending_exit st = ∅ →
  (∀ t td, active_tracks st !! t = Some td → visitor_id td ∈ logged_entry_this_visit st) →
  let r := calm_update_frame env cfg st tracks in
  r.2 = [] ∧
  pending_exit r.1 = ∅ ∧
  logged_entry_this_visit r.1 = logged_entry_this_visit st ∧
  Visitors r.1 = Visitors st ∧ Events r.1 = Events st ∧
  dom (active_tracks r.1) = dom (active_tracks st).
Proof.
  intros Hdom Hpend Hlogged r. subst r.
  assert (∀ v, v ∈ calm_visible_visitors env cfg st tracks → v ∈ logged_entry_this_visit st)
    as Hvis.
  { intros v Hv. destruct (visible_has_track env cfg st tracks v Hv) as (t & td & HT & Hlk & <-).
    rewrite frame_track_ids, <- Hdom in HT. apply elem_of_dom in HT as [td0 Htd0].
    destruct (si_binding_kept _ _ (loop1_inv env cfg st tracks) t td0 Htd0)
      as (td' & Hlk' & Hv').
    rewrite Hlk in Hlk'. inversion Hlk'; subst td'. rewrite Hv'. by eapply Hlogged. }
  assert (∀ v, v ∉ calm_visible_visitors env cfg st tracks →
               pending_exit (calm_after_churn env cfg st tracks).1 !! v = None) as Hhid.
  { intros v Hv. rewrite frame_r3_kept.
    - destruct (frame_r2_hidden env cfg st tracks v Hv) as (-> & _).
      by rewrite Hpend, lookup_empty.
    - intros t td HT Hlk. exfalso. apply HT. rewrite frame_track_ids, <- Hdom.
      apply elem_of_dom. by rewrite Hlk. }
  assert (∀ v, events_of v (calm_update_frame env cfg st tracks).2 = [] ∧
               pending_exit (calm_update_frame env cfg st tracks).1 !! v = None ∧
               (v ∈ logged_entry_this_visit (calm_update_frame env cfg st tracks).1
                ↔ v ∈ logged_entry_this_visit st)) as Hview.
  { intros v. destruct (decide (v ∈ calm_visible_visitors env cfg st tracks)) as [Hv|Hv].
    - destruct (frame_visible env cfg st tracks v Hv) as (Hp & Hl & He).
      rewrite He, Hl, entry_of_logged by (by apply Hvis).
      split; [done|]. split; [done|]. split; [|by left].
      intros [?|(em & Hem & _)]; [done|]. by apply elem_of_nil in Hem.
    - pose proof (frame_hidden env cfg st tracks v Hv) as Hh.
      rewrite (Hhid v Hv) in Hh. destruct Hh as (Hp & Hl & He). done. }
  assert ((calm_update_frame env cfg st tracks).2 = []) as Htr.
  { apply trace_nil_by_visitor. intros v. apply Hview. }
  split; [done|]. split; [|split; [|split; [|split]]].
  - apply map_eq. intros v. rewrite lookup_empty. apply Hview.
  - apply set_eq. intros v. apply Hview.
  - apply (known_bindings_need_no_lookup_aux env cfg st tracks). by rewrite Hdom.
  - rewrite frame_events, Htr. simpl. by rewrite app_nil_r.
  - apply set_eq. intros t. rewrite !elem_of_dom, frame_active.
    destruct (decide (t ∈ reported_ids tracks)) as [Hrep|Hrep].
    + split; [intros _|intros [td Htd]].
      * apply elem_of_dom. by rewrite Hdom.
      * destruct (si_binding_kept _ _ (loop1_inv env cfg st tracks) t td Htd)
          as (td' & Hlk' & _). unfold calm_resolved. by rewrite Hlk'.
    + split; [by intros [? ?]|]. intros Hs. exfalso. apply Hrep.
      rewrite <- Hdom. by apply elem_of_dom.
Qed.

(** ** Searching and registering *)

Lemma filter_none {A : Type} (P : A → Prop) `{∀ x, Decision (P x)} (l : list A) :
  Forall (λ x, ¬ P x) l → filter P l = [].
Proof.
  induction 1 as [|x l Hx _ IH]; [done|]. by rewrite filter_cons_False.
Qed.

Lemma top_row_is_Some rows r : r ∈ rows → is_Some (top_row rows).
Proof.
  intros Hin. destruct (top_row rows) eqn:E; [done|].
  apply top_row_None in E. subst rows. by apply elem_of_nil in Hin.
Qed.

(** Lowering the threshold never loses a match: when [find_visitor]
    finds a visitor at a threshold, it finds one at every lower threshold,
    with the same similarity. *)
Theorem lower_threshold_keeps_the_match env rows e thr thr' v s :
  find_visitor env rows e thr = Some (v, s) →
  thr' <= thr →
  ∃ v' s', find_visitor env rows e thr' = Some (v', s') ∧ s' == s.
Proof.
  unfold find_visitor. destruct (select_ok env e); [|done].
  intros [Hin Hmax]%top_row_Some Hle.
  apply elem_of_candidates in Hin as [Hs (e0 & Hin0 & Hs0)].
  assert ((v, s) ∈ candidates env e thr' rows) as Hin'.
  { apply elem_of_candidates. split; [by eapply Qle_trans|eauto]. }
  destruct (top_row_is_Some _ _ Hin') as [[v' s'] Htop].
  exists v', s'. split; [done|].
  apply top_row_Some in Htop as [Hin1 Hmax1].
  apply Qle_antisym.
  - apply elem_of_candidates in Hin1 as [Hs' (e1 & Hin1 & Hs1)].
    destruct (Qlt_le_dec s' thr) as [Hlt|Hge].
    + apply Qlt_le_weak. by eapply Qlt_le_trans.
    + apply (Hmax (v', s')). apply elem_of_candidates. eauto.
  - apply (Hmax1 (v, s) Hin').
Qed.

Lemma lower_threshold_keeps_the_match_witness :
  ∃ v' s', find_visitor (world 0 true true true) [(100%N, 7%N)] 7%N (1 # 2) = Some (v', s')
           ∧ s' == 1.
Proof.
  apply (lower_threshold_keeps_the_match (world 0 true true true) [(100%N, 7%N)] 7%N
           (6 # 10) (1 # 2) 100%N 1); [reflexivity|by compute].
Defined.

(** The cases of resolution for a crop with an embedding. *)
Lemma reid_resolution_aux env cfg rows c e :
  get_embedding env c = Some e →
  match calm_resolve_new env cfg rows c with
  | (Some v, rows') =>
      (rows' = rows ∧ select_ok env e = true)
      ∨ (rows' = rows ++ [(v, e)] ∧ v ∉ rows.*1 ∧ insert_visitor env rows e = Some v ∧
         (select_ok env e = false
          ∨ ∀ v2 e2, (v2, e2) ∈ rows → similarity env e e2 < similarity_threshold cfg))
  | (None, rows') => rows' = rows
  end.
Proof.
  intros He. unfold calm_resolve_new. rewrite He.
  destruct (find_visitor env rows e (similarity_threshold cfg)) as [[v s]|] eqn:Hfind.
  - left. by apply find_visitor_Some in Hfind as (Hok & _).
  - apply find_visitor_None in Hfind. unfold calm_register_new_visitor, id_is_free.
    destruct (insert_visitor env rows e) as [v|] eqn:Hins; [|done].
    destruct (bool_decide (v ∉ rows.*1)) eqn:Hfree; [|done].
    right. apply bool_decide_eq_true in Hfree. done.
Qed.

(** Resolution settles: once a crop has been resolved to a visitor,
    resolving the same crop again returns the same visitor and leaves the
    Visitors table alone, provided the search works and the similarity of
    the embedding to itself meets the threshold.  In particular a face that
    was registered for one binding is recognised for the next binding of the
    same frame instead of being registered twice. *)
Theorem calm_resolution_settles env cfg rows c e v rows' :
  get_embedding env c = Some e →
  select_ok env e = true →
  similarity_threshold cfg <= similarity env e e →
  calm_resolve_new env cfg rows c = (Some v, rows') →
  calm_resolve_new env cfg rows' c = (Some v, rows').
Proof.
  intros He Hok Hself Hres.
  pose proof (reid_resolution_aux env cfg rows c e He) as Hspec.
  rewrite Hres in Hspec.
  destruct Hspec as [(-> & _)|(-> & _ & _ & [Hfail|Hlow])]; [done|congruence|].
  unfold calm_resolve_new. rewrite He.
  assert (find_visitor env (rows ++ [(v, e)]) e (similarity_threshold cfg)
          = Some (v, similarity env e e)) as ->; [|done].
  unfold find_visitor. rewrite Hok.
  assert (candidates env e (similarity_threshold cfg) (rows ++ [(v, e)])
          = [(v, similarity env e e)]) as ->; [|done].
  unfold candidates. rewrite fmap_app, filter_app.
  rewrite (filter_none _ ((λ r : N * Embedding, (r.1, similarity env e r.2)) <$> rows)).
  - simpl. rewrite filter_cons_True; [done|].
    simpl. apply Is_true_true. by apply Qle_bool_iff.
  - apply Forall_forall. intros [v2 s2] ([v3 e3] & [= -> ->] & Hin)%list_elem_of_fmap.
    simpl. rewrite Is_true_true, Qle_bool_iff. intros Hle.
    specialize (Hlow v3 e3 Hin). apply Qlt_not_le in Hlow. done.
Qed.

(** ** Where emissions come from *)

(** Every emission of a frame has its cause in the frame or in the
    state before it.  An entry is for a visitor that the frame shows and
    whose entry is not logged, with the last crop of one of its bindings.
    An exit is for a visitor that the frame does not show and that was
    pending or had a binding before the frame; its image is the crop stored
    with the pending exit or the last crop of a binding the frame lost,
    never a crop of the frame itself. *)
Theorem calm_emissions_have_causes env cfg st tracks em :
  em ∈ (calm_update_frame env cfg st tracks).2 →
  let v := em_visitor em in
  match em_kind em with
  | Entry =>
      v ∈ calm_visible_visitors env cfg st tracks ∧ v ∉ logged_entry_this_visit st ∧
      ∃ t td, calm_resolved env cfg st tracks !! t = Some td ∧ visitor_id td = v ∧
              em_crop em = last_crop td
  | Exit =>
      v ∉ calm_visible_visitors env cfg st tracks ∧
      ((∃ xd, pending_exit st !! v = Some xd ∧ em_crop em = exit_crop xd)
       ∨ ∃ t td, t ∉ reported_ids tracks ∧ active_tracks st !! t = Some td ∧
                 visitor_id td = v ∧ em_crop em = last_crop td)
  end.
Proof.
  intros Hem v.
  assert (em ∈ events_of v (calm_update_frame env cfg st tracks).2) as Hin.
  { by apply elem_of_events_of. }
  destruct (decide (v ∈ calm_visible_visitors env cfg st tracks)) as [Hv|Hv].
  - destruct (frame_visible env cfg st tracks v Hv) as (_ & _ & He).
    rewrite He in Hin. unfold entry_of in Hin.
    destruct (decide (v ∈ logged_entry_this_visit _)) as [?|Hl];
      [by apply elem_of_nil in Hin|].
    destruct (crop_to_log _ _) as [c|] eqn:Hc; [|by apply elem_of_nil in Hin].
    apply list_elem_of_singleton in Hin. rewrite Hin. simpl.
    split; [done|]. rewrite frame_s1_logged in Hl. split; [done|].
    apply crop_to_log_Some in Hc as (t & td & Hlk & Hvid & Hcrop).
    by exists t, td.
  - pose proof (frame_hidden env cfg st tracks v Hv) as Hh.
    destruct (pending_exit (calm_after_churn env cfg st tracks).1 !! v) as [xd|] eqn:E.
    2: { destruct Hh as (_ & _ & He). rewrite He in Hin. by apply elem_of_nil in Hin. }
    destruct Hh as (_ & _ & He). rewrite He in Hin. unfold exit_of in Hin.
    destruct (expired env cfg xd); [|by apply elem_of_nil in Hin].
    apply list_elem_of_singleton in Hin. rewrite Hin. simpl. split; [done|].
    destruct (frame_r3_cases env cfg st tracks v)
      as [Hsame|(_ & t & td & HT & Hlk & Hvid & Hmark)].
    + left. exists xd. split; [|done].
      destruct (frame_r2_hidden env cfg st tracks v Hv) as (<- & _). by rewrite <- Hsame.
    + right. exists t, td. rewrite frame_track_ids in HT.
      rewrite E in Hmark. inversion Hmark; subst xd. done.
Qed.

(** ** The configured timeout *)

Lemma loop1_threshold env cfg cfg' st tracks :
  similarity_threshold cfg = similarity_threshold cfg' →
  calm_loop1 env cfg st tracks = calm_loop1 env cfg' st tracks.
Proof.
  intros Hthr. unfold calm_loop1. apply foldl_pointwise. intros sc [t c].
  unfold calm_loop1_body, calm_resolve_new. by rewrite Hthr.
Qed.

Lemma after_churn_threshold env cfg cfg' st tracks :
  similarity_threshold cfg = similarity_threshold cfg' →
  calm_after_churn env cfg st tracks = calm_after_churn env cfg' st tracks ∧
  calm_visible_visitors env cfg st tracks = calm_visible_visitors env cfg' st tracks.
Proof.
  intros Hthr. unfold calm_after_churn, calm_after_entries, calm_visible_visitors.
  by rewrite (loop1_threshold env cfg cfg' st tracks Hthr).
Qed.

(** A longer timeout never brings an exit forward: with the same
    similarity threshold and a timeout that is at least as long, a frame
    emits an exit for a visitor only if it does so with the shorter
    timeout, and it emits the same entries. *)
Theorem calm_longer_timeout_delays_exits env cfg cfg' st tracks v :
  similarity_threshold cfg = similarity_threshold cfg' →
  exit_timeout cfg <= exit_timeout cfg' →
  (count_of v Exit (calm_update_frame env cfg' st tracks).2
   ≤ count_of v Exit (calm_update_frame env cfg st tracks).2)%nat ∧
  count_of v Entry (calm_update_frame env cfg' st tracks).2
  = count_of v Entry (calm_update_frame env cfg st tracks).2.
Proof.
  intros Hthr Hle.
  destruct (after_churn_threshold env cfg cfg' st tracks Hthr) as [Hch HV].
  rewrite (count_of_events_of v Exit (calm_update_frame env cfg' st tracks).2).
  rewrite (count_of_events_of v Exit (calm_update_frame env cfg st tracks).2).
  rewrite (count_of_events_of v Entry (calm_update_frame env cfg' st tracks).2).
  rewrite (count_of_events_of v Entry (calm_update_frame env cfg st tracks).2).
  destruct (decide (v ∈ calm_visible_visitors env cfg st tracks)) as [Hv|Hv].
  - destruct (frame_visible env cfg st tracks v Hv) as (_ & _ & ->).
    rewrite HV in Hv. destruct (frame_visible env cfg' st tracks v Hv) as (_ & _ & ->).
    rewrite (loop1_threshold env cfg cfg' st tracks Hthr). done.
  - pose proof (frame_hidden env cfg st tracks v Hv) as Hh.
    rewrite HV in Hv. pose proof (frame_hidden env cfg' st tracks v Hv) as Hh'.
    rewrite <- Hch in Hh'.
    destruct (pending_exit (calm_after_churn env cfg st tracks).1 !! v) as [xd|].
    2: { destruct Hh as (_ & _ & ->), Hh' as (_ & _ & ->). done. }
    destruct Hh as (_ & _ & ->), Hh' as (_ & _ & ->). unfold exit_of.
    destruct (expired env cfg' xd) eqn:E'.
    + assert (expired env cfg xd = true) as ->.
      { apply expired_after_deadline. apply expired_after_deadline in E'. lra. }
      unfold count_of. rewrite !filter_cons_True, !filter_cons_False by (simpl; naive_solver).
      done.
    + destruct (expired env cfg xd).
      * unfold count_of. rewrite filter_cons_True, filter_cons_False by (simpl; naive_solver).
        simpl. split; [lia|done].
      * done.
Qed.

(** ** Loops that can raise *)

Lemma for_each_app {A B : Type} (body : A → B → A * bool) (l1 l2 : list B) (a : A) :
  for_each body a (l1 ++ l2)
  = if (for_each body a l1).2 then for_each body a l1
    else for_each body (for_each body a l1).1 l2.
Proof.
  revert a. induction l1 as [|x l1 IH]; intros a; cbn [for_each app]; [done|].
  cbv zeta. destruct (body a x).2 eqn:E; [by rewrite E|]. apply IH.
Qed.

(** What every iteration preserves holds for the store the loop leaves,
    whether it raised or not. *)
Lemma for_each_inv {A B : Type} (P : A → Prop) (body : A → B → A * bool)
    (l : list B) (a : A) :
  P a → (∀ a x, x ∈ l → P a → P (body a x).1) → P (for_each body a l).1.
Proof.
  revert a. induction l as [|x l IH]; intros a Ha Hstep; cbn [for_each]; [done|].
  cbv zeta. destruct (body a x).2 eqn:E.
  - apply Hstep; [left|done].
  - apply IH.
    + apply Hstep; [left|done].
    + intros a' y Hy. apply Hstep. by right.
Qed.

(** A loop that does not raise is the fold of its iterations. *)
Lemma for_each_returns {A B : Type} (body : A → B → A * bool) (f : A → B → A)
    (l : list B) (a : A) :
  (∀ a x, (body a x).2 = false → (body a x).1 = f a x) →
  (for_each body a l).2 = false → (for_each body a l).1 = foldl f a l.
Proof.
  intros Hf. revert a. induction l as [|x l IH]; intros a; cbn [for_each foldl]; [done|].
  cbv zeta. destruct (body a x).2 eqn:E; [by rewrite E|].
  intros Hl. rewrite <- (Hf a x E). by apply IH.
Qed.

(** A loop that raises does so in one of its iterations, after the fold of
    the iterations before it. *)
Lemma for_each_raises {A B : Type} (body : A → B → A * bool) (f : A → B → A)
    (l : list B) (a : A) :
  (∀ a x, (body a x).2 = false → (body a x).1 = f a x) →
  (for_each body a l).2 = true →
  ∃ l1 x l2, l = l1 ++ x :: l2 ∧ (body (foldl f a l1) x).2 = true ∧
             for_each body a l = body (foldl f a l1) x.
Proof.
  intros Hf. revert a. induction l as [|x l IH]; intros a; cbn [for_each]; [done|].
  cbv zeta. destruct (body a x).2 eqn:E.
  - intros _. exists [], x, l. done.
  - intros Hl. destruct (IH _ Hl) as (l1 & y & l2 & -> & Hy & Heq).
    exists (x :: l1), y, l2. cbn [foldl]. rewrite <- (Hf a x E). done.
Qed.

(** ** Calls that return and calls that raise *)

Lemma set_events_same st : set_events (Events st) st = st.
Proof. by destruct st. Qed.

Lemma log_event_fst env events v k c :
  (log_event env events v k c).1 = calm_log_event env events v k c.
Proof. unfold log_event, calm_log_event. by destruct (insert_event_ok env v k). Qed.

Lemma log_event_snd env events v k c :
  (log_event env events v k c).2
  = negb (insert_event_ok env v k) && negb (rollback_event_ok env v k).
Proof. unfold log_event. by destruct (insert_event_ok env v k). Qed.

Lemma register_new_visitor_fst env rows e :
  (register_new_visitor env rows e).1 = calm_register_new_visitor env rows e.
Proof.
  unfold register_new_visitor, calm_register_new_visitor.
  destruct (insert_visitor env rows e) as [v|]; [|done]. by destruct (id_is_free rows v).
Qed.

Lemma resolve_new_fst env cfg rows c :
  (resolve_new env cfg rows c).1 = calm_resolve_new env cfg rows c.
Proof.
  unfold resolve_new, calm_resolve_new.
  destruct (get_embedding env c) as [e|]; [|done].
  destruct (find_visitor env rows e (similarity_threshold cfg)) as [[v s]|]; [done|].
  apply register_new_visitor_fst.
Qed.

(** Resolution raises only when it yields no visitor. *)
Lemma resolve_new_Some env cfg rows c v rows' :
  (resolve_new env cfg rows c).1 = (Some v, rows') → (resolve_new env cfg rows c).2 = false.
Proof.
  unfold resolve_new, register_new_visitor.
  destruct (get_embedding env c) as [e|]; [|done].
  destruct (find_visitor env rows e (similarity_threshold cfg)) as [[v' s]|]; [done|].
  destruct (insert_visitor env rows e) as [v'|]; [|done]. by destruct (id_is_free rows v').
Qed.

(** Whether it raises or not, an iteration of LOOP 1 leaves the scan of the
    iteration that returns: a failed registration changes nothing. *)
Lemma loop1_body_fst env cfg sc det :
  (loop1_body env cfg sc det).1 = calm_loop1_body env cfg sc det.
Proof.
  destruct det as [t c]. unfold loop1_body, calm_loop1_body.
  destruct (active_tracks (sc_state sc) !! t); [done|].
  rewrite <- resolve_new_fst.
  by destruct (resolve_new env cfg (Visitors (sc_state sc)) c) as [[[v|] rows] raised].
Qed.

Lemma loop2_body_returns env acc v :
  (loop2_body env acc v).2 = false → (loop2_body env acc v).1 = calm_loop2_body env acc v.
Proof.
  unfold loop2_body, calm_loop2_body.
  destruct (decide _); [done|]. destruct (crop_to_log _ _) as [c|]; [|done].
  destruct (imwrite_ok env c v Entry); [|done]. cbv zeta.
  rewrite <- log_event_fst. by destruct (log_event _ _ _ _ _).2.
Qed.

Lemma loop4_body_returns env cfg acc item :
  (loop4_body env cfg acc item).2 = false →
  (loop4_body env cfg acc item).1 = calm_loop4_body env cfg acc item.
Proof.
  destruct item as [v xd]. unfold loop4_body, calm_loop4_body. cbv zeta.
  destruct (Qgtb _ _); [|done].
  destruct (imwrite_ok env (exit_crop xd) v Exit); [|done].
  rewrite <- log_event_fst. by destruct (log_event _ _ _ _ _).2.
Qed.

(** The iteration of LOOP 2 that raises: the pending exit of the visitor is
    cancelled and its entry emitted, but the visitor is not added to
    [logged_entry_this_visit]. *)
Lemma loop2_body_raised env acc v :
  (loop2_body env acc v).2 = true →
  v ∉ logged_entry_this_visit acc.1 ∧
  ∃ c, crop_to_log (active_tracks acc.1) v = Some c ∧
       outcome_of env v Entry c = StoreRaised ∧
       (loop2_body env acc v).1
       = (set_pending (delete v (pending_exit acc.1)) acc.1,
          acc.2 ++ [{| em_visitor := v; em_kind := Entry; em_crop := c;
                       em_outcome := StoreRaised |}]) ∧
       (calm_loop2_body env acc v).2
       = acc.2 ++ [{| em_visitor := v; em_kind := Entry; em_crop := c;
                      em_outcome := StoreRaised |}].
Proof.
  unfold loop2_body, calm_loop2_body. cbn [active_tracks set_pending logged_entry_this_visit].
  destruct (decide _) as [|Hnl]; [done|]. destruct (crop_to_log _ _) as [c|]; [|done].
  unfold outcome_of. destruct (imwrite_ok env c v Entry) eqn:Hw; [|done]. cbv zeta.
  rewrite log_event_snd. unfold log_event.
  destruct (insert_event_ok env v Entry); [done|].
  destruct (rollback_event_ok env v Entry); [done|]. intros _.
  split; [done|]. exists c. rewrite Hw. split; [done|]. split; [done|]. cbn [fst snd negb andb].
  by rewrite set_events_same.
Qed.

(** The iteration of LOOP 4 that raises: the exit is emitted and nothing
    else happens. *)
Lemma loop4_body_raised env cfg acc v xd :
  (loop4_body env cfg acc (v, xd)).2 = true →
  expired env cfg xd = true ∧
  outcome_of env v Exit (exit_crop xd) = StoreRaised ∧
  (loop4_body env cfg acc (v, xd)).1
  = (acc.1, acc.2 ++ [{| em_visitor := v; em_kind := Exit; em_crop := exit_crop xd;
                         em_outcome := StoreRaised |}]) ∧
  (calm_loop4_body env cfg acc (v, xd)).2
  = acc.2 ++ [{| em_visitor := v; em_kind := Exit; em_crop := exit_crop xd;
                 em_outcome := StoreRaised |}].
Proof.
  unfold loop4_body, calm_loop4_body, expired. cbv zeta.
  destruct (Qgtb _ _); [|done].
  unfold outcome_of. destruct (imwrite_ok env (exit_crop xd) v Exit); [|done].
  rewrite log_event_snd. unfold log_event.
  destruct (insert_event_ok env v Exit); [done|].
  destruct (rollback_event_ok env v Exit); [done|]. intros _.
  split; [done|]. split; [done|]. cbn [fst snd]. by rewrite set_events_same.
Qed.

Lemma loop1_returned env cfg st tracks :
  (loop1 env cfg st tracks).2 = false →
  (loop1 env cfg st tracks).1 = calm_loop1 env cfg st tracks.
Proof.
  unfold loop1, calm_loop1. apply for_each_returns. intros a x _. apply loop1_body_fst.
Qed.

Lemma loop1_raised env cfg st tracks :
  (loop1 env cfg st tracks).2 = true →
  ∃ pre d post, default [] tracks = pre ++ d :: post ∧
    (loop1_body env cfg (calm_loop1 env cfg st (Some pre)) d).2 = true ∧
    (loop1 env cfg st tracks).1 = calm_loop1 env cfg st (Some (pre ++ [d])).
Proof.
  unfold loop1, calm_loop1. intros Hr.
  destruct (for_each_raises _ (calm_loop1_body env cfg) _ _
              (λ a x _, loop1_body_fst env cfg a x) Hr) as (pre & d & post & Hl & Hd & Heq).
  exists pre, d, post. split; [done|]. split; [done|].
  rewrite Heq. change (default [] (Some (pre ++ [d]))) with (pre ++ [d]).
  rewrite foldl_app. cbn [foldl]. apply loop1_body_fst.
Qed.

(** The four ways in which a call of [update_frame] ends: it returns, or
    LOOP 1, LOOP 2 or LOOP 4 raises.  In each case what the call leaves is
    given by the folds of the iterations that returned. *)
Lemma update_frame_ends env cfg st tracks :
  (returns env cfg st tracks ∧
   loop1 env cfg st tracks = (calm_loop1 env cfg st tracks, false) ∧
   after_entries env cfg st tracks = calm_after_entries env cfg st tracks ∧
   after_churn env cfg st tracks = calm_after_churn env cfg st tracks ∧
   update_frame env cfg st tracks = calm_update_frame env cfg st tracks)
  ∨ (¬ returns env cfg st tracks ∧
     ∃ pre d post, default [] tracks = pre ++ d :: post ∧
       (loop1_body env cfg (calm_loop1 env cfg st (Some pre)) d).2 = true ∧
       loop1 env cfg st tracks = (calm_loop1 env cfg st (Some (pre ++ [d])), true) ∧
       after_entries env cfg st tracks
         = (sc_state (calm_loop1 env cfg st (Some (pre ++ [d]))), []) ∧
       after_churn env cfg st tracks = after_entries env cfg st tracks ∧
       update_frame env cfg st tracks = after_entries env cfg st tracks)
  ∨ (¬ returns env cfg st tracks ∧
     loop1 env cfg st tracks = (calm_loop1 env cfg st tracks, false) ∧
     ∃ l1 v l2,
       elements (calm_visible_visitors env cfg st tracks) = l1 ++ v :: l2 ∧
       let a := foldl (calm_loop2_body env)
                      (sc_state (calm_loop1 env cfg st tracks), []) l1 in
       (loop2_body env a v).2 = true ∧
       after_entries env cfg st tracks = (loop2_body env a v).1 ∧
       after_churn env cfg st tracks = after_entries env cfg st tracks ∧
       update_frame env cfg st tracks = after_entries env cfg st tracks)
  ∨ (¬ returns env cfg st tracks ∧
     loop1 env cfg st tracks = (calm_loop1 env cfg st tracks, false) ∧
     after_entries env cfg st tracks = calm_after_entries env cfg st tracks ∧
     after_churn env cfg st tracks = calm_after_churn env cfg st tracks ∧
     ∃ l1 v xd l2,
       map_to_list (pending_exit (calm_after_churn env cfg st tracks).1)
         = l1 ++ (v, xd) :: l2 ∧
       let a := foldl (calm_loop4_body env cfg) (calm_after_churn env cfg st tracks) l1 in
       (loop4_body env cfg a (v, xd)).2 = true ∧
       update_frame env cfg st tracks = (loop4_body env cfg a (v, xd)).1).
Proof.
  unfold returns, update_frame, after_churn, after_entries,
    update_frame_exc, after_churn_exc, after_entries_exc. cbv zeta.
  destruct (loop1 env cfg st tracks) as [sc1 b1] eqn:E1.
  assert ((loop1 env cfg st tracks).2 = b1) as H1 by (by rewrite E1).
  assert ((loop1 env cfg st tracks).1 = sc1) as Hs1 by (by rewrite E1).
  cbn [fst snd]. destruct b1.
  { right. left. split; [done|].
    destruct (loop1_raised env cfg st tracks H1) as (pre & d & post & Hl & Hd & Heq).
    exists pre, d, post. rewrite <- Heq, Hs1. done. }
  rewrite (loop1_returned env cfg st tracks H1) in Hs1. subst sc1.
  change (current_visitor_ids_in_frame (calm_loop1 env cfg st tracks))
    with (calm_visible_visitors env cfg st tracks).
  destruct (for_each (loop2_body env) (sc_state (calm_loop1 env cfg st tracks), [])
              (elements (calm_visible_visitors env cfg st tracks))) as [a2 b2] eqn:E2.
  cbn [fst snd]. destruct b2.
  { right. right. left. split; [done|]. split; [done|].
    destruct (for_each_raises (loop2_body env) (calm_loop2_body env)
                (elements (calm_visible_visitors env cfg st tracks))
                (sc_state (calm_loop1 env cfg st tracks), [])
                (loop2_body_returns env)) as (l1 & v & l2 & Hl & Hv & Heq).
    { by rewrite E2. }
    exists l1, v, l2. split; [done|]. split; [done|]. rewrite <- Heq, E2. done. }
  pose proof (for_each_returns (loop2_body env) (calm_loop2_body env)
                (elements (calm_visible_visitors env cfg st tracks))
                (sc_state (calm_loop1 env cfg st tracks), [])
                (loop2_body_returns env)) as Hs2.
  rewrite E2 in Hs2. cbn [fst snd] in Hs2. specialize (Hs2 eq_refl).
  change (foldl (calm_loop2_body env) (sc_state (calm_loop1 env cfg st tracks), [])
            (elements (calm_visible_visitors env cfg st tracks)))
    with (calm_after_entries env cfg st tracks) in Hs2.
  subst a2.
  change (foldl (loop3_body env (calm_visible_visitors env cfg st tracks))
            (calm_after_entries env cfg st tracks).1
            (elements (dom (active_tracks (calm_after_entries env cfg st tracks).1)
                       ∖ current_track_ids (calm_loop1 env cfg st tracks))),
          (calm_after_entries env cfg st tracks).2)
    with (calm_after_churn env cfg st tracks).
  destruct (for_each (loop4_body env cfg) (calm_after_churn env cfg st tracks)
              (map_to_list (pending_exit (calm_after_churn env cfg st tracks).1))).2 eqn:H4.
  { right. right. right.
    split. { intros Hc. apply (eq_trans (eq_sym H4)) in Hc. discriminate Hc. }
    split; [done|]. split; [done|]. split; [done|].
    destruct (for_each_raises (loop4_body env cfg) (calm_loop4_body env cfg)
                (map_to_list (pending_exit (calm_after_churn env cfg st tracks).1))
                (calm_after_churn env cfg st tracks)
                (loop4_body_returns env cfg) H4) as (l1 & [v xd] & l2 & Hl & Hv & Heq).
    exists l1, v, xd, l2. split; [done|]. split; [done|]. exact (f_equal fst Heq). }
  left. split; [exact H4|]. split; [done|]. split; [done|]. split; [done|].
  exact (for_each_returns (loop4_body env cfg) (calm_loop4_body env cfg)
           (map_to_list (pending_exit (calm_after_churn env cfg st tracks).1))
           (calm_after_churn env cfg st tracks)
           (loop4_body_returns env cfg) H4).
Qed.

(** A call that returns is the composition of the four folds. *)
Lemma returns_calm env cfg st tracks :
  returns env cfg st tracks →
  loop1 env cfg st tracks = (calm_loop1 env cfg st tracks, false) ∧
  after_entries env cfg st tracks = calm_after_entries env cfg st tracks ∧
  after_churn env cfg st tracks = calm_after_churn env cfg st tracks ∧
  update_frame env cfg st tracks = calm_update_frame env cfg st tracks.
Proof.
  intros Hr.
  destruct (update_frame_ends env cfg st tracks)
    as [(_ & H)|[(Hn & _)|[(Hn & _)|(Hn & _)]]]; done.
Qed.

Lemma returns_visible env cfg st tracks :
  returns env cfg st tracks →
  visible_visitors env cfg st tracks = calm_visible_visitors env cfg st tracks ∧
  resolved env cfg st tracks = calm_resolved env cfg st tracks.
Proof.
  intros (H1 & _)%returns_calm.
  unfold visible_visitors, resolved, calm_visible_visitors, calm_resolved. by rewrite H1.
Qed.

(** The visible set and the registry at the end of LOOP 1, when LOOP 1 did
    not raise. *)
Lemma scanned_visible env cfg st tracks :
  loop1 env cfg st tracks = (calm_loop1 env cfg st tracks, false) →
  visible_visitors env cfg st tracks = calm_visible_visitors env cfg st tracks ∧
  resolved env cfg st tracks = calm_resolved env cfg st tracks.
Proof.
  intros H1.
  unfold visible_visitors, resolved, calm_visible_visitors, calm_resolved. by rewrite H1.
Qed.

(** The emissions of a call are the first emissions of the four folds: a
    call that raises stops short, and emits nothing that the folds do not. *)
Lemma trace_prefix env cfg st tracks :
  (update_frame env cfg st tracks).2 `prefix_of` (calm_update_frame env cfg st tracks).2.
Proof.
  destruct (loop4_extends env cfg
              (map_to_list (pending_exit (calm_after_churn env cfg st tracks).1))
              (calm_after_churn env cfg st tracks)) as [k4 Hk4].
  change (foldl (calm_loop4_body env cfg) (calm_after_churn env cfg st tracks)
            (map_to_list (pending_exit (calm_after_churn env cfg st tracks).1)))
    with (calm_update_frame env cfg st tracks) in Hk4.
  change (calm_after_churn env cfg st tracks).2
    with (calm_after_entries env cfg st tracks).2 in Hk4.
  destruct (update_frame_ends env cfg st tracks)
    as [(_ & _ & _ & _ & ->)
       |[(_ & pre & d & post & _ & _ & _ & Hae & _ & ->)
        |[(_ & _ & l1 & v & l2 & Hl & Hv & Hae & _ & ->)
         |(_ & _ & _ & _ & l1 & v & xd & l2 & Hl & Hv & ->)]]].
  - done.
  - rewrite Hae. apply prefix_nil.
  - rewrite Hae, Hk4. apply prefix_app_r.
    destruct (loop2_body_raised env _ v Hv) as (_ & c & _ & _ & -> & Hcalm).
    cbn [snd]. rewrite <- Hcalm.
    unfold calm_after_entries. fold (calm_visible_visitors env cfg st tracks). rewrite Hl.
    rewrite foldl_app. cbn [foldl].
    destruct (loop2_extends env l2
                (calm_loop2_body env
                   (foldl (calm_loop2_body env)
                      (sc_state (calm_loop1 env cfg st tracks), []) l1) v)) as [k ->].
    by apply prefix_app_r.
  - destruct (loop4_body_raised env cfg _ v xd Hv) as (_ & _ & -> & Hcalm).
    cbn [snd]. rewrite <- Hcalm.
    unfold calm_update_frame. rewrite Hl, foldl_app. cbn [foldl].
    destruct (loop4_extends env cfg l2
                (calm_loop4_body env cfg
                   (foldl (calm_loop4_body env cfg)
                      (calm_after_churn env cfg st tracks) l1) (v, xd))) as [k ->].
    by apply prefix_app_r.
Qed.

(** A call that emits something has got past LOOP 1. *)
Lemma emitting_scanned env cfg st tracks :
  (update_frame env cfg st tracks).2 ≠ [] →
  loop1 env cfg st tracks = (calm_loop1 env cfg st tracks, false).
Proof.
  intros Hne.
  destruct (update_frame_ends env cfg st tracks)
    as [(_ & H & _)
       |[(_ & pre & d & post & _ & _ & _ & Hae & _ & Heq)
        |[(_ & H & _)|(_ & H & _)]]]; try done.
  rewrite Heq, Hae in Hne. done.
Qed.

(** A run all of whose calls return is a run of the composed folds. *)
Lemma completes_calm cfg frames st :
  completes cfg st frames →
  run cfg st frames = calm_run cfg st frames ∧
  ∀ v, never_visible cfg v st frames ↔ calm_never_visible cfg v st frames.
Proof.
  revert st. induction frames as [|f rest IH]; intros st; cbn [completes]; [done|].
  intros [Hr Hc]. cbn [run calm_run never_visible calm_never_visible].
  destruct (returns_calm _ _ _ _ Hr) as (_ & _ & _ & Hu).
  destruct (returns_visible _ _ _ _ Hr) as [Hv _].
  rewrite Hu in Hc |- *. destruct (IH _ Hc) as [-> Hn].
  split; [done|]. intros v. rewrite Hv, (Hn v). done.
Qed.

Lemma completes_app cfg frames1 frames2 st :
  completes cfg st (frames1 ++ frames2)
  ↔ completes cfg st frames1 ∧ completes cfg (run cfg st frames1).1 frames2.
Proof.
  revert st. induction frames1 as [|f rest IH]; intros st; cbn [app completes run fst].
  { tauto. }
  rewrite IH. tauto.
Qed.

(** ** Properties of a call that returns *)

(** C3.  After a frame update that completes (the call returns) no visible
    visitor is a key of [pending_exit]: LOOP 2 cancels the pending exit of
    every visible visitor, and an entry that is pending after the frame is
    either an old one or was made in LOOP 3 for a lost binding of a visitor
    that is not visible. *)
Theorem visible_never_pending env cfg st tracks :
  returns env cfg st tracks →
  let V := visible_visitors env cfg st tracks in
  let st' := (update_frame env cfg st tracks).1 in
  (∀ v, v ∈ V → pending_exit (after_entries env cfg st tracks).1 !! v = None) ∧
  (∀ v, v ∈ V → pending_exit st' !! v = None) ∧
  (∀ v xd, pending_exit st' !! v = Some xd →
     v ∉ V ∧
     (pending_exit st !! v = Some xd
      ∨ ∃ t td, t ∉ reported_ids tracks ∧ active_tracks st !! t = Some td ∧
          visitor_id td = v ∧
          xd = {| timestamp := mark_time env t; exit_crop := last_crop td |})).
Proof.
  intros Hr V st'. subst V st'.
  destruct (returns_calm _ _ _ _ Hr) as (_ & Hae & _ & Hu).
  destruct (returns_visible _ _ _ _ Hr) as [Hv _].
  rewrite Hae, Hu, Hv. apply calm_visible_never_pending.
Qed.

Lemma visible_never_pending_witness :
  let st := (run default_config one_visitor [sees_nobody 1]).1 in
  pending_exit st !! 100%N = Some {| timestamp := 1; exit_crop := 7%N |} ∧
  pending_exit (update_frame (world 2 true true true) default_config st
                  (Some [(2%Z, 7%N)])).1 !! 100%N = None.
Proof.
  intros st. split; [reflexivity|].
  destruct (visible_never_pending (world 2 true true true) default_config st
              (Some [(2%Z, 7%N)])) as (_ & Hvisible & _).
  - reflexivity.
  - apply Hvisible. by_compute.
Defined.



(** X1.  After a frame update that returns the registry holds exactly the
    reported bindings that are known or could be resolved; a binding the
    frame does not report is gone, whatever it stood for. *)
Theorem registry_is_the_reported_bindings env cfg st tracks t :
  returns env cfg st tracks →
  active_tracks (update_frame env cfg st tracks).1 !! t
  = if decide (t ∈ reported_ids tracks) then resolved env cfg st tracks !! t else None.
Proof.
  intros Hr.
  destruct (returns_calm _ _ _ _ Hr) as (_ & _ & _ & ->).
  destruct (returns_visible _ _ _ _ Hr) as [_ ->].
  apply calm_registry_is_the_reported_bindings.
Qed.

Lemma registry_is_the_reported_bindings_witness :
  active_tracks (update_frame (world 1 true true true) default_config one_visitor
                   (Some [(2%Z, 7%N)])).1 !! 1%Z = None ∧
  active_tracks (update_frame (world 1 true true true) default_config one_visitor
                   (Some [(2%Z, 7%N)])).1 !! 2%Z
  = Some {| visitor_id := 100%N; last_crop := 7%N |}.
Proof.
  split.
  - rewrite (registry_is_the_reported_bindings (world 1 true true true) default_config
               one_visitor (Some [(2%Z, 7%N)]) 1%Z); reflexivity.
  - rewrite (registry_is_the_reported_bindings (world 1 true true true) default_config
               one_visitor (Some [(2%Z, 7%N)]) 2%Z); reflexivity.
Defined.

(** X2.  A binding that is in the registry and is reported again keeps its
    visitor, whatever the embedder and the database would say about the new
    crop, and when the frame update returns its last crop is the crop of the
    frame; its visitor is visible. *)
Theorem known_binding_is_refreshed env cfg st tracks t td c :
  returns env cfg st tracks →
  active_tracks st !! t = Some td →
  latest_crop t (default [] tracks) = Some c →
  active_tracks (update_frame env cfg st tracks).1 !! t
    = Some {| visitor_id := visitor_id td; last_crop := c |} ∧
  visitor_id td ∈ visible_visitors env cfg st tracks.
Proof.
  intros Hr Hlk Hc.
  destruct (returns_calm _ _ _ _ Hr) as (_ & _ & _ & ->).
  destruct (returns_visible _ _ _ _ Hr) as [-> _].
  by apply calm_known_binding_is_refreshed.
Qed.

Lemma known_binding_is_refreshed_witness :
  active_tracks (update_frame (world 1 true true true) default_config one_visitor
                   (Some [(1%Z, 8%N); (1%Z, 9%N)])).1 !! 1%Z
  = Some {| visitor_id := 100%N; last_crop := 9%N |}.
Proof.
  apply (known_binding_is_refreshed (world 1 true true true) default_config one_visitor
           (Some [(1%Z, 8%N); (1%Z, 9%N)]) 1%Z
           {| visitor_id := 100%N; last_crop := 7%N |} 9%N); reflexivity.
Defined.

(** X3.  After a frame update that returns the visitors with a binding in
    the registry are exactly the visitors the frame shows, and none of them
    has a pending exit. *)
Theorem tracked_visitors_are_the_visible env cfg st tracks v :
  returns env cfg st tracks →
  (tracked (update_frame env cfg st tracks).1 v ↔ v ∈ visible_visitors env cfg st tracks) ∧
  (tracked (update_frame env cfg st tracks).1 v →
   pending_exit (update_frame env cfg st tracks).1 !! v = None).
Proof.
  intros Hr.
  destruct (returns_calm _ _ _ _ Hr) as (_ & _ & _ & ->).
  destruct (returns_visible _ _ _ _ Hr) as [-> _].
  apply calm_tracked_visitors_are_the_visible.
Qed.

Lemma tracked_visitors_are_the_visible_witness :
  tracked (update_frame (world 1 true true true) default_config one_visitor
             (Some [(2%Z, 7%N)])).1 100%N.
Proof.
  apply (tracked_visitors_are_the_visible (world 1 true true true) default_config
           one_visitor (Some [(2%Z, 7%N)]) 100%N); [reflexivity|by_compute].
Defined.

(** ** Properties of every call, returning or not *)

Lemma loop1_scan_inv env cfg st tracks : scan_inv st (loop1 env cfg st tracks).1.
Proof.
  unfold loop1. apply for_each_inv; [apply scan_inv_start|].
  intros sc det _ H. rewrite loop1_body_fst. by apply scan_inv_step.
Qed.

(** What LOOP 1 establishes and every iteration of LOOPs 2 to 4 preserves
    holds for what the call leaves, however it ends. *)
Lemma update_frame_inv (P : State * list Emission → Prop) env cfg st tracks :
  P (sc_state (loop1 env cfg st tracks).1, []) →
  (∀ acc v, v ∈ visible_visitors env cfg st tracks → P acc → P (loop2_body env acc v).1) →
  (∀ s tr t, P (s, tr) → P (loop3_body env (visible_visitors env cfg st tracks) s t, tr)) →
  (∀ acc v xd, pending_exit (after_churn env cfg st tracks).1 !! v = Some xd →
               P acc → P (loop4_body env cfg acc (v, xd)).1) →
  P (after_entries env cfg st tracks) ∧ P (after_churn env cfg st tracks) ∧
  P (update_frame env cfg st tracks).
Proof.
  intros H1 H2 H3 H4.
  assert (P (after_entries env cfg st tracks)) as Hae.
  { unfold after_entries, after_entries_exc. cbv zeta.
    destruct (loop1 env cfg st tracks).2; [done|].
    apply for_each_inv; [done|]. intros acc v Hv. apply H2.
    by apply elem_of_elements in Hv. }
  assert (P (after_churn env cfg st tracks)) as Hac.
  { unfold after_churn, after_churn_exc. cbv zeta.
    fold (after_entries env cfg st tracks).
    destruct (after_entries_exc env cfg st tracks).2; [done|]. cbn [fst].
    destruct (after_entries env cfg st tracks) as [s2 tr2].
    apply (foldl_inv (λ s, P (s, tr2))); [done|]. intros s t _. apply H3. }
  split; [done|]. split; [done|].
  unfold update_frame, update_frame_exc. cbv zeta.
  fold (after_churn env cfg st tracks).
  destruct (after_churn_exc env cfg st tracks).2; [done|].
  apply for_each_inv; [done|]. intros acc [v xd] Hin. apply H4.
  by apply elem_of_map_to_list in Hin.
Qed.

Lemma prefix_events_of v (tr1 tr2 : list Emission) :
  tr1 `prefix_of` tr2 → events_of v tr1 `prefix_of` events_of v tr2.
Proof. intros [k ->]. rewrite events_of_app. by apply prefix_app_r. Qed.

Lemma prefix_count_of v k (tr1 tr2 : list Emission) :
  tr1 `prefix_of` tr2 → (count_of v k tr1 ≤ count_of v k tr2)%nat.
Proof.
  intros [k' ->]. unfold count_of. rewrite filter_app, length_app. lia.
Qed.

Lemma prefix_elem_of {A : Type} (l1 l2 : list A) x : l1 `prefix_of` l2 → x ∈ l1 → x ∈ l2.
Proof. intros [k ->] H. apply elem_of_app. by left. Qed.

(** X4.  A call of [update_frame] emits at most one event for a visitor,
    whether it returns or raises: never two entries, never two exits, never
    an entry and an exit. *)
Theorem one_emission_per_visitor_and_frame env cfg st tracks v :
  (length (events_of v (update_frame env cfg st tracks).2) ≤ 1)%nat.
Proof.
  etrans; [|apply (calm_one_emission_per_visitor_and_frame env cfg st tracks v)].
  apply prefix_length, prefix_events_of, trace_prefix.
Qed.

(** A visitor leaves [logged_entry_this_visit] only with an exit and
    enters it only with an entry whose image was saved. *)
Lemma logged_follows_emissions env cfg st tracks v :
  (v ∈ logged_entry_this_visit st →
   v ∉ logged_entry_this_visit (update_frame env cfg st tracks).1 →
   ∃ em, em ∈ (update_frame env cfg st tracks).2 ∧ em_visitor em = v ∧ em_kind em = Exit) ∧
  (v ∉ logged_entry_this_visit st →
   v ∈ logged_entry_this_visit (update_frame env cfg st tracks).1 →
   ∃ em, em ∈ (update_frame env cfg st tracks).2 ∧ em_visitor em = v ∧ em_kind em = Entry ∧
         image_saved em).
Proof.
  apply (update_frame_inv
           (λ acc, (v ∈ logged_entry_this_visit st → v ∉ logged_entry_this_visit acc.1 →
                    ∃ em, em ∈ acc.2 ∧ em_visitor em = v ∧ em_kind em = Exit) ∧
                   (v ∉ logged_entry_this_visit st → v ∈ logged_entry_this_visit acc.1 →
                    ∃ em, em ∈ acc.2 ∧ em_visitor em = v ∧ em_kind em = Entry ∧
                          image_saved em))).
  - cbn [fst snd]. rewrite (si_logged _ _ (loop1_scan_inv env cfg st tracks)). tauto.
  - intros acc x _ [Hout Hin]. unfold loop2_body.
    cbn [logged_entry_this_visit set_pending active_tracks].
    destruct (decide _); [done|]. destruct (crop_to_log _ _) as [c|]; [|done].
    destruct (imwrite_ok env c x Entry) eqn:Hw; cbv zeta.
    2: { cbn [fst snd]. split.
         - intros H H'. destruct (Hout H H') as (em & ? & ?). exists em. set_solver.
         - intros H H'. destruct (Hin H H') as (em & ? & ?). exists em. set_solver. }
    destruct (log_event _ _ _ _ _).2; cbn [fst snd logged_entry_this_visit set_logged set_events].
    + split.
      * intros H H'. destruct (Hout H H') as (em & ? & ?). exists em. set_solver.
      * intros H H'. destruct (Hin H H') as (em & ? & ?). exists em. set_solver.
    + split.
      * intros H H'. destruct (Hout H) as (em & ? & ?); [set_solver|]. exists em. set_solver.
      * intros H H'. destruct (decide (v = x)) as [->|Hne].
        -- eexists. split; [apply elem_of_app; right; apply list_elem_of_here|].
           split; [done|]. split; [done|]. unfold image_saved. simpl.
           by apply outcome_image_saved.
        -- destruct (Hin H) as (em & ? & ?); [set_solver|]. exists em. set_solver.
  - intros s tr t [Hout Hin]. cbn [fst snd] in *.
    destruct (loop3_body_frame env (visible_visitors env cfg st tracks) s t) as (-> & _).
    done.
  - intros acc x xd _ [Hout Hin]. unfold loop4_body. cbv zeta.
    destruct (Qgtb _ _); [|done].
    assert (∀ s,
      logged_entry_this_visit s = logged_entry_this_visit acc.1 →
      (v ∈ logged_entry_this_visit st →
       v ∉ logged_entry_this_visit s ∖ {[x]} →
       ∃ em, em ∈ acc.2 ++ [{| em_visitor := x; em_kind := Exit; em_crop := exit_crop xd;
                               em_outcome := outcome_of env x Exit (exit_crop xd) |}]
             ∧ em_visitor em = v ∧ em_kind em = Exit) ∧
      (v ∉ logged_entry_this_visit st →
       v ∈ logged_entry_this_visit s ∖ {[x]} →
       ∃ em, em ∈ acc.2 ++ [{| em_visitor := x; em_kind := Exit; em_crop := exit_crop xd;
                               em_outcome := outcome_of env x Exit (exit_crop xd) |}]
             ∧ em_visitor em = v ∧ em_kind em = Entry ∧ image_saved em)) as Hpop.
    { intros s Hs. rewrite Hs. split.
      - intros H H'. destruct (decide (v = x)) as [->|Hne].
        + eexists. split; [apply elem_of_app; right; apply list_elem_of_here|]. done.
        + destruct (Hout H) as (em & ? & ?); [set_solver|]. exists em. set_solver.
      - intros H H'. destruct (Hin H) as (em & ? & ?); [set_solver|]. exists em. set_solver. }
    destruct (imwrite_ok env (exit_crop xd) x Exit); [|by apply Hpop].
    destruct (log_event _ _ _ _ _).2; cbn [fst snd]; [|by apply Hpop].
    cbn [logged_entry_this_visit set_events]. split.
    + intros H H'. destruct (Hout H H') as (em & ? & ?). exists em. set_solver.
    + intros H H'. destruct (Hin H H') as (em & ? & ?). exists em. set_solver.
Qed.

(** X5.  [logged_entry_this_visit] follows the emissions, whether the call
    returns or raises: a visitor leaves the set only in a frame that emits
    its exit, and enters it only in a frame that emits its entry with the
    image saved. *)
Theorem visit_flag_follows_the_emissions env cfg st tracks v :
  let r := update_frame env cfg st tracks in
  (v ∈ logged_entry_this_visit st → v ∉ logged_entry_this_visit r.1 →
   ∃ em, em ∈ r.2 ∧ em_visitor em = v ∧ em_kind em = Exit) ∧
  (v ∉ logged_entry_this_visit st → v ∈ logged_entry_this_visit r.1 →
   ∃ em, em ∈ r.2 ∧ em_visitor em = v ∧ em_kind em = Entry ∧ image_saved em).
Proof. apply logged_follows_emissions. Qed.

Lemma visit_flag_follows_the_emissions_witness :
  ∃ em, em ∈ (update_frame (world 5 true true true) default_config
                (run default_config one_visitor [sees_nobody 1]).1 None).2
        ∧ em_visitor em = 100%N ∧ em_kind em = Exit.
Proof.
  destruct (visit_flag_follows_the_emissions (world 5 true true true) default_config
              (run default_config one_visitor [sees_nobody 1]).1 None 100%N) as [Hexit _].
  apply Hexit; by_compute.
Defined.

(** X6.  Within a call, returning or not, every entry is emitted before
    every exit: the trace is the entries of LOOP 2 followed by the exits of
    LOOP 4. *)
Theorem entries_are_emitted_before_exits env cfg st tracks :
  ∃ exits,
    (update_frame env cfg st tracks).2 = (after_entries env cfg st tracks).2 ++ exits ∧
    Forall (λ em, em_kind em = Entry) (after_entries env cfg st tracks).2 ∧
    Forall (λ em, em_kind em = Exit) exits.
Proof.
  destruct (update_frame_ends env cfg st tracks)
    as [(_ & _ & -> & _ & ->)
       |[(_ & pre & d & post & _ & _ & _ & Hae & _ & ->)
        |[(_ & _ & l1 & v & l2 & Hl & Hv & Hae & _ & ->)
         |(_ & _ & -> & _ & l1 & v & xd & l2 & Hl & Hv & ->)]]].
  - apply calm_entries_are_emitted_before_exits.
  - exists []. rewrite app_nil_r, Hae. split; [done|]. split; constructor.
  - exists []. rewrite app_nil_r. split; [done|]. split; [|constructor].
    rewrite Hae. destruct (loop2_body_raised env _ v Hv) as (_ & c & _ & _ & -> & _).
    cbn [snd]. apply Forall_app. split; [by apply loop2_kinds|]. by apply Forall_singleton.
  - destruct (loop4_body_raised env cfg _ v xd Hv) as (_ & _ & -> & _). cbn [snd].
    destruct (loop4_kinds env cfg l1 (calm_after_churn env cfg st tracks)) as (k & -> & Hk).
    eexists (k ++ [_]). rewrite app_assoc. split; [done|]. split.
    + unfold calm_after_entries. by apply loop2_kinds.
    + apply Forall_app. split; [done|]. by apply Forall_singleton.
Qed.

(** X16.  Every emission of a call, returning or not, has its cause in the
    frame or in the state before it.  An entry is for a visitor that the
    frame shows and whose entry is not logged, with the last crop of one of
    its bindings.  An exit is for a visitor that the frame does not show and
    that was pending or had a binding before the frame; its image is the
    crop stored with the pending exit or the last crop of a binding the
    frame lost, never a crop of the frame itself. *)
Theorem emissions_have_causes env cfg st tracks em :
  em ∈ (update_frame env cfg st tracks).2 →
  let v := em_visitor em in
  match em_kind em with
  | Entry =>
      v ∈ visible_visitors env cfg st tracks ∧ v ∉ logged_entry_this_visit st ∧
      ∃ t td, resolved env cfg st tracks !! t = Some td ∧ visitor_id td = v ∧
              em_crop em = last_crop td
  | Exit =>
      v ∉ visible_visitors env cfg st tracks ∧
      ((∃ xd, pending_exit st !! v = Some xd ∧ em_crop em = exit_crop xd)
       ∨ ∃ t td, t ∉ reported_ids tracks ∧ active_tracks st !! t = Some td ∧
                 visitor_id td = v ∧ em_crop em = last_crop td)
  end.
Proof.
  intros Hem.
  destruct (scanned_visible env cfg st tracks) as [-> ->].
  { apply emitting_scanned. intros Hnil. rewrite Hnil in Hem. by apply elem_of_nil in Hem. }
  apply calm_emissions_have_causes.
  eapply prefix_elem_of; [apply trace_prefix|done].
Qed.

Lemma emissions_have_causes_witness :
  100%N ∉ visible_visitors (world 5 true true true) default_config
            (run default_config one_visitor [sees_nobody 1]).1 None.
Proof.
  pose proof (emissions_have_causes (world 5 true true true) default_config
                (run default_config one_visitor [sees_nobody 1]).1 None
                (exit_100 Recorded)) as H.
  apply H.
  change (update_frame (world 5 true true true) default_config
            (run default_config one_visitor [sees_nobody 1]).1 None).2
    with [exit_100 Recorded].
  apply list_elem_of_here.
Defined.

(** ** What the loops leave alone *)

Lemma loop1_body_known env cfg sc t c td :
  active_tracks (sc_state sc) !! t = Some td → (loop1_body env cfg sc (t, c)).2 = false.
Proof. intros Hlk. unfold loop1_body. by rewrite Hlk. Qed.

(** LOOP 1 over bindings of the registry does not raise. *)
Lemma loop1_known_returns env cfg l sc :
  (∀ t, t ∈ l.*1 → is_Some (active_tracks (sc_state sc) !! t)) →
  (for_each (loop1_body env cfg) sc l).2 = false.
Proof.
  revert sc. induction l as [|[t c] l IH]; intros sc Hknown; cbn [for_each]; [done|].
  cbv zeta. destruct (Hknown t) as [td Htd]; [rewrite fmap_cons; left|].
  rewrite (loop1_body_known env cfg sc t c td Htd). apply IH.
  intros t' Ht'. unfold loop1_body. rewrite Htd. cbn [fst sc_state set_active active_tracks].
  destruct (decide (t' = t)) as [->|Hne]; [by rewrite lookup_insert_eq|].
  rewrite lookup_insert_ne by done. apply Hknown. rewrite fmap_cons. by right.
Qed.

Lemma for_each_pointwise {A B : Type} (f g : A → B → A * bool) (l : list B) (a : A) :
  (∀ a x, f a x = g a x) → for_each f a l = for_each g a l.
Proof.
  intros Hfg. revert a. induction l as [|x l IH]; intros a; cbn [for_each]; [done|].
  cbv zeta. rewrite Hfg. destruct (g a x).2; [done|apply IH].
Qed.

Lemma loop2_body_exc_sink env env' acc v :
  same_sink_and_clock env env' → loop2_body env acc v = loop2_body env' acc v.
Proof.
  intros (Hi & He & Hr & _ & _). unfold loop2_body, outcome_of, log_event.
  destruct (decide _); [done|]. destruct (crop_to_log _ _) as [c|]; [|done].
  by rewrite (Hi c v Entry), (He v Entry), (Hr v Entry).
Qed.

Lemma loop4_body_exc_sink env env' cfg acc item :
  same_sink_and_clock env env' → loop4_body env cfg acc item = loop4_body env' cfg acc item.
Proof.
  intros (Hi & He & Hr & _ & Hs). unfold loop4_body, outcome_of, log_event.
  destruct item as [v xd].
  by rewrite Hs, (Hi (exit_crop xd) v Exit), (He v Exit), (Hr v Exit).
Qed.

(** Past LOOP 1 a call depends on the collaborators only through the
    file system, the Events table and the clock. *)
Lemma update_frame_exc_sink env env' cfg st tracks :
  loop1 env cfg st tracks = loop1 env' cfg st tracks →
  same_sink_and_clock env env' →
  update_frame_exc env cfg st tracks = update_frame_exc env' cfg st tracks.
Proof.
  intros H1 Hsame.
  assert (after_entries_exc env cfg st tracks = after_entries_exc env' cfg st tracks) as H2.
  { unfold after_entries_exc. rewrite <- H1. cbv zeta.
    destruct (loop1 env cfg st tracks).2; [done|].
    apply for_each_pointwise. intros a x. by apply loop2_body_exc_sink. }
  assert (after_churn_exc env cfg st tracks = after_churn_exc env' cfg st tracks) as H3.
  { unfold after_churn_exc. rewrite <- H2, <- H1. cbv zeta.
    destruct (after_entries_exc env cfg st tracks).2; [done|].
    f_equal. f_equal. apply foldl_pointwise. intros a x. by apply loop3_body_sink. }
  unfold update_frame_exc. rewrite <- H3. cbv zeta.
  destruct (after_churn_exc env cfg st tracks).2; [done|].
  apply for_each_pointwise. intros a x. by apply loop4_body_exc_sink.
Qed.

Lemma loop2_body_exc_frame env acc v :
  active_tracks (loop2_body env acc v).1.1 = active_tracks acc.1 ∧
  Visitors (loop2_body env acc v).1.1 = Visitors acc.1.
Proof.
  unfold loop2_body. cbn [active_tracks set_pending logged_entry_this_visit].
  destruct (decide _); [done|]. destruct (crop_to_log _ _) as [c|]; [|done].
  destruct (imwrite_ok env c v Entry); [|done]. cbv zeta.
  by destruct (log_event _ _ _ _ _).2.
Qed.

Lemma loop4_body_exc_frame env cfg acc item :
  active_tracks (loop4_body env cfg acc item).1.1 = active_tracks acc.1 ∧
  Visitors (loop4_body env cfg acc item).1.1 = Visitors acc.1.
Proof.
  destruct item as [v xd]. unfold loop4_body. cbv zeta.
  destruct (Qgtb _ _); [|done].
  destruct (imwrite_ok env (exit_crop xd) v Exit); [|done].
  by destruct (log_event _ _ _ _ _).2.
Qed.

(** Only LOOP 1 writes to the Visitors table. *)
Lemma frame_table env cfg st tracks :
  Visitors (update_frame env cfg st tracks).1 = Visitors (sc_state (loop1 env cfg st tracks).1).
Proof.
  apply (update_frame_inv
           (λ acc, Visitors acc.1 = Visitors (sc_state (loop1 env cfg st tracks).1))).
  - done.
  - intros acc v _ <-. apply loop2_body_exc_frame.
  - intros s tr t <-. apply loop3_body_frame.
  - intros acc v xd _ <-. apply loop4_body_exc_frame.
Qed.

(** LOOP 1 leaves the scan of the iterations that returned, over the
    reported pairs up to the one at which it raised. *)
Lemma loop1_as_prefix env cfg st tracks :
  ∃ l, l `prefix_of` default [] tracks ∧
       (loop1 env cfg st tracks).1 = calm_loop1 env cfg st (Some l).
Proof.
  destruct (loop1 env cfg st tracks).2 eqn:H1.
  - destruct (loop1_raised env cfg st tracks H1) as (pre & d & post & Hl & _ & Heq).
    exists (pre ++ [d]). split; [|done]. rewrite Hl. exists post. by rewrite <- app_assoc.
  - exists (default [] tracks). split; [done|]. rewrite (loop1_returned env cfg st tracks H1).
    by destruct tracks.
Qed.

(** X7.  A frame that reports only bindings of the registry neither asks
    the embedder nor searches or extends the Visitors table: the call ends
    in the same way and in the same state, with the same emissions,
    whatever the embedder and the search would answer, and the table is as
    before. *)
Theorem known_bindings_need_no_lookup env env' cfg st tracks :
  reported_ids tracks ⊆ dom (active_tracks st) →
  same_sink_and_clock env env' →
  update_frame env cfg st tracks = update_frame env' cfg st tracks ∧
  Visitors (update_frame env cfg st tracks).1 = Visitors st ∧
  (returns env cfg st tracks ↔ returns env' cfg st tracks).
Proof.
  intros Hknown Hsame.
  assert (∀ t, t ∈ (default [] tracks).*1 → is_Some (active_tracks st !! t)) as Hk.
  { intros t Ht. apply elem_of_dom, Hknown. unfold reported_ids.
    by apply elem_of_list_to_set. }
  assert (∀ e, loop1 e cfg st tracks = (calm_loop1 e cfg st tracks, false)) as H1.
  { intros e.
    pose proof (loop1_known_returns e cfg (default [] tracks)
                  {| sc_state := st; current_track_ids := ∅;
                     current_visitor_ids_in_frame := ∅ |} Hk) as Hr.
    fold (loop1 e cfg st tracks) in Hr.
    rewrite <- (loop1_returned e cfg st tracks Hr). clear -Hr.
    destruct (loop1 e cfg st tracks) as [sc b]. simpl in Hr. by subst b. }
  destruct (loop1_all_known env env' cfg (default [] tracks)
              {| sc_state := st; current_track_ids := ∅;
                 current_visitor_ids_in_frame := ∅ |} Hk) as [Hc1 Hv1].
  fold (calm_loop1 env cfg st tracks) in Hc1, Hv1. fold (calm_loop1 env' cfg st tracks) in Hc1.
  assert (update_frame_exc env cfg st tracks = update_frame_exc env' cfg st tracks) as Heq.
  { apply update_frame_exc_sink; [|done]. by rewrite !H1, Hc1. }
  split; [unfold update_frame; by rewrite Heq|].
  split; [|unfold returns; by rewrite Heq].
  rewrite frame_table, H1. exact Hv1.
Qed.

Lemma known_bindings_need_no_lookup_witness :
  update_frame (world 1 true true true) default_config one_visitor (Some [(1%Z, 0%N)])
  = update_frame (world 1 true true false) default_config one_visitor (Some [(1%Z, 0%N)]).
Proof.
  apply (known_bindings_need_no_lookup (world 1 true true true) (world 1 true true false)
           default_config one_visitor (Some [(1%Z, 0%N)])).
  - by_compute.
  - by repeat split.
Defined.

(** X8.  A call of [update_frame], returning or not, never deletes or
    changes a row of the Visitors table.  It appends at most one row per
    reported pair, and every appended row carries the embedding of a
    reported crop under a visitor that the frame shows. *)
Theorem visitors_table_only_grows env cfg st tracks :
  ∃ new,
    Visitors (update_frame env cfg st tracks).1 = Visitors st ++ new ∧
    (length new ≤ length (default [] tracks))%nat ∧
    Forall (λ row : N * Embedding,
              row.1 ∈ visible_visitors env cfg st tracks ∧
              ∃ d, d ∈ default [] tracks ∧ get_embedding env d.2 = Some row.2) new.
Proof.
  rewrite frame_table. unfold visible_visitors.
  destruct (loop1_as_prefix env cfg st tracks) as (l & Hpre & ->).
  destruct (loop1_new_rows env cfg l
              {| sc_state := st; current_track_ids := ∅;
                 current_visitor_ids_in_frame := ∅ |}) as (new & Hrows & Hlen & Hall).
  exists new. split; [exact Hrows|]. split.
  - etrans; [exact Hlen|]. by apply prefix_length.
  - eapply Forall_impl; [exact Hall|]. intros row [Hin (d & Hd & He)].
    split; [exact Hin|]. exists d. split; [|done]. by eapply prefix_elem_of.
Qed.

(** ** The tables *)

Lemma loop2_body_exc_events env acc v E :
  Events acc.1 = E ++ recorded_rows acc.2 →
  Events (loop2_body env acc v).1.1 = E ++ recorded_rows (loop2_body env acc v).1.2.
Proof.
  intros HE. unfold loop2_body. cbn [active_tracks set_pending logged_entry_this_visit].
  destruct (decide _); [done|]. destruct (crop_to_log _ _) as [c|]; [|done].
  unfold outcome_of, log_event.
  destruct (imwrite_ok env c v Entry), (insert_event_ok env v Entry),
    (rollback_event_ok env v Entry); simpl;
    rewrite recorded_rows_app; simpl; rewrite HE, ?app_nil_r, ?app_assoc; done.
Qed.

Lemma loop4_body_exc_events env cfg acc item E :
  Events acc.1 = E ++ recorded_rows acc.2 →
  Events (loop4_body env cfg acc item).1.1
  = E ++ recorded_rows (loop4_body env cfg acc item).1.2.
Proof.
  intros HE. unfold loop4_body. destruct item as [v xd]. cbv zeta.
  destruct (Qgtb _ _); [|done].
  unfold outcome_of, log_event.
  destruct (imwrite_ok env (exit_crop xd) v Exit), (insert_event_ok env v Exit),
    (rollback_event_ok env v Exit); simpl;
    rewrite recorded_rows_app; simpl; rewrite HE, ?app_nil_r, ?app_assoc; done.
Qed.

(** However the call ends, the Events table has grown by the emissions
    that were recorded. *)
Lemma frame_events_exc env cfg st tracks :
  Events (update_frame env cfg st tracks).1
  = Events st ++ recorded_rows (update_frame env cfg st tracks).2.
Proof.
  apply (update_frame_inv (λ acc, Events acc.1 = Events st ++ recorded_rows acc.2)).
  - cbn [fst snd recorded_rows omap]. rewrite app_nil_r.
    apply (si_events _ _ (loop1_scan_inv env cfg st tracks)).
  - intros acc v _. apply loop2_body_exc_events.
  - intros s tr t H. cbn [fst snd] in *. rewrite <- H. apply loop3_body_frame.
  - intros acc v xd _. apply loop4_body_exc_events.
Qed.

Lemma run_events_exc cfg frames st :
  Events (run cfg st frames).1 = Events st ++ recorded_rows (run cfg st frames).2.
Proof.
  revert st. induction frames as [|f frames IH]; intros st; cbn [run fst snd].
  { cbn [recorded_rows omap]. by rewrite app_nil_r. }
  rewrite IH, frame_events_exc, recorded_rows_app, app_assoc. done.
Qed.

Lemma frame_visitors_grow env cfg st tracks :
  ∃ new, Visitors (update_frame env cfg st tracks).1 = Visitors st ++ new.
Proof.
  rewrite frame_table. destruct (loop1_as_prefix env cfg st tracks) as (l & _ & ->).
  destruct (loop1_new_rows env cfg l
              {| sc_state := st; current_track_ids := ∅;
                 current_visitor_ids_in_frame := ∅ |}) as (new & Hrows & _).
  by exists new.
Qed.

Lemma frame_stored_ids_grow env cfg st tracks v :
  v ∈ stored_ids st → v ∈ stored_ids (update_frame env cfg st tracks).1.
Proof.
  unfold stored_ids. destruct (frame_visitors_grow env cfg st tracks) as [new ->].
  rewrite fmap_app. set_solver.
Qed.

Lemma run_stored_ids_grow cfg frames st v :
  v ∈ stored_ids st → v ∈ stored_ids (run cfg st frames).1.
Proof.
  revert st. induction frames as [|f frames IH]; intros st Hv; cbn [run fst]; [done|].
  by apply IH, frame_stored_ids_grow.
Qed.

(** However the call ends, the visitors of the registry and of the pending
    exits are stored, and so is the visitor of every emission. *)
Lemma frame_stored_exc env cfg st tracks :
  referenced_are_stored st →
  referenced_are_stored (update_frame env cfg st tracks).1 ∧
  ∀ em, em ∈ (update_frame env cfg st tracks).2 →
        em_visitor em ∈ stored_ids (update_frame env cfg st tracks).1.
Proof.
  intros Hst.
  assert (Visitors (update_frame env cfg st tracks).1
          = Visitors (sc_state (loop1 env cfg st tracks).1) ∧
          referenced_are_stored (update_frame env cfg st tracks).1) as [Hvis Href].
  { apply (update_frame_inv
             (λ acc, Visitors acc.1 = Visitors (sc_state (loop1 env cfg st tracks).1) ∧
                     referenced_are_stored acc.1)).
    - split; [done|]. cbn [fst]. destruct Hst as [Hact Hpend].
      unfold referenced_are_stored.
      destruct (loop1_as_prefix env cfg st tracks) as (l & _ & ->). split.
      + by apply loop1_stored.
      + intros v Hv. rewrite (si_pending _ _ (loop1_inv env cfg st (Some l))) in Hv.
        specialize (Hpend v Hv). unfold stored_ids in *.
        destruct (loop1_new_rows env cfg l
                    {| sc_state := st; current_track_ids := ∅;
                       current_visitor_ids_in_frame := ∅ |}) as (new & Hrows & _).
        change (foldl (calm_loop1_body env cfg)
                  {| sc_state := st; current_track_ids := ∅;
                     current_visitor_ids_in_frame := ∅ |} l)
          with (calm_loop1 env cfg st (Some l)) in Hrows.
        rewrite Hrows, fmap_app. set_solver.
    - intros acc v _ [HV [Hact Hpend]].
      destruct (loop2_body_exc_frame env acc v) as [Ha Hv].
      unfold referenced_are_stored, stored_ids in *.
      split; [by rewrite Hv|]. split.
      + intros t td. rewrite Ha, Hv. apply Hact.
      + intros w Hw. rewrite Hv. apply Hpend. revert Hw. unfold loop2_body.
        cbn [active_tracks set_pending logged_entry_this_visit].
        assert (is_Some (delete v (pending_exit acc.1) !! w) → is_Some (pending_exit acc.1 !! w))
          as Hdel.
        { destruct (decide (w = v)) as [->|Hne];
            [rewrite lookup_delete_eq; by intros [? ?]|by rewrite lookup_delete_ne]. }
        destruct (decide _); [done|]. destruct (crop_to_log _ _) as [c|]; [|done].
        destruct (imwrite_ok env c v Entry); [|done]. cbv zeta.
        by destruct (log_event _ _ _ _ _).2.
    - intros s tr t [HV [Hact Hpend]]. cbn [fst] in *.
      destruct (loop3_body_frame env (visible_visitors env cfg st tracks) s t) as (_ & Hv & _).
      unfold referenced_are_stored, stored_ids in *. split; [by rewrite Hv|]. rewrite Hv. split.
      + intros t' td'. rewrite loop3_body_active. destruct (decide (t' = t)); [done|].
        apply Hact.
      + intros w. rewrite loop3_body_pending.
        destruct (active_tracks s !! t) as [td|] eqn:Htd; [|apply Hpend].
        destruct (decide _) as [[<- _]|_]; [|apply Hpend]. intros _. by eapply Hact.
    - intros acc v xd _ [HV [Hact Hpend]].
      destruct (loop4_body_exc_frame env cfg acc (v, xd)) as [Ha Hv].
      unfold referenced_are_stored, stored_ids in *.
      split; [by rewrite Hv|]. split.
      + intros t td. rewrite Ha, Hv. apply Hact.
      + intros w Hw. rewrite Hv. apply Hpend. revert Hw. unfold loop4_body. cbv zeta.
        assert (is_Some (delete v (pending_exit acc.1) !! w) → is_Some (pending_exit acc.1 !! w))
          as Hdel.
        { destruct (decide (w = v)) as [->|Hne];
            [rewrite lookup_delete_eq; by intros [? ?]|by rewrite lookup_delete_ne]. }
        destruct (Qgtb _ _); [|done].
        destruct (imwrite_ok env (exit_crop xd) v Exit); [|done].
        by destruct (log_event _ _ _ _ _).2. }
  split; [done|]. intros em Hem.
  assert (loop1 env cfg st tracks = (calm_loop1 env cfg st tracks, false)) as H1.
  { apply emitting_scanned. intros Hnil. rewrite Hnil in Hem. by apply elem_of_nil in Hem. }
  destruct (frame_stored env cfg st tracks Hst) as [_ Hcalm].
  specialize (Hcalm em (prefix_elem_of _ _ _ (trace_prefix env cfg st tracks) Hem)).
  unfold stored_ids in *. rewrite frame_visitors in Hcalm. by rewrite Hvis, H1.
Qed.

Lemma run_stored_exc cfg frames st :
  referenced_are_stored st →
  referenced_are_stored (run cfg st frames).1 ∧
  ∀ em, em ∈ (run cfg st frames).2 → em_visitor em ∈ stored_ids (run cfg st frames).1.
Proof.
  revert st. induction frames as [|f frames IH]; intros st Hst; cbn [run fst snd].
  { split; [done|]. by intros em ?%elem_of_nil. }
  destruct (frame_stored_exc (f_env f) cfg st (f_tracks f) Hst) as [Hst1 Hem1].
  destruct (IH _ Hst1) as [Hst2 Hem2]. split; [done|].
  intros em [Hem|Hem]%elem_of_app; [|by apply Hem2].
  by apply run_stored_ids_grow, Hem1.
Qed.

(** X9.  In a run from the initial state, whichever of its calls return,
    every emission, and every row the run adds to the Events table, is for a
    visitor that is stored in the Visitors table at the end of the run. *)
Theorem events_refer_to_stored_visitors cfg rows frames :
  let r := run cfg (init rows) frames in
  (∀ em, em ∈ r.2 → em_visitor em ∈ stored_ids r.1) ∧
  (∀ row, row ∈ Events r.1 → ev_visitor row ∈ stored_ids r.1).
Proof.
  intros r. subst r.
  assert (referenced_are_stored (init rows)) as Hinit.
  { split; simpl.
    - intros t td Hlk. by rewrite lookup_empty in Hlk.
    - intros v Hs. rewrite lookup_empty in Hs. by destruct Hs. }
  destruct (run_stored_exc cfg frames (init rows) Hinit) as [_ Hem].
  split; [exact Hem|].
  intros row Hrow. rewrite run_events_exc in Hrow. simpl in Hrow.
  apply elem_of_recorded_rows in Hrow as (em & Hin & ->). by apply Hem.
Qed.

(** A call whose folds emit nothing and whose LOOP 1 returns does return:
    only [register_new_visitor] and [log_event] can raise. *)
Lemma silent_returns env cfg st tracks :
  (loop1 env cfg st tracks).2 = false →
  (calm_update_frame env cfg st tracks).2 = [] →
  returns env cfg st tracks.
Proof.
  intros H1 Hnil. pose proof (trace_prefix env cfg st tracks) as Hpre.
  rewrite Hnil in Hpre. apply prefix_nil_inv in Hpre.
  destruct (update_frame_ends env cfg st tracks)
    as [(Hr & _)
       |[(_ & pre & d & post & _ & _ & Hl1 & _)
        |[(_ & _ & l1 & v & l2 & Hl & Hv & Hae & _ & Heq)
         |(_ & _ & _ & _ & l1 & v & xd & l2 & Hl & Hv & Heq)]]].
  - done.
  - rewrite Hl1 in H1. done.
  - rewrite Heq, Hae in Hpre.
    destruct (loop2_body_raised env _ v Hv) as (_ & c & _ & _ & Hb & _).
    rewrite Hb in Hpre. cbn [snd] in Hpre. by destruct (foldl _ _ l1).2.
  - rewrite Heq in Hpre.
    destruct (loop4_body_raised env cfg _ v xd Hv) as (_ & _ & Hb & _).
    rewrite Hb in Hpre. cbn [snd] in Hpre. by destruct (foldl _ _ l1).2.
Qed.

(** X10.  When a frame reports exactly the bindings of the registry, no
    exit is pending and the entry of every tracked visitor is logged, the
    call returns, emits nothing and changes nothing but the last crops: the
    pending exits, the logged entries and both tables are as before and the
    registry has the same bindings. *)
Theorem steady_frame_is_silent env cfg st tracks :
  dom (active_tracks st) = reported_ids tracks →
  pending_exit st = ∅ →
  (∀ t td, active_tracks st !! t = Some td → visitor_id td ∈ logged_entry_this_visit st) →
  let r := update_frame env cfg st tracks in
  r.2 = [] ∧
  pending_exit r.1 = ∅ ∧
  logged_entry_this_visit r.1 = logged_entry_this_visit st ∧
  Visitors r.1 = Visitors st ∧ Events r.1 = Events st ∧
  dom (active_tracks r.1) = dom (active_tracks st) ∧
  returns env cfg st tracks.
Proof.
  intros Hdom Hpend Hlogged r. subst r.
  pose proof (calm_steady_frame_is_silent env cfg st tracks Hdom Hpend Hlogged) as Hcalm.
  cbv zeta in Hcalm.
  assert (returns env cfg st tracks) as Hr.
  { apply silent_returns; [|apply Hcalm].
    apply (loop1_known_returns env cfg (default [] tracks)).
    intros t Ht. cbn [sc_state]. apply elem_of_dom. rewrite Hdom. unfold reported_ids.
    by apply elem_of_list_to_set. }
  destruct (returns_calm _ _ _ _ Hr) as (_ & _ & _ & ->).
  destruct Hcalm as (? & ? & ? & ? & ? & ?). done.
Qed.

Lemma steady_frame_is_silent_witness :
  (update_frame (world 1 true true true) default_config one_visitor (Some [(1%Z, 8%N)])).2 = [].
Proof.
  apply (steady_frame_is_silent (world 1 true true true) default_config one_visitor
           (Some [(1%Z, 8%N)])).
  - reflexivity.
  - reflexivity.
  - intros t td Hlk. unfold one_visitor in Hlk. vm_compute in Hlk.
    destruct t as [|[p|p|]|p]; try discriminate Hlk; try (destruct p; discriminate Hlk).
    injection Hlk as <-. by_compute.
Defined.

(** ** Unusable crops *)


(** Whether an iteration of LOOP 1 raises depends on the state only. *)
Lemma loop1_body_snd_state env cfg sc sc' det :
  sc_state sc' = sc_state sc →
  (loop1_body env cfg sc' det).2 = (loop1_body env cfg sc det).2.
Proof.
  intros Hs. destruct det as [t c]. unfold loop1_body. rewrite Hs.
  destruct (active_tracks (sc_state sc) !! t); [done|].
  by destruct (resolve_new env cfg (Visitors (sc_state sc)) c) as [[[v|] rows] raised].
Qed.

Lemma loop1_fold_ids_exc env cfg l sc sc' X :
  sc_state sc' = sc_state sc →
  current_visitor_ids_in_frame sc' = current_visitor_ids_in_frame sc →
  current_track_ids sc' = X ∪ current_track_ids sc →
  (for_each (loop1_body env cfg) sc' l).2 = (for_each (loop1_body env cfg) sc l).2 ∧
  sc_state (for_each (loop1_body env cfg) sc' l).1
    = sc_state (for_each (loop1_body env cfg) sc l).1 ∧
  current_visitor_ids_in_frame (for_each (loop1_body env cfg) sc' l).1
    = current_visitor_ids_in_frame (for_each (loop1_body env cfg) sc l).1 ∧
  current_track_ids (for_each (loop1_body env cfg) sc' l).1
    = X ∪ current_track_ids (for_each (loop1_body env cfg) sc l).1.
Proof.
  revert sc sc'. induction l as [|det l IH]; intros sc sc' Hs Hv Ht; cbn [for_each]; [done|].
  cbv zeta. rewrite (loop1_body_snd_state env cfg sc sc' det Hs).
  destruct (loop1_body_ids env cfg sc sc' X det Hs Hv Ht) as (Hs' & Hv' & Ht').
  rewrite <- !loop1_body_fst in Hs', Hv', Ht'.
  destruct (loop1_body env cfg sc det).2 eqn:Hraised; [|by apply IH].
  split; [|done]. by rewrite (loop1_body_snd_state env cfg sc sc' det Hs).
Qed.

Lemma after_entries_exc_active env cfg st tracks :
  active_tracks (after_entries_exc env cfg st tracks).1.1
  = active_tracks (sc_state (loop1 env cfg st tracks).1).
Proof.
  unfold after_entries_exc. cbv zeta. destruct (loop1 env cfg st tracks).2; [done|].
  apply (for_each_inv
           (λ acc, active_tracks acc.1 = active_tracks (sc_state (loop1 env cfg st tracks).1)));
    [done|].
  intros acc v _ <-. apply loop2_body_exc_frame.
Qed.

(** A call depends on the reported pairs through what LOOP 1 leaves: how
    it ended, the state, the visible visitors and the lost track ids. *)
Lemma update_frame_exc_scan env cfg st t1 t2 :
  (loop1 env cfg st t1).2 = (loop1 env cfg st t2).2 →
  sc_state (loop1 env cfg st t1).1 = sc_state (loop1 env cfg st t2).1 →
  current_visitor_ids_in_frame (loop1 env cfg st t1).1
    = current_visitor_ids_in_frame (loop1 env cfg st t2).1 →
  dom (active_tracks (sc_state (loop1 env cfg st t1).1)) ∖ current_track_ids (loop1 env cfg st t1).1
    = dom (active_tracks (sc_state (loop1 env cfg st t2).1))
        ∖ current_track_ids (loop1 env cfg st t2).1 →
  update_frame_exc env cfg st t1 = update_frame_exc env cfg st t2.
Proof.
  intros Hb Hs Hv Hlost.
  assert (after_entries_exc env cfg st t1 = after_entries_exc env cfg st t2) as H2.
  { unfold after_entries_exc. by rewrite Hb, Hs, Hv. }
  assert (after_churn_exc env cfg st t1 = after_churn_exc env cfg st t2) as H3.
  { pose proof (after_entries_exc_active env cfg st t1) as Ha1.
    pose proof (after_entries_exc_active env cfg st t2) as Ha2.
    unfold after_churn_exc. cbv zeta. rewrite Ha1, Ha2, Hlost, Hv, H2. done. }
  unfold update_frame_exc. by rewrite H3.
Qed.

(** A reported binding whose iteration of LOOP 1 returns without touching
    the state or the visible visitors does not count: the call ends in the
    same way, in the state and with the emissions of the same call without
    the binding. *)
Lemma skipped_binding env cfg st pre post tid c :
  resolved env cfg st (Some pre) !! tid = None →
  ((loop1 env cfg st (Some pre)).2 = false →
   loop1_body env cfg (loop1 env cfg st (Some pre)).1 (tid, c)
   = ({| sc_state := sc_state (loop1 env cfg st (Some pre)).1;
         current_track_ids := {[tid]} ∪ current_track_ids (loop1 env cfg st (Some pre)).1;
         current_visitor_ids_in_frame :=
           current_visitor_ids_in_frame (loop1 env cfg st (Some pre)).1 |}, false)) →
  update_frame_exc env cfg st (Some (pre ++ (tid, c) :: post))
  = update_frame_exc env cfg st (Some (pre ++ post)) ∧
  visible_visitors env cfg st (Some (pre ++ (tid, c) :: post))
  = visible_visitors env cfg st (Some (pre ++ post)).
Proof.
  intros Hnew Hskip.
  set (start := {| sc_state := st; current_track_ids := ∅;
                   current_visitor_ids_in_frame := ∅ |}).
  assert (active_tracks st !! tid = None) as Hst.
  { destruct (active_tracks st !! tid) as [td|] eqn:E; [|done].
    destruct (si_binding_kept _ _ (loop1_scan_inv env cfg st (Some pre)) tid td E)
      as (td' & Hlk & _).
    unfold resolved in Hnew. congruence. }
  assert ((loop1 env cfg st (Some (pre ++ (tid, c) :: post))).2
            = (loop1 env cfg st (Some (pre ++ post))).2 ∧
          sc_state (loop1 env cfg st (Some (pre ++ (tid, c) :: post))).1
            = sc_state (loop1 env cfg st (Some (pre ++ post))).1 ∧
          current_visitor_ids_in_frame (loop1 env cfg st (Some (pre ++ (tid, c) :: post))).1
            = current_visitor_ids_in_frame (loop1 env cfg st (Some (pre ++ post))).1 ∧
          (current_track_ids (loop1 env cfg st (Some (pre ++ (tid, c) :: post))).1
             = current_track_ids (loop1 env cfg st (Some (pre ++ post))).1
           ∨ current_track_ids (loop1 env cfg st (Some (pre ++ (tid, c) :: post))).1
             = {[tid]} ∪ current_track_ids (loop1 env cfg st (Some (pre ++ post))).1))
    as (Hb & Hs & Hv & Ht).
  { revert Hskip. unfold loop1. change (default [] (Some ?l)) with l. rewrite !for_each_app.
    fold start. change (for_each (loop1_body env cfg) start pre)
      with (loop1 env cfg st (Some pre)).
    intros Hskip.
    destruct (loop1 env cfg st (Some pre)).2 eqn:Hpre; [by auto|].
    cbn [for_each]. cbv zeta. rewrite (Hskip eq_refl).
    cbn [fst snd].
    destruct (loop1_fold_ids_exc env cfg post (loop1 env cfg st (Some pre)).1
                {| sc_state := sc_state (loop1 env cfg st (Some pre)).1;
                   current_track_ids :=
                     {[tid]} ∪ current_track_ids (loop1 env cfg st (Some pre)).1;
                   current_visitor_ids_in_frame :=
                     current_visitor_ids_in_frame (loop1 env cfg st (Some pre)).1 |}
                {[tid]}) as (H1 & H2 & H3 & H4); try done.
    auto. }
  split; [|done].
  apply update_frame_exc_scan; try done. rewrite Hs.
  destruct Ht as [->| ->]; [done|].
  apply set_eq. intros t. rewrite !elem_of_difference, elem_of_union, elem_of_singleton.
  split; [tauto|]. intros [Hdom HT]. split; [done|]. intros [->|?]; [|done].
  apply elem_of_dom in Hdom.
  rewrite (si_unseen _ _ (loop1_scan_inv env cfg st (Some (pre ++ post))) tid HT) in Hdom.
  rewrite Hst in Hdom. by destruct Hdom.
Qed.



(** ** Searching and registering *)

(** X12.  Resolution settles: once a crop has been resolved to a visitor,
    resolving the same crop again returns the same visitor, does not raise
    and leaves the Visitors table alone, provided the search works and the
    similarity of the embedding to itself meets the threshold.  In
    particular a face that was registered for one binding is recognised for
    the next binding of the same frame instead of being registered twice. *)
Theorem resolution_settles env cfg rows c e v rows' :
  get_embedding env c = Some e →
  select_ok env e = true →
  similarity_threshold cfg <= similarity env e e →
  (resolve_new env cfg rows c).1 = (Some v, rows') →
  resolve_new env cfg rows' c = ((Some v, rows'), false).
Proof.
  intros He Hok Hself Hres. rewrite resolve_new_fst in Hres.
  pose proof (calm_resolution_settles env cfg rows c e v rows' He Hok Hself Hres) as Hcalm.
  rewrite <- resolve_new_fst in Hcalm.
  pose proof (resolve_new_Some env cfg rows' c v rows' Hcalm) as Hflag.
  destruct (resolve_new env cfg rows' c) as [r b]. cbn [fst snd] in *. by subst.
Qed.

Lemma resolution_settles_witness :
  resolve_new (world 0 true true true) default_config [(100%N, 7%N)] 7%N
  = ((Some 100%N, [(100%N, 7%N)]), false).
Proof.
  apply (resolution_settles (world 0 true true true) default_config [] 7%N 7%N 100%N
           [(100%N, 7%N)]); try reflexivity. by compute.
Defined.

(** ** The configured timeout *)

Lemma loop1_body_threshold env cfg cfg' sc det :
  similarity_threshold cfg = similarity_threshold cfg' →
  loop1_body env cfg sc det = loop1_body env cfg' sc det.
Proof. intros H. destruct det as [t c]. unfold loop1_body, resolve_new. by rewrite H. Qed.

Lemma after_entries_exc_threshold env cfg cfg' st tracks :
  similarity_threshold cfg = similarity_threshold cfg' →
  after_entries_exc env cfg st tracks = after_entries_exc env cfg' st tracks.
Proof.
  intros H. unfold after_entries_exc, loop1.
  by rewrite (for_each_pointwise _ _ _ _ (λ a x, loop1_body_threshold env cfg cfg' a x H)).
Qed.

(** The emissions of a call past those of LOOP 2 are exits. *)
Lemma exits_follow_entries env cfg st tracks :
  ∃ exits,
    (update_frame env cfg st tracks).2 = (after_entries env cfg st tracks).2 ++ exits ∧
    Forall (λ em, em_kind em = Exit) exits.
Proof.
  destruct (update_frame_ends env cfg st tracks)
    as [(_ & _ & -> & _ & ->)
       |[(_ & pre & d & post & _ & _ & _ & _ & _ & ->)
        |[(_ & _ & l1 & v & l2 & _ & _ & _ & _ & ->)
         |(_ & _ & -> & _ & l1 & v & xd & l2 & Hl & Hv & ->)]]].
  - destruct (loop4_kinds env cfg
                (map_to_list (pending_exit (calm_after_churn env cfg st tracks).1))
                (calm_after_churn env cfg st tracks)) as (k & Hk & Hexits).
    by exists k.
  - exists []. by rewrite app_nil_r.
  - exists []. by rewrite app_nil_r.
  - destruct (loop4_body_raised env cfg _ v xd Hv) as (_ & _ & -> & _). cbn [snd].
    destruct (loop4_kinds env cfg l1 (calm_after_churn env cfg st tracks)) as (k & -> & Hk).
    eexists (k ++ [_]). rewrite app_assoc. split; [done|].
    apply Forall_app. split; [done|]. by apply Forall_singleton.
Qed.

Lemma count_of_app v k tr1 tr2 :
  count_of v k (tr1 ++ tr2) = (count_of v k tr1 + count_of v k tr2)%nat.
Proof. unfold count_of. by rewrite filter_app, length_app. Qed.

Lemma count_of_other_kind v k k' tr :
  k ≠ k' → Forall (λ em, em_kind em = k') tr → count_of v k tr = 0%nat.
Proof.
  intros Hne Hall. unfold count_of. induction Hall as [|em tr Hem _ IH]; [done|].
  rewrite filter_cons_False; [done|]. intros [_ Hk]. congruence.
Qed.

(** X17.  A longer timeout never brings an exit forward: with the same
    similarity threshold and a timeout that is at least as long, a call
    emits an exit for a visitor only if the call with the shorter timeout
    does so when it returns, and it emits the same entries. *)
Theorem longer_timeout_delays_exits env cfg cfg' st tracks v :
  returns env cfg st tracks →
  similarity_threshold cfg = similarity_threshold cfg' →
  exit_timeout cfg <= exit_timeout cfg' →
  (count_of v Exit (update_frame env cfg' st tracks).2
   ≤ count_of v Exit (update_frame env cfg st tracks).2)%nat ∧
  count_of v Entry (update_frame env cfg' st tracks).2
  = count_of v Entry (update_frame env cfg st tracks).2.
Proof.
  intros Hr Hthr Hto.
  destruct (calm_longer_timeout_delays_exits env cfg cfg' st tracks v Hthr Hto) as [Hx _].
  destruct (returns_calm _ _ _ _ Hr) as (_ & _ & _ & Hu). split.
  - rewrite Hu. etrans; [|exact Hx]. apply prefix_count_of, trace_prefix.
  - destruct (exits_follow_entries env cfg st tracks) as (k & -> & Hk).
    destruct (exits_follow_entries env cfg' st tracks) as (k' & -> & Hk').
    rewrite !count_of_app.
    rewrite (count_of_other_kind v Entry Exit k), (count_of_other_kind v Entry Exit k') by done.
    unfold after_entries. by rewrite (after_entries_exc_threshold env cfg cfg' st tracks Hthr).
Qed.

Lemma longer_timeout_delays_exits_witness :
  (count_of 100 Exit
     (update_frame (world 5 true true true) {| similarity_threshold := 6 # 10; exit_timeout := 10 |}
        (run default_config one_visitor [sees_nobody 1]).1 None).2
   ≤ count_of 100 Exit
       (update_frame (world 5 true true true) default_config
          (run default_config one_visitor [sees_nobody 1]).1 None).2)%nat.
Proof.
  apply (longer_timeout_delays_exits (world 5 true true true) default_config
           {| similarity_threshold := 6 # 10; exit_timeout := 10 |}
           (run default_config one_visitor [sees_nobody 1]).1 None 100%N);
    [reflexivity|reflexivity|by compute].
Defined.

(** ** Absences, in calls that return or raise *)

(** The same as [update_frame_inv], with what is known at the end of LOOP 3
    at hand in LOOP 4. *)
Lemma update_frame_inv2 (P : State * list Emission → Prop) env cfg st tracks :
  P (sc_state (loop1 env cfg st tracks).1, []) →
  (∀ acc v, v ∈ visible_visitors env cfg st tracks → P acc → P (loop2_body env acc v).1) →
  (∀ s tr t, P (s, tr) → P (loop3_body env (visible_visitors env cfg st tracks) s t, tr)) →
  (∀ acc v xd, P (after_churn env cfg st tracks) →
               pending_exit (after_churn env cfg st tracks).1 !! v = Some xd →
               P acc → P (loop4_body env cfg acc (v, xd)).1) →
  P (update_frame env cfg st tracks).
Proof.
  intros H1 H2 H3 H4.
  assert (P (after_entries env cfg st tracks)) as Hae.
  { unfold after_entries, after_entries_exc. cbv zeta.
    destruct (loop1 env cfg st tracks).2; [done|].
    apply for_each_inv; [done|]. intros acc v Hv. apply H2.
    by apply elem_of_elements in Hv. }
  assert (P (after_churn env cfg st tracks)) as Hac.
  { unfold after_churn, after_churn_exc. cbv zeta.
    fold (after_entries env cfg st tracks).
    destruct (after_entries_exc env cfg st tracks).2; [done|]. cbn [fst].
    destruct (after_entries env cfg st tracks) as [s2 tr2].
    apply (foldl_inv (λ s, P (s, tr2))); [done|]. intros s t _. apply H3. }
  unfold update_frame, update_frame_exc. cbv zeta.
  fold (after_churn env cfg st tracks).
  destruct (after_churn_exc env cfg st tracks).2; [done|].
  apply for_each_inv; [done|]. intros acc [v xd] Hin. apply H4; [done|].
  by apply elem_of_map_to_list in Hin.
Qed.

Lemma loop2_body_exc_other env acc v w :
  w ≠ v →
  pending_exit (loop2_body env acc v).1.1 !! w = pending_exit acc.1 !! w ∧
  (w ∈ logged_entry_this_visit (loop2_body env acc v).1.1
     ↔ w ∈ logged_entry_this_visit acc.1) ∧
  events_of w (loop2_body env acc v).1.2 = events_of w acc.2.
Proof.
  intros Hne. unfold loop2_body. cbn [active_tracks set_pending logged_entry_this_visit].
  destruct (decide (v ∈ logged_entry_this_visit acc.1)); cbn [fst snd pending_exit set_pending].
  { by rewrite lookup_delete_ne. }
  destruct (crop_to_log (active_tracks acc.1) v) as [c|]; cbn [fst snd pending_exit set_pending].
  2: { by rewrite lookup_delete_ne. }
  destruct (imwrite_ok env c v Entry); cbv zeta;
    [destruct (log_event _ _ _ _ _).2|]; simpl;
    rewrite lookup_delete_ne by done; rewrite events_of_app;
    rewrite events_of_one_ne by (simpl; congruence); rewrite app_nil_r;
    (split; [done|]); (split; [|done]); set_solver.
Qed.

Lemma loop4_body_exc_other env cfg acc v xd w :
  w ≠ v →
  pending_exit (loop4_body env cfg acc (v, xd)).1.1 !! w = pending_exit acc.1 !! w ∧
  (w ∈ logged_entry_this_visit (loop4_body env cfg acc (v, xd)).1.1
     ↔ w ∈ logged_entry_this_visit acc.1) ∧
  events_of w (loop4_body env cfg acc (v, xd)).1.2 = events_of w acc.2.
Proof.
  intros Hne. unfold loop4_body. cbv zeta. destruct (Qgtb _ _); [|done].
  destruct (imwrite_ok env (exit_crop xd) v Exit);
    [destruct (log_event _ _ _ _ _).2|]; simpl;
    rewrite events_of_app, events_of_one_ne by (simpl; congruence); rewrite app_nil_r;
    rewrite ?lookup_delete_ne by done; (split; [done|]); (split; [|done]); set_solver.
Qed.

(** A visitor that LOOP 1 does not find and that had no binding has none
    after LOOP 1. *)
Lemma scanned_untracked env cfg st tracks v :
  v ∉ visible_visitors env cfg st tracks → ¬ tracked st v →
  ¬ tracked (sc_state (loop1 env cfg st tracks).1) v.
Proof.
  intros Hv Hunt (t & td & Hlk & Hvid).
  pose proof (loop1_scan_inv env cfg st tracks) as Hinv.
  destruct (decide (t ∈ current_track_ids (loop1 env cfg st tracks).1)) as [HT|HT].
  - apply Hv. rewrite <- Hvid. by apply (si_tracked_visible _ _ Hinv t td).
  - rewrite (si_unseen _ _ Hinv t HT) in Hlk. apply Hunt. by exists t, td.
Qed.

(** While a visitor without bindings stays away and its timeout has not
    elapsed, a call leaves its pending exit alone and emits nothing for it,
    whether the call returns or raises. *)
Lemma frame_waiting_exc env cfg st tracks v xd :
  v ∉ visible_visitors env cfg st tracks → ¬ tracked st v →
  pending_exit st !! v = Some xd → expired env cfg xd = false →
  events_of v (update_frame env cfg st tracks).2 = [] ∧
  pending_exit (update_frame env cfg st tracks).1 !! v = Some xd ∧
  ¬ tracked (update_frame env cfg st tracks).1 v ∧
  (v ∈ logged_entry_this_visit (update_frame env cfg st tracks).1
     ↔ v ∈ logged_entry_this_visit st).
Proof.
  intros Hv Hunt Hp Hnot.
  apply (update_frame_inv2
           (λ acc, events_of v acc.2 = [] ∧ pending_exit acc.1 !! v = Some xd ∧
                   ¬ tracked acc.1 v ∧
                   (v ∈ logged_entry_this_visit acc.1 ↔ v ∈ logged_entry_this_visit st))).
  - pose proof (loop1_scan_inv env cfg st tracks) as Hinv. cbn [fst snd].
    rewrite (si_pending _ _ Hinv), (si_logged _ _ Hinv).
    split; [done|]. split; [done|]. split; [|done]. by apply scanned_untracked.
  - intros acc x Hx (He & Hpa & Hua & Hla).
    assert (v ≠ x) as Hne by (intros ->; done).
    destruct (loop2_body_exc_other env acc x v Hne) as (-> & -> & ->).
    split; [done|]. split; [done|]. split; [|done].
    intros (t & td & Hlk & Hvid). apply Hua. exists t, td.
    destruct (loop2_body_exc_frame env acc x) as [<- _]. done.
  - intros s tr t (He & Hpa & Hua & Hla). cbn [fst snd] in *.
    split; [done|]. split; [|split].
    + rewrite loop3_body_pending. destruct (active_tracks s !! t) as [td|] eqn:Htd; [|done].
      rewrite decide_False; [done|]. intros [Hvid _]. apply Hua. by exists t, td.
    + intros (t' & td' & Hlk & Hvid). apply Hua. exists t', td'.
      rewrite loop3_body_active in Hlk. by destruct (decide (t' = t)).
    + destruct (loop3_body_frame env (visible_visitors env cfg st tracks) s t) as (-> & _).
      done.
  - intros acc x xd' (_ & Hpc & _ & _) Hx (He & Hpa & Hua & Hla).
    destruct (decide (v = x)) as [<-|Hne].
    + rewrite Hpc in Hx. injection Hx as <-.
      unfold loop4_body. cbv zeta. unfold expired in Hnot. rewrite Hnot. done.
    + destruct (loop4_body_exc_other env cfg acc x xd' v Hne) as (-> & -> & ->).
      split; [done|]. split; [done|]. split; [|done].
      intros (t & td & Hlk & Hvid). apply Hua. exists t, td.
      destruct (loop4_body_exc_frame env cfg acc (x, xd')) as [<- _]. done.
Qed.

Lemma run_app_exc cfg st l1 l2 :
  run cfg st (l1 ++ l2)
  = ((run cfg (run cfg st l1).1 l2).1, (run cfg st l1).2 ++ (run cfg (run cfg st l1).1 l2).2).
Proof.
  revert st. induction l1 as [|f l1 IH]; intros st; cbn [run app].
  { simpl. by destruct (run cfg st l2). }
  rewrite IH. simpl. by rewrite app_assoc.
Qed.

Lemma run_waiting_exc cfg v xd frames st :
  pending_exit st !! v = Some xd → ¬ tracked st v →
  never_visible cfg v st frames →
  Forall (λ f, expired (f_env f) cfg xd = false) frames →
  events_of v (run cfg st frames).2 = [] ∧
  pending_exit (run cfg st frames).1 !! v = Some xd ∧
  ¬ tracked (run cfg st frames).1 v ∧
  (v ∈ logged_entry_this_visit (run cfg st frames).1 ↔ v ∈ logged_entry_this_visit st).
Proof.
  revert st. induction frames as [|f frames IH]; intros st Hp Hunt Hnv Hne; [done|].
  cbn [run never_visible] in *. destruct Hnv as [Hv Hnv].
  apply Forall_cons in Hne as [Hne1 Hne].
  destruct (frame_waiting_exc (f_env f) cfg st (f_tracks f) v xd Hv Hunt Hp Hne1)
    as (He' & Hp' & Hunt' & Hl').
  destruct (IH _ Hp' Hunt' Hnv Hne) as (He & Hp2 & Hunt2 & Hl2).
  cbn [fst snd]. rewrite events_of_app, He', He.
  split; [done|]. split; [done|]. split; [done|]. rewrite Hl2, Hl'. tauto.
Qed.

Lemma visible_sub_calm env cfg st tracks :
  visible_visitors env cfg st tracks ⊆ calm_visible_visitors env cfg st tracks.
Proof.
  unfold visible_visitors, calm_visible_visitors.
  destruct (loop1_as_prefix env cfg st tracks) as (l & [k Hk] & ->).
  unfold calm_loop1. rewrite Hk. change (default [] (Some l)) with l.
  rewrite foldl_app. apply loop1_visible_mono.
Qed.

(** A call in a frame that shows a visitor emits no exit for it, and
    nothing at all when its entry is logged, which it then stays; whether
    the call returns or raises. *)
Lemma frame_visible_exc env cfg st tracks v :
  v ∈ visible_visitors env cfg st tracks →
  count_of v Exit (update_frame env cfg st tracks).2 = 0%nat ∧
  (v ∈ logged_entry_this_visit st →
   events_of v (update_frame env cfg st tracks).2 = [] ∧
   v ∈ logged_entry_this_visit (update_frame env cfg st tracks).1).
Proof.
  intros Hv. apply visible_sub_calm in Hv.
  destruct (calm_reappearance_cancels_pending_exit cfg) as [Hcalm _].
  destruct (Hcalm env st tracks v Hv) as (_ & _ & Hc & Hlogged).
  pose proof (trace_prefix env cfg st tracks) as Hpre.
  split.
  { pose proof (prefix_count_of v Exit _ _ Hpre) as Hle. lia. }
  intros Hin. destruct (Hlogged Hin) as [Hnil _].
  assert (events_of v (update_frame env cfg st tracks).2 = []) as He.
  { apply (prefix_events_of v) in Hpre. rewrite Hnil in Hpre. by apply prefix_nil_inv. }
  split; [done|].
  assert (v ∈ logged_entry_this_visit (update_frame env cfg st tracks).1
          ∨ ∃ em, em ∈ (update_frame env cfg st tracks).2 ∧ em_visitor em = v) as [?|Hem].
  { apply (update_frame_inv
             (λ acc, v ∈ logged_entry_this_visit acc.1
                     ∨ ∃ em, em ∈ acc.2 ∧ em_visitor em = v)).
    - left. cbn [fst]. by rewrite (si_logged _ _ (loop1_scan_inv env cfg st tracks)).
    - intros acc x _ [Hl|(em & Hem & Hvis)].
      + left. unfold loop2_body. cbn [active_tracks set_pending logged_entry_this_visit].
        destruct (decide _); [done|]. destruct (crop_to_log _ _) as [c|]; [|done].
        destruct (imwrite_ok env c x Entry); [|done]. cbv zeta.
        destruct (log_event _ _ _ _ _).2; cbn [fst logged_entry_this_visit set_logged set_events];
          [done|set_solver].
      + right. exists em. split; [|done]. unfold loop2_body.
        destruct (decide _); [done|]. destruct (crop_to_log _ _) as [c|]; [|done].
        destruct (imwrite_ok env c x Entry); [|set_solver]. cbv zeta.
        destruct (log_event _ _ _ _ _).2; set_solver.
    - intros s tr t [Hl|?]; [left|by right]. cbn [fst] in *.
      by destruct (loop3_body_frame env (visible_visitors env cfg st tracks) s t) as (-> & _).
    - intros acc x xd _ [Hl|(em & Hem & Hvis)].
      + unfold loop4_body. cbv zeta. destruct (Qgtb _ _); [|by left].
        destruct (decide (v = x)) as [->|Hne].
        * right.
          exists {| em_visitor := x; em_kind := Exit; em_crop := exit_crop xd;
                    em_outcome := outcome_of env x Exit (exit_crop xd) |}.
          split; [|reflexivity].
          destruct (imwrite_ok env (exit_crop xd) x Exit);
            [destruct (log_event _ _ _ _ _).2|]; cbn [snd fst];
            apply elem_of_app; right; apply list_elem_of_here.
        * left. destruct (imwrite_ok env (exit_crop xd) x Exit);
            [destruct (log_event _ _ _ _ _).2|];
            cbn [fst logged_entry_this_visit set_logged set_events set_pending];
            set_solver.
      + right. exists em. split; [|done]. unfold loop4_body. cbv zeta.
        destruct (Qgtb _ _); [|done].
        destruct (imwrite_ok env (exit_crop xd) x Exit);
          [destruct (log_event _ _ _ _ _).2|]; set_solver. }
  - done.
  - destruct Hem as (em & Hem & Hvis). exfalso.
    assert (em ∈ events_of v (update_frame env cfg st tracks).2) as Hc'.
    { by apply elem_of_events_of. }
    rewrite He in Hc'. by apply elem_of_nil in Hc'.
Qed.

(** C9.  Whatever the clock says, a call in a frame that shows a visitor
    emits no exit for it, and emits no entry either when the entry of the
    visit is logged, whether the call returns or raises; when it returns,
    it has cancelled the pending exit of the visitor in LOOP 2, before
    LOOPs 3 and 4.  So when a visitor is pending after frame N (whose call
    returned), stays away during the frames in between and is resolved again
    in a frame that occurs before the deadline elapses (none of the earlier
    frames having a later clock), no exit is emitted for the visitor in any
    of these frames, whichever of their calls raise; a visit whose entry was
    logged goes on without another entry; and the pending exit is gone as
    soon as the call of the reappearance returns. *)
Theorem reappearance_cancels_pending_exit cfg :
  (∀ env st tracks v,
     v ∈ visible_visitors env cfg st tracks →
     (returns env cfg st tracks →
      pending_exit (after_entries env cfg st tracks).1 !! v = None ∧
      pending_exit (update_frame env cfg st tracks).1 !! v = None) ∧
     count_of v Exit (update_frame env cfg st tracks).2 = 0%nat ∧
     (v ∈ logged_entry_this_visit st →
      events_of v (update_frame env cfg st tracks).2 = [] ∧
      v ∈ logged_entry_this_visit (update_frame env cfg st tracks).1)) ∧
  (∀ env0 st0 tracks0 v xd between f,
     let stN := (update_frame env0 cfg st0 tracks0).1 in
     returns env0 cfg st0 tracks0 →
     pending_exit stN !! v = Some xd →
     never_visible cfg v stN between →
     v ∈ visible_visitors (f_env f) cfg (run cfg stN between).1 (f_tracks f) →
     Forall (λ g, sweep_time (f_env g) <= sweep_time (f_env f)) between →
     expired (f_env f) cfg xd = false →
     let r := run cfg stN (between ++ [f]) in
     count_of v Exit r.2 = 0%nat ∧
     (returns (f_env f) cfg (run cfg stN between).1 (f_tracks f) →
      pending_exit r.1 !! v = None) ∧
     (v ∈ logged_entry_this_visit stN →
      events_of v r.2 = [] ∧ v ∈ logged_entry_this_visit r.1)).
Proof.
  assert (∀ env st tracks v,
     v ∈ visible_visitors env cfg st tracks →
     (returns env cfg st tracks →
      pending_exit (after_entries env cfg st tracks).1 !! v = None ∧
      pending_exit (update_frame env cfg st tracks).1 !! v = None) ∧
     count_of v Exit (update_frame env cfg st tracks).2 = 0%nat ∧
     (v ∈ logged_entry_this_visit st →
      events_of v (update_frame env cfg st tracks).2 = [] ∧
      v ∈ logged_entry_this_visit (update_frame env cfg st tracks).1)) as Hframe.
  { intros env st tracks v Hv. split; [|by apply frame_visible_exc].
    intros Hr. destruct (returns_calm _ _ _ _ Hr) as (_ & -> & _ & ->).
    destruct (returns_visible _ _ _ _ Hr) as [Hvis _]. rewrite Hvis in Hv.
    destruct (calm_reappearance_cancels_pending_exit cfg) as [Hcalm _].
    by destruct (Hcalm env st tracks v Hv) as (? & ? & _). }
  split; [exact Hframe|].
  intros env0 st0 tracks0 v xd between f stN Hr0 Hp Hnv Hv Hmono Hnot r.
  subst r. set (st := (update_frame env0 cfg st0 tracks0).1) in *. subst stN.
  assert (Forall (λ g, expired (f_env g) cfg xd = false) between) as Hquiet.
  { eapply Forall_impl; [exact Hmono|]. intros g Hg. simpl in Hg.
    apply not_expired_before_deadline. apply not_expired_before_deadline in Hnot. lra. }
  assert (¬ tracked st v) as Hunt.
  { unfold st. destruct (returns_calm _ _ _ _ Hr0) as (_ & _ & _ & Hu).
    rewrite Hu. apply pending_untracked. rewrite <- Hu. fold st. by rewrite Hp. }
  destruct (run_waiting_exc cfg v xd between st Hp Hunt Hnv Hquiet) as (He1 & Hp1 & _ & Hl1).
  destruct (Hframe (f_env f) (run cfg st between).1 (f_tracks f) v Hv)
    as (Hp2 & Hc2 & Hlogged).
  rewrite run_app_exc. cbn [run fst snd]. rewrite app_nil_r.
  split; [|split].
  - rewrite count_of_events_of, events_of_app, He1. simpl.
    by rewrite <- count_of_events_of.
  - intros Hrf. by apply Hp2.
  - intros Hin. rewrite events_of_app, He1. simpl. apply Hlogged. by apply Hl1.
Qed.

Lemma reappearance_cancels_pending_exit_witness :
  let stN := (run default_config (init []) [sees 0 [(1%Z, 7%N)]; sees_nobody 1]).1 in
  let r := run default_config stN [sees_offline 2 None; sees 3 [(2%Z, 7%N)]] in
  count_of 100 Exit r.2 = 0%nat ∧ events_of 100 r.2 = [] ∧
  pending_exit r.1 !! 100%N = None.
Proof.
  intros stN r.
  destruct (reappearance_cancels_pending_exit default_config) as [_ Hrun].
  destruct (Hrun (world 1 true true true) one_visitor None 100%N
              {| timestamp := 1; exit_crop := 7%N |}
              [sees_offline 2 None] (sees 3 [(2%Z, 7%N)]))
    as (Hc & Hp & Hl).
  - reflexivity.
  - reflexivity.
  - split; [by_compute|exact I].
  - by_compute.
  - repeat constructor. by compute.
  - reflexivity.
  - split; [exact Hc|]. split; [apply Hl; by_compute|]. apply Hp. reflexivity.
Defined.

(** ** Frames without track ids *)







(** ** The sweep *)

(** A call that emits an exit has got past LOOP 3. *)
Lemma exit_emitted_churned env cfg st tracks em :
  em ∈ (update_frame env cfg st tracks).2 → em_kind em = Exit →
  after_churn env cfg st tracks = calm_after_churn env cfg st tracks.
Proof.
  intros Hem Hk.
  destruct (update_frame_ends env cfg st tracks)
    as [(_ & _ & _ & H & _)
       |[(_ & pre & d & post & _ & _ & _ & Hae & _ & Heq)
        |[(_ & _ & l1 & v & l2 & Hl & Hv & Hae & _ & Heq)
         |(_ & _ & _ & H & _)]]]; try done.
  - rewrite Heq, Hae in Hem. by apply elem_of_nil in Hem.
  - rewrite Heq, Hae in Hem.
    destruct (loop2_body_raised env _ v Hv) as (_ & c & _ & _ & Hb & _).
    rewrite Hb in Hem. cbn [snd] in Hem. apply elem_of_app in Hem as [Hem|Hem].
    + pose proof (loop2_kinds env l1 (sc_state (calm_loop1 env cfg st tracks), [])
                    (Forall_nil_2 _)) as Hall.
      rewrite Forall_forall in Hall. specialize (Hall em Hem). simpl in Hall. congruence.
    + apply list_elem_of_singleton in Hem. subst em. done.
Qed.

(** C4, as amended.  In a call of [update_frame] that returns, LOOP 4
    emits the exit of exactly those pending exits whose deadline, the time
    of the mark plus the configured timeout, is before the clock reading of
    the sweep, and removes them from the buffer and from
    [logged_entry_this_visit]; a pending exit whose deadline is not yet
    over, the deadline itself included, stays and emits nothing.  In every
    call, returning or not, an exit that is emitted is the exit of a pending
    exit whose deadline is over.  In a run all of whose calls return, when
    the only binding of a visitor disappears and the visitor is not seen
    again, exactly one exit is emitted for it: in the first frame whose
    clock is past the deadline, with the last crop of the binding. *)
Theorem exit_expiry_sweep cfg :
  (∀ env st tracks v xd,
     let r := update_frame env cfg st tracks in
     returns env cfg st tracks →
     pending_exit (after_churn env cfg st tracks).1 !! v = Some xd →
     (timestamp xd + exit_timeout cfg < sweep_time env →
      events_of v r.2
        = [{| em_visitor := v; em_kind := Exit; em_crop := exit_crop xd;
              em_outcome := outcome_of env v Exit (exit_crop xd) |}] ∧
      pending_exit r.1 !! v = None ∧ v ∉ logged_entry_this_visit r.1) ∧
     (sweep_time env <= timestamp xd + exit_timeout cfg →
      events_of v r.2 = [] ∧ pending_exit r.1 !! v = Some xd)) ∧
  (∀ env st tracks em,
     em ∈ (update_frame env cfg st tracks).2 → em_kind em = Exit →
     ∃ xd, pending_exit (after_churn env cfg st tracks).1 !! em_visitor em = Some xd ∧
           timestamp xd + exit_timeout cfg < sweep_time env ∧
           em_crop em = exit_crop xd) ∧
  (∀ st v t td before f after,
     active_tracks st !! t = Some td → visitor_id td = v →
     (∀ t' td', active_tracks st !! t' = Some td' → visitor_id td' = v → t' = t) →
     completes cfg st (before ++ f :: after) →
     never_visible cfg v st (before ++ f :: after) →
     let xd := {| timestamp := mark_time (f_env (hd f before)) t;
                  exit_crop := last_crop td |} in
     Forall (λ g, sweep_time (f_env g) <= timestamp xd + exit_timeout cfg) before →
     timestamp xd + exit_timeout cfg < sweep_time (f_env f) →
     let r := run cfg st (before ++ f :: after) in
     events_of v r.2
       = [{| em_visitor := v; em_kind := Exit; em_crop := last_crop td;
             em_outcome := outcome_of (f_env f) v Exit (last_crop td) |}] ∧
     pending_exit r.1 !! v = None).
Proof.
  destruct (calm_exit_expiry_sweep cfg) as (Hframe & Hcause & Hrun).
  split; [|split].
  - intros env st tracks v xd r Hr. subst r.
    destruct (returns_calm env cfg st tracks Hr) as (_ & _ & -> & ->).
    apply Hframe.
  - intros env st tracks em Hem Hk.
    rewrite (exit_emitted_churned env cfg st tracks em Hem Hk).
    apply Hcause; [|done]. eapply prefix_elem_of; [apply trace_prefix|done].
  - intros st v t td before f after Hlk Hvid Hsole Hc Hnv xd Hbefore Hlt r. subst r.
    destruct (completes_calm cfg _ st Hc) as [-> Hn]. apply Hn in Hnv.
    by apply (Hrun st v t td before f after).
Qed.

Lemma exit_expiry_sweep_witness :
  events_of 100 (run default_config one_visitor
                   [sees_nobody 1; sees_nobody 4; sees_nobody 5; sees_nobody 9]).2
  = [exit_100 Recorded].
Proof.
  destruct (exit_expiry_sweep default_config) as (_ & _ & Hrun).
  apply (Hrun one_visitor 100%N 1%Z {| visitor_id := 100%N; last_crop := 7%N |}
           [sees_nobody 1; sees_nobody 4] (sees_nobody 5) [sees_nobody 9]).
  - reflexivity.
  - reflexivity.
  - intros t' td' Hlk _. destruct (decide (t' = 1%Z)) as [|Hne]; [done|].
    unfold one_visitor in Hlk. vm_compute in Hlk.
    destruct t' as [|[p|p|]|p]; try discriminate Hlk; try done; destruct p; discriminate Hlk.
  - repeat split; reflexivity.
  - repeat split; by_compute.
  - repeat constructor; by compute.
  - by compute.
Defined.

Lemma no_exit_on_the_deadline :
  let st := (run default_config one_visitor [sees_nobody 1]).1 in
  let r := update_frame (world 4 true true true) default_config st None in
  pending_exit st !! 100%N = Some {| timestamp := 1; exit_crop := 7%N |} ∧
  1 + exit_timeout default_config <= sweep_time (world 4 true true true) ∧
  returns (world 4 true true true) default_config st None ∧
  r.2 = [] ∧
  pending_exit r.1 !! 100%N = Some {| timestamp := 1; exit_crop := 7%N |} ∧
  (run default_config one_visitor [sees_nobody 1; sees_offline 5 None; sees_nobody 6]).2
  = [exit_100 StoreRaised; exit_100 Recorded].
Proof.
  split; [reflexivity|]. split; [by compute|]. split; [reflexivity|].
  split; [reflexivity|]. split; reflexivity.
Qed.

(** ** Visits *)

(** C1, as amended.  In a call of [update_frame], for a visitor that
    LOOP 1 finds in the frame: an entry is emitted only if the visitor is
    not in [logged_entry_this_visit], and at most once, however the call
    ends; when the call returns, an entry is emitted if and only if the
    visitor is not in the set, and the visitor is in the set afterwards
    exactly when it was before or its entry was emitted with the image
    saved.  Consequently, in a run from the initial state all of whose
    calls return and in which no image save of an entry fails, exactly one
    entry is emitted for a visitor between two consecutive exits of that
    visitor. *)
Theorem entry_deduplication cfg :
  (∀ env st tracks v,
     v ∈ visible_visitors env cfg st tracks →
     let r := update_frame env cfg st tracks in
     ((∃ em, em ∈ r.2 ∧ em_visitor em = v ∧ em_kind em = Entry)
        → v ∉ logged_entry_this_visit st) ∧
     (count_of v Entry r.2 ≤ 1)%nat ∧
     (returns env cfg st tracks →
      (v ∉ logged_entry_this_visit st
         → ∃ em, em ∈ r.2 ∧ em_visitor em = v ∧ em_kind em = Entry) ∧
      (v ∈ logged_entry_this_visit r.1
         ↔ v ∈ logged_entry_this_visit st
           ∨ ∃ em, em ∈ r.2 ∧ em_visitor em = v ∧ em_kind em = Entry ∧ image_saved em))) ∧
  (∀ rows frames v a x1 mid x2 b,
     completes cfg (init rows) frames →
     Forall entry_saved (run cfg (init rows) frames).2 →
     (run cfg (init rows) frames).2 = a ++ x1 :: mid ++ x2 :: b →
     em_visitor x1 = v → em_kind x1 = Exit →
     em_visitor x2 = v → em_kind x2 = Exit →
     count_of v Exit mid = 0%nat →
     count_of v Entry mid = 1%nat).
Proof.
  destruct (calm_entry_deduplication cfg) as [Hframe Hrun].
  split.
  - intros env st tracks v Hv r. subst r.
    apply visible_sub_calm in Hv.
    destruct (Hframe env st tracks v Hv) as (Hiff & Hone & Hlogged).
    pose proof (trace_prefix env cfg st tracks) as Hpre.
    split; [|split].
    + intros (em & Hem & Hrest). apply Hiff. exists em. split; [|done].
      by eapply prefix_elem_of.
    + etrans; [by apply prefix_count_of|done].
    + intros Hr. destruct (returns_calm env cfg st tracks Hr) as (_ & _ & _ & ->).
      split; [by apply Hiff|done].
  - intros rows frames v a x1 mid x2 b Hc.
    destruct (completes_calm cfg frames (init rows) Hc) as [-> _]. apply Hrun.
Qed.

Lemma entry_deduplication_witness :
  count_of 100 Entry [entry_100 Recorded] = 1%nat.
Proof.
  destruct (entry_deduplication default_config) as [_ Hruns].
  apply (Hruns [] two_visits 100%N [entry_100 Recorded] (exit_100 Recorded)
           [entry_100 Recorded] (exit_100 Recorded) []); try reflexivity.
  - repeat split; reflexivity.
  - vm_compute. repeat constructor; intros H1 H2; first [discriminate H1 | discriminate H2].
Defined.

Lemma entry_repeated_within_a_visit :
  100%N ∈ visible_visitors (world 0 false true true) default_config (init [])
            (Some [(1%Z, 7%N)]) ∧
  returns (world 0 false true true) default_config (init []) (Some [(1%Z, 7%N)]) ∧
  logged_entry_this_visit
    (update_frame (world 0 false true true) default_config (init [])
       (Some [(1%Z, 7%N)])).1 = ∅ ∧
  completes default_config (init []) second_visit_unsaved ∧
  (run default_config (init []) second_visit_unsaved).2
  = [entry_100 Recorded; exit_100 Recorded;
     entry_100 ImageFailed; entry_100 ImageFailed; exit_100 Recorded] ∧
  (run default_config (init [])
     [sees 0 [(1%Z, 7%N)]; sees_nobody 1; sees_offline 5 None; sees_nobody 6]).2
  = [entry_100 Recorded; exit_100 StoreRaised; exit_100 Recorded].
Proof.
  split; [by_compute|]. split; [reflexivity|]. split; [by vm_compute|].
  split; [repeat split; reflexivity|]. split; reflexivity.
Qed.

(** C2, as amended.  In a run from the initial state all of whose calls
    return and in which no image save of an entry fails, at every point of
    the trace the exits emitted for a visitor do not outnumber its entries,
    at most one entry is without its exit, and an exit is only emitted
    while one is. *)
Theorem entry_precedes_exit cfg rows frames v before after :
  completes cfg (init rows) frames →
  Forall entry_saved (run cfg (init rows) frames).2 →
  (run cfg (init rows) frames).2 = before ++ after →
  (count_of v Exit before ≤ count_of v Entry before ≤ count_of v Exit before + 1)%nat ∧
  (∀ em rest, after = em :: rest → em_visitor em = v → em_kind em = Exit →
     count_of v Entry before = (count_of v Exit before + 1)%nat).
Proof.
  intros Hc. destruct (completes_calm cfg frames (init rows) Hc) as [-> _].
  apply calm_entry_precedes_exit.
Qed.

Lemma entry_precedes_exit_witness :
  count_of 100 Entry [entry_100 Recorded] = (count_of 100 Exit [entry_100 Recorded] + 1)%nat.
Proof.
  destruct (entry_precedes_exit default_config [] two_visits 100%N
              [entry_100 Recorded]
              [exit_100 Recorded; entry_100 Recorded; exit_100 Recorded])
    as [_ Hexit].
  - repeat split; reflexivity.
  - vm_compute. repeat constructor; intros H1 H2; first [discriminate H1 | discriminate H2].
  - reflexivity.
  - apply (Hexit (exit_100 Recorded) [entry_100 Recorded; exit_100 Recorded]); reflexivity.
Defined.

Lemma exit_without_recorded_entry :
  completes default_config (init []) unsaved_visit ∧
  (run default_config (init []) (take 2 unsaved_visit)).2
  = [entry_100 ImageFailed; entry_100 ImageFailed] ∧
  (run default_config (init []) unsaved_visit).2
  = [entry_100 ImageFailed; entry_100 ImageFailed; exit_100 Recorded] ∧
  Events (run default_config (init []) unsaved_visit).1
  = [{| ev_visitor := 100; ev_type := Exit; ev_image := 7%N |}] ∧
  (run default_config (init [])
     [sees 0 [(1%Z, 7%N)]; sees_nobody 1; sees_offline 5 None; sees_nobody 6]).2
  = [entry_100 Recorded; exit_100 StoreRaised; exit_100 Recorded].
Proof.
  split; [repeat split; reflexivity|]. vm_compute. done.
Qed.

(** ** Searching and registering *)

(** Resolution of a usable crop yields no visitor only when
    [register_new_visitor] fails, and raises when the rollback fails too. *)
Lemma resolve_new_None env cfg rows c e :
  get_embedding env c = Some e →
  (resolve_new env cfg rows c).1.1 = None →
  resolve_new env cfg rows c = ((None, rows), negb (rollback_visitor_ok env rows e)).
Proof.
  unfold resolve_new, register_new_visitor. intros -> Hnone.
  destruct (find_visitor env rows e (similarity_threshold cfg)) as [[v s]|]; [done|].
  destruct (insert_visitor env rows e) as [v|]; [|done].
  by destruct (id_is_free rows v).
Qed.

(** The iteration of LOOP 1 for a new binding that resolves to no visitor:
    it leaves the state and the visible visitors as they are. *)
Lemma loop1_body_unresolved env cfg sc tid c raised :
  active_tracks (sc_state sc) !! tid = None →
  resolve_new env cfg (Visitors (sc_state sc)) c = ((None, Visitors (sc_state sc)), raised) →
  loop1_body env cfg sc (tid, c)
  = ({| sc_state := sc_state sc;
        current_track_ids := {[tid]} ∪ current_track_ids sc;
        current_visitor_ids_in_frame := current_visitor_ids_in_frame sc |}, raised).
Proof.
  intros Hnew Hres. unfold loop1_body. rewrite Hnew, Hres. by destruct (sc_state sc).
Qed.

(** The iteration of LOOP 1 that raises ends the call: LOOPs 2 to 4 do not
    run and nothing is emitted. *)
Lemma raising_binding env cfg st pre post det sc' :
  (loop1 env cfg st (Some pre)).2 = false →
  loop1_body env cfg (loop1 env cfg st (Some pre)).1 det = (sc', true) →
  ¬ returns env cfg st (Some (pre ++ det :: post)) ∧
  update_frame env cfg st (Some (pre ++ det :: post)) = (sc_state sc', []).
Proof.
  intros Hpre Hbody.
  assert (loop1 env cfg st (Some (pre ++ det :: post)) = (sc', true)) as H1.
  { revert Hpre Hbody. unfold loop1. change (default [] (Some ?l)) with l.
    rewrite for_each_app. intros -> Hbody. cbn [for_each]. cbv zeta. by rewrite Hbody. }
  unfold returns, update_frame, update_frame_exc, after_churn_exc, after_entries_exc.
  cbv zeta. rewrite H1. cbn [fst snd]. done.
Qed.

(** C7, as amended.  Resolution of a new binding whose crop has an
    embedding (lines 107-116).  When it yields a visitor it does not raise,
    and the visitor is either a stored one that the search found, of
    greatest similarity to the embedding among the stored rows and with
    similarity at least the threshold, the table being left alone; or a new
    one, registered with this embedding under an id that no stored row has,
    because the search failed or no stored row meets the threshold.  It
    yields no visitor exactly when there is no match and the INSERT of
    [register_new_visitor] fails; the table is then unchanged.  If the
    rollback of the handler works, the binding is skipped: its iteration
    changes neither the state nor the visible visitors and the call ends as
    the call without the binding.  If the rollback raises too, the exception
    ends the call at this binding: no later binding is resolved, LOOPs 2 to
    4 do not run and nothing is emitted. *)
Theorem reid_resolution env cfg rows crop_img e :
  get_embedding env crop_img = Some e →
  let thr := similarity_threshold cfg in
  let no_match :=
    select_ok env e = false ∨ ∀ v2 e2, (v2, e2) ∈ rows → similarity env e e2 < thr in
  match resolve_new env cfg rows crop_img with
  | ((Some v, rows'), raised) =>
      raised = false ∧
      ((rows' = rows ∧ select_ok env e = true ∧
        ∃ e', (v, e') ∈ rows ∧ thr <= similarity env e e' ∧
              ∀ v2 e2, (v2, e2) ∈ rows → similarity env e e2 <= similarity env e e')
       ∨ (rows' = rows ++ [(v, e)] ∧ v ∉ rows.*1 ∧
          insert_visitor env rows e = Some v ∧ no_match))
  | ((None, rows'), raised) =>
      rows' = rows ∧ no_match ∧
      (insert_visitor env rows e = None
       ∨ ∃ v, insert_visitor env rows e = Some v ∧ v ∈ rows.*1) ∧
      raised = negb (rollback_visitor_ok env rows e) ∧
      (∀ sc track_id,
         active_tracks (sc_state sc) !! track_id = None →
         Visitors (sc_state sc) = rows →
         loop1_body env cfg sc (track_id, crop_img)
         = ({| sc_state := sc_state sc;
               current_track_ids := {[track_id]} ∪ current_track_ids sc;
               current_visitor_ids_in_frame := current_visitor_ids_in_frame sc |},
            raised)) ∧
      (∀ st pre post track_id,
         (loop1 env cfg st (Some pre)).2 = false →
         resolved env cfg st (Some pre) !! track_id = None →
         Visitors (sc_state (loop1 env cfg st (Some pre)).1) = rows →
         let reported := Some (pre ++ (track_id, crop_img) :: post) in
         if raised
         then ¬ returns env cfg st reported ∧
              update_frame env cfg st reported = (sc_state (loop1 env cfg st (Some pre)).1, [])
         else update_frame env cfg st reported = update_frame env cfg st (Some (pre ++ post)) ∧
              visible_visitors env cfg st reported
                = visible_visitors env cfg st (Some (pre ++ post)) ∧
              (returns env cfg st reported ↔ returns env cfg st (Some (pre ++ post))))
  end.
Proof.
  intros He thr no_match.
  pose proof (calm_reid_resolution env cfg rows crop_img e He) as Hcalm.
  cbv zeta in Hcalm. fold thr in Hcalm. fold no_match in Hcalm.
  rewrite <- resolve_new_fst in Hcalm.
  destruct (resolve_new env cfg rows crop_img) as [[o rows'] raised] eqn:Hres.
  cbn [fst] in Hcalm. destruct o as [v|].
  - split; [|exact Hcalm].
    pose proof (resolve_new_Some env cfg rows crop_img v rows') as Hflag.
    rewrite Hres in Hflag. by apply Hflag.
  - destruct Hcalm as (-> & Hno & Hins).
    pose proof (resolve_new_None env cfg rows crop_img e He) as Hnone.
    rewrite Hres in Hnone. specialize (Hnone eq_refl). injection Hnone as Hraised.
    split; [done|]. split; [done|]. split; [done|]. split; [done|]. split.
    + intros sc tid Hnew Hrows. apply loop1_body_unresolved; [done|]. by rewrite Hrows.
    + intros st pre post tid Hpre Hnew Hrows reported. subst reported.
      assert (loop1_body env cfg (loop1 env cfg st (Some pre)).1 (tid, crop_img)
              = ({| sc_state := sc_state (loop1 env cfg st (Some pre)).1;
                    current_track_ids :=
                      {[tid]} ∪ current_track_ids (loop1 env cfg st (Some pre)).1;
                    current_visitor_ids_in_frame :=
                      current_visitor_ids_in_frame (loop1 env cfg st (Some pre)).1 |},
                 raised)) as Hbody.
      { apply loop1_body_unresolved; [done|]. by rewrite Hrows. }
      destruct raised.
      * apply (raising_binding env cfg st pre post (tid, crop_img) _ Hpre Hbody).
      * destruct (skipped_binding env cfg st pre post tid crop_img Hnew (λ _, Hbody))
          as [Heq Hv].
        unfold update_frame, returns. rewrite Heq. done.
Qed.

Lemma reid_resolution_witness :
  (∃ e', (100%N, e') ∈ [(100%N, 7%N)] ∧
         similarity_threshold default_config <= similarity (world 0 true true true) 7%N e') ∧
  ¬ returns (disconnected (world 0 true true true)) default_config (init [])
      (Some [(1%Z, 7%N); (2%Z, 8%N)]).
Proof.
  split.
  - pose proof (reid_resolution (world 0 true true true) default_config
                  [(100%N, 7%N)] 7%N 7%N eq_refl) as H.
    cbv beta zeta in H.
    change (resolve_new _ _ _ _) with ((Some 100%N, [(100%N, 7%N)]), false) in H.
    cbv beta iota in H.
    destruct H as (_ & [(_ & _ & e' & Hin & Hle & _)|(Hrows & _)]).
    + exists e'. split; [exact Hin | exact Hle].
    + discriminate Hrows.
  - pose proof (reid_resolution (disconnected (world 0 true true true)) default_config
                  [] 7%N 7%N eq_refl) as H.
    cbv beta zeta in H.
    change (resolve_new _ _ _ _) with ((@None N, @nil (N * Embedding)), true) in H.
    cbv beta iota in H.
    destruct H as (_ & _ & _ & _ & _ & Hframe).
    destruct (Hframe (init []) [] [(2%Z, 8%N)] 1%Z eq_refl eq_refl eq_refl) as [Hraise _].
    exact Hraise.
Defined.

Lemma reid_resolution_can_yield_nothing :
  get_embedding (world 0 true true false) 7%N = Some 7%N ∧
  resolve_new (world 0 true true false) default_config [] 7%N = ((None, []), false) ∧
  visible_visitors (world 0 true true false) default_config (init []) (Some [(1%Z, 7%N)]) = ∅ ∧
  active_tracks (update_frame (world 0 true true false) default_config (init [])
                   (Some [(1%Z, 7%N)])).1 = ∅ ∧
  resolve_new (disconnected (world 0 true true true)) default_config [] 7%N
    = ((None, []), true) ∧
  update_frame (disconnected (world 0 true true true)) default_config (init [])
    (Some [(1%Z, 7%N); (2%Z, 8%N)]) = (init [], []).
Proof. vm_compute. done. Qed.

(** ** Failing sinks *)

(** What every iteration establishes from a store that was left without
    raising holds for what the loop leaves, together with the way it
    ended. *)
Lemma for_each_inv_exc {A B : Type} (P : A * bool → Prop) (body : A → B → A * bool)
    (l : list B) (a : A) :
  P (a, false) → (∀ a x, x ∈ l → P (a, false) → P (body a x)) → P (for_each body a l).
Proof.
  revert a. induction l as [|x l IH]; intros a Ha Hstep; cbn [for_each]; [done|].
  cbv zeta. assert (P (body a x)) as Hb by (apply Hstep; [left|done]).
  destruct (body a x) as [a' b]. cbn [fst snd]. destruct b; [done|].
  apply IH; [done|]. intros a'' y Hy. apply Hstep. by right.
Qed.

Lemma for_each_never {A B : Type} (body : A → B → A * bool) (l : list B) (a : A) :
  (∀ a x, (body a x).2 = false) → (for_each body a l).2 = false.
Proof.
  intros Hb. revert a. induction l as [|x l IH]; intros a; cbn [for_each]; [done|].
  cbv zeta. rewrite Hb. apply IH.
Qed.

(** An emission whose rollback raised is the last thing its call did, and
    a call that returns has made none. *)
Lemma raised_emission env cfg st tracks :
  if (update_frame_exc env cfg st tracks).2
  then (update_frame env cfg st tracks).2 = []
       ∨ ∃ tr em, (update_frame env cfg st tracks).2 = tr ++ [em] ∧
                  em_outcome em = StoreRaised ∧
                  Forall (λ em, em_outcome em ≠ StoreRaised) tr
  else Forall (λ em, em_outcome em ≠ StoreRaised) (update_frame env cfg st tracks).2.
Proof.
  set (Q := λ p : (State * list Emission) * bool,
         if p.2
         then p.1.2 = []
              ∨ ∃ tr em, p.1.2 = tr ++ [em] ∧ em_outcome em = StoreRaised ∧
                         Forall (λ em, em_outcome em ≠ StoreRaised) tr
         else Forall (λ em, em_outcome em ≠ StoreRaised) p.1.2).
  change (Q (update_frame_exc env cfg st tracks)).
  assert (∀ acc v, Q (acc, false) → Q (loop2_body env acc v)) as H2.
  { intros acc v Hacc. unfold Q in Hacc. cbn [fst snd] in Hacc.
    unfold loop2_body, outcome_of, log_event.
    destruct (decide _); [done|]. destruct (crop_to_log _ _) as [c|]; [|done].
    destruct (imwrite_ok env c v Entry); cbv zeta.
    2: { unfold Q. cbn [fst snd]. apply Forall_app. split; [done|].
         by apply Forall_singleton. }
    destruct (insert_event_ok env v Entry); cbn [fst snd negb].
    { unfold Q. cbn [fst snd]. apply Forall_app. split; [done|].
      by apply Forall_singleton. }
    destruct (rollback_event_ok env v Entry); cbn [fst snd negb]; unfold Q; cbn [fst snd].
    - apply Forall_app. split; [done|]. by apply Forall_singleton.
    - right. eexists _, _. done. }
  assert (∀ acc item, Q (acc, false) → Q (loop4_body env cfg acc item)) as H4.
  { intros acc [v xd] Hacc. unfold Q in Hacc. cbn [fst snd] in Hacc.
    unfold loop4_body, outcome_of, log_event. cbv zeta.
    destruct (Qgtb _ _); [|done].
    destruct (imwrite_ok env (exit_crop xd) v Exit).
    2: { unfold Q. cbn [fst snd]. apply Forall_app. split; [done|].
         by apply Forall_singleton. }
    destruct (insert_event_ok env v Exit); cbn [fst snd negb].
    { unfold Q. cbn [fst snd]. apply Forall_app. split; [done|].
      by apply Forall_singleton. }
    destruct (rollback_event_ok env v Exit); cbn [fst snd negb]; unfold Q; cbn [fst snd].
    - apply Forall_app. split; [done|]. by apply Forall_singleton.
    - right. eexists _, _. done. }
  assert (Q (after_entries_exc env cfg st tracks)) as Hae.
  { unfold after_entries_exc. cbv zeta. destruct (loop1 env cfg st tracks).2.
    - by left.
    - apply for_each_inv_exc; [by constructor|]. intros acc v _. apply H2. }
  unfold update_frame_exc, after_churn_exc. cbv zeta.
  destruct (after_entries_exc env cfg st tracks) as [r2 b2]. cbn [fst snd].
  destruct b2; [done|]. cbn [fst snd].
  apply for_each_inv_exc; [done|]. intros acc item _. apply H4.
Qed.

Lemma raised_emission_last env cfg st tracks em :
  em ∈ (update_frame env cfg st tracks).2 → em_outcome em = StoreRaised →
  ¬ returns env cfg st tracks ∧
  ∃ tr, (update_frame env cfg st tracks).2 = tr ++ [em].
Proof.
  intros Hem Hout. pose proof (raised_emission env cfg st tracks) as H.
  unfold returns. destruct (update_frame_exc env cfg st tracks).2.
  - split; [done|]. destruct H as [Hnil|(tr & em' & Htr & Hout' & Hclean)].
    + rewrite Hnil in Hem. by apply elem_of_nil in Hem.
    + exists tr. rewrite Htr in Hem |- *. apply elem_of_app in Hem as [Hem|Hem].
      * rewrite Forall_forall in Hclean. by destruct (Hclean em Hem).
      * apply list_elem_of_singleton in Hem. by subst.
  - rewrite Forall_forall in H. by destruct (H em Hem).
Qed.

(** The state a raising emission leaves: the visitor of the entry is not
    in [logged_entry_this_visit]; the visitor of the exit is still pending,
    with the crop of the emission and its timeout elapsed, and has no
    binding. *)
Lemma raised_emission_state env cfg st tracks em :
  em ∈ (update_frame env cfg st tracks).2 → em_outcome em = StoreRaised →
  match em_kind em with
  | Entry => em_visitor em ∉ logged_entry_this_visit (update_frame env cfg st tracks).1
  | Exit =>
      ∃ xd, pending_exit (update_frame env cfg st tracks).1 !! em_visitor em = Some xd ∧
            exit_crop xd = em_crop em ∧ expired env cfg xd = true ∧
            ¬ tracked (update_frame env cfg st tracks).1 (em_visitor em)
  end.
Proof.
  intros Hem Hout.
  destruct (raised_emission_last env cfg st tracks em Hem Hout) as (Hnr & tr & Htr).
  destruct (update_frame_ends env cfg st tracks)
    as [(Hr & _)
       |[(_ & pre & d & post & _ & _ & _ & Hae & _ & Heq)
        |[(_ & _ & l1 & v & l2 & Hl & Hv & Hae & _ & Heq)
         |(_ & _ & _ & _ & l1 & v & xd & l2 & Hl & Hv & Heq)]]]; [done| | |].
  - rewrite Heq, Hae in Htr. by destruct tr.
  - destruct (loop2_body_raised env _ v Hv) as (Hnl & c & _ & _ & Hb & _).
    rewrite Heq, Hae, Hb in Htr |- *. cbn [fst snd] in Htr |- *.
    apply app_inj_tail in Htr as [_ <-]. done.
  - destruct (loop4_body_raised env cfg _ v xd Hv) as (Hexp & _ & Hb & _).
    rewrite Heq, Hb in Htr |- *. cbn [fst snd] in Htr |- *.
    apply app_inj_tail in Htr as [_ <-]. cbn [em_kind em_visitor em_crop].
    assert (NoDup (l1 ++ (v, xd) :: l2).*1) as Hnd.
    { rewrite <- Hl. apply NoDup_fst_map_to_list. }
    assert (pending_exit (calm_after_churn env cfg st tracks).1 !! v = Some xd) as Hp.
    { apply elem_of_map_to_list. rewrite Hl. apply elem_of_app. right. left. }
    rewrite fmap_app, fmap_cons in Hnd. apply NoDup_app in Hnd as (_ & Hdis & _).
    assert (v ∉ l1.*1) as Hv1.
    { intros Hin. apply (Hdis v Hin). left. }
    destruct (loop4_other env cfg l1 (calm_after_churn env cfg st tracks) v Hv1) as (Hp1 & _).
    exists xd. split; [by rewrite Hp1|]. split; [done|]. split; [done|].
    intros (t & td & Hlk & Hvid).
    destruct (loop4_frame env cfg l1 (calm_after_churn env cfg st tracks)) as [Ha _].
    rewrite Ha in Hlk. apply frame_r3_active_visible in Hlk as [_ Hvis].
    rewrite Hvid in Hvis. apply (frame_r3_visible env cfg st tracks) in Hvis. congruence.
Qed.

(** Whether an iteration of LOOP 1 raises does not depend on the sink. *)
Lemma loop1_body_flag_sim env cfg sc sc' det :
  memory (sc_state sc) = memory (sc_state sc') →
  (loop1_body env cfg sc det).2 = (loop1_body (reliable env) cfg sc' det).2.
Proof.
  intros (Ha & _ & _ & Hv)%memory_eq. destruct det as [t c].
  unfold loop1_body. rewrite <- Ha, <- Hv.
  change (resolve_new (reliable env) cfg (Visitors (sc_state sc)) c)
    with (resolve_new env cfg (Visitors (sc_state sc)) c).
  destruct (active_tracks (sc_state sc) !! t); [done|].
  by destruct (resolve_new env cfg (Visitors (sc_state sc)) c) as [[[v|] rows] raised].
Qed.

Lemma loop1_flag_sim env cfg st st' tracks :
  memory st = memory st' →
  (loop1 env cfg st tracks).2 = (loop1 (reliable env) cfg st' tracks).2.
Proof.
  intros Hm. unfold loop1. generalize (default [] tracks). intros l.
  assert (∀ sc sc',
    memory (sc_state sc) = memory (sc_state sc') →
    current_track_ids sc = current_track_ids sc' →
    current_visitor_ids_in_frame sc = current_visitor_ids_in_frame sc' →
    (for_each (loop1_body env cfg) sc l).2
    = (for_each (loop1_body (reliable env) cfg) sc' l).2) as Hgen.
  { induction l as [|det l IH]; intros sc sc' H1 H2 H3; cbn [for_each]; [done|].
    cbv zeta. rewrite <- (loop1_body_flag_sim env cfg sc sc' det H1).
    destruct (loop1_body env cfg sc det).2 eqn:E.
    - rewrite E. symmetry. rewrite <- (loop1_body_flag_sim env cfg sc sc' det H1). done.
    - destruct (loop1_body_sim env cfg sc sc' det H1 H2 H3) as (? & ? & ?).
      apply IH; by rewrite !loop1_body_fst. }
  by apply Hgen.
Qed.

(** With a sink that never fails only LOOP 1 can raise. *)
Lemma reliable_sink_returns env cfg st tracks :
  (loop1 (reliable env) cfg st tracks).2 = false → returns (reliable env) cfg st tracks.
Proof.
  intros H1.
  assert (∀ acc v, (loop2_body (reliable env) acc v).2 = false) as H2.
  { intros acc v. unfold loop2_body, log_event.
    destruct (decide _); [done|]. by destruct (crop_to_log _ _). }
  assert (∀ acc item, (loop4_body (reliable env) cfg acc item).2 = false) as H4.
  { intros acc [v xd]. unfold loop4_body, log_event. cbv zeta. by destruct (Qgtb _ _). }
  unfold returns, update_frame_exc, after_churn_exc, after_entries_exc. cbv zeta.
  rewrite H1, (for_each_never _ _ _ H2). cbn [fst snd]. by apply for_each_never.
Qed.

(** A run all of whose calls return and in which no image save of an entry
    fails goes the way of the same run with a sink that never fails. *)
Lemma run_sim_exc cfg frames st st' :
  memory st = memory st' →
  completes cfg st frames →
  Forall entry_saved (run cfg st frames).2 →
  completes cfg st' (reliably frames) ∧
  memory (run cfg st frames).1 = memory (run cfg st' (reliably frames)).1 ∧
  skeleton (run cfg st frames).2 = skeleton (run cfg st' (reliably frames)).2.
Proof.
  revert st st'. induction frames as [|f frames IH]; intros st st' Hm Hc Hall; [done|].
  cbn [run completes reliably fmap list_fmap f_env f_tracks fst snd] in *.
  destruct Hc as [Hr Hc]. rewrite Forall_app in Hall. destruct Hall as [Hall1 Hall2].
  destruct (returns_calm _ _ _ _ Hr) as (H1 & _ & _ & Hu).
  assert (returns (reliable (f_env f)) cfg st' (f_tracks f)) as Hr'.
  { apply reliable_sink_returns.
    rewrite <- (loop1_flag_sim (f_env f) cfg st st' (f_tracks f) Hm). by rewrite H1. }
  destruct (returns_calm _ _ _ _ Hr') as (_ & _ & _ & Hu').
  assert (memory (update_frame (f_env f) cfg st (f_tracks f)).1
            = memory (update_frame (reliable (f_env f)) cfg st' (f_tracks f)).1 ∧
          skeleton (update_frame (f_env f) cfg st (f_tracks f)).2
            = skeleton (update_frame (reliable (f_env f)) cfg st' (f_tracks f)).2)
    as [Hm1 Hsk1].
  { rewrite Hu, Hu'. apply update_frame_sim; [done|]. by rewrite <- Hu. }
  destruct (IH _ _ Hm1 Hc Hall2) as (Hc2 & Hm2 & Hsk2).
  split; [done|]. split; [exact Hm2|]. unfold skeleton in *. by rewrite !fmap_app, Hsk1, Hsk2.
Qed.

Lemma at_most_one_eq {A : Type} (l : list A) x y :
  (length l ≤ 1)%nat → x ∈ l → y ∈ l → x = y.
Proof.
  destruct l as [|a [|b l]]; simpl; intros Hlen Hx Hy; [by apply elem_of_nil in Hx| |lia].
  apply list_elem_of_singleton in Hx, Hy. congruence.
Qed.

(** A visitor whose entry a call emits is not in [logged_entry_this_visit]
    after the call when the image save of the entry failed or the rollback
    of its INSERT raised. *)
Lemma unlogged_entry env cfg st tracks em :
  em ∈ (update_frame env cfg st tracks).2 → em_kind em = Entry →
  em_outcome em = ImageFailed ∨ em_outcome em = StoreRaised →
  em_visitor em ∉ logged_entry_this_visit (update_frame env cfg st tracks).1.
Proof.
  intros Hem Hk [Hout|Hout].
  2: { pose proof (raised_emission_state env cfg st tracks em Hem Hout) as H.
       by rewrite Hk in H. }
  pose proof (trace_prefix env cfg st tracks) as Hpre.
  assert (em ∈ (calm_update_frame env cfg st tracks).2) as Hcalm.
  { by eapply prefix_elem_of. }
  pose proof (calm_emissions_have_causes env cfg st tracks em Hcalm) as Hcause.
  cbv zeta in Hcause. rewrite Hk in Hcause. destruct Hcause as (_ & Hnl & _).
  intros Hin.
  destruct (logged_follows_emissions env cfg st tracks (em_visitor em)) as [_ Hentry].
  destruct (Hentry Hnl Hin) as (em' & Hem' & Hv' & _ & Hsaved).
  assert (em' = em) as ->.
  { apply (at_most_one_eq (events_of (em_visitor em) (update_frame env cfg st tracks).2)).
    - etrans; [|apply (calm_one_emission_per_visitor_and_frame env cfg st tracks)].
      apply prefix_length. apply prefix_events_of, Hpre.
    - unfold events_of. by apply list_elem_of_filter.
    - unfold events_of. by apply list_elem_of_filter. }
  by apply Hsaved.
Qed.

(** A call that returns emits the entry of every visible visitor that is
    not in [logged_entry_this_visit]. *)
Lemma entry_retried env cfg st tracks v :
  returns env cfg st tracks →
  v ∈ visible_visitors env cfg st tracks → v ∉ logged_entry_this_visit st →
  ∃ em, em ∈ (update_frame env cfg st tracks).2 ∧ em_visitor em = v ∧ em_kind em = Entry.
Proof.
  intros Hr Hv Hnl. apply visible_sub_calm in Hv.
  destruct (returns_calm env cfg st tracks Hr) as (_ & _ & _ & ->).
  destruct (calm_entry_deduplication cfg) as [Hframe _].
  destruct (Hframe env st tracks v Hv) as (Hiff & _). by apply Hiff.
Qed.

(** A call that returns emits the exit of a pending visitor without
    bindings that the frame does not show and whose timeout has elapsed. *)
Lemma exit_retried env cfg st tracks v xd :
  returns env cfg st tracks →
  v ∉ visible_visitors env cfg st tracks → ¬ tracked st v →
  pending_exit st !! v = Some xd → expired env cfg xd = true →
  ∃ em, em ∈ (update_frame env cfg st tracks).2 ∧ em_visitor em = v ∧ em_kind em = Exit ∧
        em_crop em = exit_crop xd.
Proof.
  intros Hr Hv Hunt Hp Hexp.
  destruct (returns_visible env cfg st tracks Hr) as [Hvis _]. rewrite Hvis in Hv.
  destruct (returns_calm env cfg st tracks Hr) as (_ & _ & _ & ->).
  destruct (frame_absent env cfg st tracks v Hv Hunt) as [Hp3 _]. rewrite Hp in Hp3.
  destruct (frame_expiry env cfg st tracks v xd Hv Hp3 Hexp) as (He & _).
  exists {| em_visitor := v; em_kind := Exit; em_crop := exit_crop xd;
            em_outcome := outcome_of env v Exit (exit_crop xd) |}.
  split; [|done].
  eapply (list_elem_of_filter (λ em, em_visitor em = v)).
  fold (events_of v (calm_update_frame env cfg st tracks).2).
  rewrite He. apply list_elem_of_here.
Qed.

(** C5, as amended.  Only the emissions that went through are rows of
    the Events table, however the calls of the run end.  In a run all of
    whose calls return and in which no image save of an entry fails, the
    tracker ends in the memory, and makes the emissions, of the same run
    with a sink that never fails, which returns from every call too: an
    INSERT into Events that fails and is rolled back, and a failed save of
    an exit image, are not retried and change nothing in memory.  An entry
    whose image save fails is not recorded either, but its visitor stays out
    of [logged_entry_this_visit], and the entry is emitted again by the next
    call that returns from a frame that shows the visitor.  An emission
    whose INSERT fails and whose rollback raises is the last thing its call
    does: the call does not return, the visitor of an entry stays out of
    [logged_entry_this_visit] and the visitor of an exit stays pending, and
    the event is emitted again by the next call that returns from a frame
    that shows the visitor (entry) or does not show it (exit, the clock not
    running backwards). *)
Theorem sink_failure_policy cfg st frames :
  let r := run cfg st frames in
  let r' := run cfg st (reliably frames) in
  Events r.1 = Events st ++ recorded_rows r.2 ∧
  (completes cfg st frames → Forall entry_saved r.2 →
   completes cfg st (reliably frames) ∧
   memory r.1 = memory r'.1 ∧ skeleton r.2 = skeleton r'.2) ∧
  (∀ env st0 tracks em,
     em ∈ (update_frame env cfg st0 tracks).2 →
     em_kind em = Entry → em_outcome em = ImageFailed →
     let st1 := (update_frame env cfg st0 tracks).1 in
     em_visitor em ∉ logged_entry_this_visit st1 ∧
     ∀ env2 tracks2,
       returns env2 cfg st1 tracks2 →
       em_visitor em ∈ visible_visitors env2 cfg st1 tracks2 →
       ∃ em2, em2 ∈ (update_frame env2 cfg st1 tracks2).2 ∧
              em_visitor em2 = em_visitor em ∧ em_kind em2 = Entry) ∧
  (∀ env st0 tracks em,
     em ∈ (update_frame env cfg st0 tracks).2 → em_outcome em = StoreRaised →
     let st1 := (update_frame env cfg st0 tracks).1 in
     let v := em_visitor em in
     ¬ returns env cfg st0 tracks ∧
     (∃ tr, (update_frame env cfg st0 tracks).2 = tr ++ [em]) ∧
     match em_kind em with
     | Entry =>
         v ∉ logged_entry_this_visit st1 ∧
         ∀ env2 tracks2,
           returns env2 cfg st1 tracks2 →
           v ∈ visible_visitors env2 cfg st1 tracks2 →
           ∃ em2, em2 ∈ (update_frame env2 cfg st1 tracks2).2 ∧
                  em_visitor em2 = v ∧ em_kind em2 = Entry
     | Exit =>
         (∃ xd, pending_exit st1 !! v = Some xd ∧ exit_crop xd = em_crop em) ∧
         ∀ env2 tracks2,
           returns env2 cfg st1 tracks2 →
           v ∉ visible_visitors env2 cfg st1 tracks2 →
           sweep_time env <= sweep_time env2 →
           ∃ em2, em2 ∈ (update_frame env2 cfg st1 tracks2).2 ∧
                  em_visitor em2 = v ∧ em_kind em2 = Exit ∧ em_crop em2 = em_crop em
     end).
Proof.
  intros r r'. split; [apply run_events_exc|]. split; [|split].
  - intros Hc Hall. by apply run_sim_exc.
  - intros env st0 tracks em Hem Hkind Hout st1.
    assert (em_visitor em ∉ logged_entry_this_visit st1) as Hnot.
    { apply unlogged_entry; [done|done|by left]. }
    split; [done|]. intros env2 tracks2 Hr2 Hv2. by apply entry_retried.
  - intros env st0 tracks em Hem Hout st1 v.
    destruct (raised_emission_last env cfg st0 tracks em Hem Hout) as [Hnr Hlast].
    split; [done|]. split; [done|].
    pose proof (raised_emission_state env cfg st0 tracks em Hem Hout) as Hstate.
    fold st1 v in Hstate. destruct (em_kind em).
    + split; [done|]. intros env2 tracks2 Hr2 Hv2. by apply entry_retried.
    + destruct Hstate as (xd & Hp & Hcrop & Hexp & Hunt).
      split; [by exists xd|]. intros env2 tracks2 Hr2 Hv2 Hclock. rewrite <- Hcrop.
      apply exit_retried; try done.
      apply expired_after_deadline. apply expired_after_deadline in Hexp. lra.
Qed.

Lemma sink_failure_policy_witness :
  let frames := [ {| f_env := world 0 true false true; f_tracks := Some [(1%Z, 7%N)] |};
                  sees_nobody 1;
                  {| f_env := world 5 false true true; f_tracks := None |} ] in
  Events (run default_config (init []) frames).1 = [] ∧
  memory (run default_config (init []) frames).1
    = memory (run default_config (init []) (reliably frames)).1 ∧
  ¬ returns (disconnected (world 5 true true true)) default_config
      (run default_config one_visitor [sees_nobody 1]).1 None.
Proof.
  intros frames.
  destruct (sink_failure_policy default_config (init []) frames) as (Hev & Hsim & _ & Hraised).
  split; [|split].
  - rewrite Hev. reflexivity.
  - apply Hsim.
    + repeat split; reflexivity.
    + vm_compute.
      repeat constructor; intros H1 H2; first [discriminate H1 | discriminate H2].
  - apply (Hraised (disconnected (world 5 true true true))
             (run default_config one_visitor [sees_nobody 1]).1 None
             (exit_100 StoreRaised)); [|reflexivity].
    change (update_frame (disconnected (world 5 true true true)) default_config
              (run default_config one_visitor [sees_nobody 1]).1 None).2
      with [exit_100 StoreRaised].
    apply list_elem_of_here.
Defined.

Lemma entry_image_failure_is_retried :
  let frames := [sees_unsaved 0 [(1%Z, 7%N)]; sees 1 [(1%Z, 7%N)]] in
  completes default_config (init []) frames ∧
  logged_entry_this_visit (run default_config (init []) (take 1 frames)).1 = ∅ ∧
  logged_entry_this_visit (run default_config (init []) (reliably (take 1 frames))).1
    = {[100%N]} ∧
  (run default_config (init []) frames).2
    = [entry_100 ImageFailed; entry_100 Recorded] ∧
  (run default_config (init []) (reliably frames)).2 = [entry_100 Recorded] ∧
  (run default_config (init [])
     [sees_unsaved 0 [(1%Z, 7%N)]; sees_offline 1 (Some [(1%Z, 7%N)]); sees 2 [(1%Z, 7%N)]]).2
    = [entry_100 ImageFailed; entry_100 StoreRaised; entry_100 Recorded] ∧
  (run default_config one_visitor [sees_nobody 1; sees_offline 5 None; sees_nobody 6]).2
    = [exit_100 StoreRaised; exit_100 Recorded].
Proof. split; [repeat split; reflexivity|]. vm_compute. done. Qed.

(** ** The loop of main *)


Lemma main_loop_frames cfg frame_skip st video :
  frame_skip ≠ 0%Z →
  Forall (λ shot, shot_quit shot = false) video →
  ∀ n : nat,
    main_loop cfg frame_skip (Z.of_nat n) st video
    = Some (run cfg st (omap id (imap (λ i, frame_at frame_skip (n + i)) video))).
Proof.
  intros Hne Hquit. revert st. induction Hquit as [|shot rest Hq _ IH]; intros st n; [done|].
  cbn [main_loop]. rewrite imap_cons.
  assert (imap ((λ i, frame_at frame_skip (n + i)) ∘ S) rest
          = imap (λ i, frame_at frame_skip (S n + i)) rest) as ->.
  { apply imap_ext. intros i x _. simpl. f_equal. lia. }
  replace (Z.of_nat n + 1)%Z with (Z.of_nat (S n)) by lia.
  destruct (Z.eqb_spec frame_skip 0) as [?|_]; [done|].
  unfold frame_at at 1. rewrite Nat.add_0_r.
  destruct (Z.of_nat n mod frame_skip =? 0)%Z; simpl; [|apply IH].
  rewrite Hq. destruct (shot_tracking shot) as [| |tracks]; simpl; try apply IH.
  by rewrite IH.
Qed.

(** X14.  As long as nobody presses [q], [main] drives the tracker through
    exactly the frames whose index is a multiple of [frame_skip] and for
    which the detector returned boxes, in order.  A frame on which the
    detector fails is lost: its turn is not given to the next frame. *)
Theorem main_tracks_every_nth_frame cfg frame_skip st video :
  frame_skip ≠ 0%Z →
  Forall (λ shot, shot_quit shot = false) video →
  main_loop cfg frame_skip 0 st video
  = Some (run cfg st (omap id (imap (frame_at frame_skip) video))).
Proof.
  intros Hne Hquit. apply (main_loop_frames cfg frame_skip st video Hne Hquit 0).
Qed.

Lemma main_tracks_every_nth_frame_witness :
  main_loop default_config 2 0 (init []) three_shots
  = Some (run default_config (init []) [sees 0 [(1%Z, 7%N)]; sees 2 [(2%Z, 9%N)]]).
Proof.
  apply (main_tracks_every_nth_frame default_config 2 (init []) three_shots);
    [done|by repeat constructor].
Defined.

Lemma mod_opp_zero a m : (a mod (- m) =? 0)%Z = (a mod m =? 0)%Z.
Proof.
  pose proof (Z.eq_mod_opp m a 0) as Hiff. rewrite !Zmod_0_l in Hiff.
  destruct (Z.eqb_spec (a mod m) 0) as [H|H]; destruct (Z.eqb_spec (a mod - m) 0) as [H'|H'];
    try done; exfalso; tauto.
Qed.

(** X15.  A negative [frame_skip] is as good as its absolute value: [main]
    does the same with [- frame_skip] as with [frame_skip]. *)
Theorem negative_frame_skip_counts_alike cfg frame_skip frame_count st video :
  main_loop cfg (- frame_skip) frame_count st video
  = main_loop cfg frame_skip frame_count st video.
Proof.
  revert frame_count st. induction video as [|shot rest IH]; intros n st; [done|].
  cbn [main_loop]. rewrite mod_opp_zero.
  assert ((- frame_skip =? 0)%Z = (frame_skip =? 0)%Z) as ->.
  { destruct (Z.eqb_spec frame_skip 0), (Z.eqb_spec (- frame_skip) 0); try done; lia. }
  destruct (frame_skip =? 0)%Z; [done|].
  destruct (negb _); [apply IH|].
  destruct (shot_tracking shot) as [| |tracks]; [apply IH| |].
  - destruct (shot_quit shot); [done|apply IH].
  - destruct (shot_quit shot); [done|]. by rewrite IH.
Qed.

(** ** The image files *)

Lemma append_nonempty (a b : string) : b ≠ EmptyString → a +:+ b ≠ EmptyString.
Proof. destruct a; simpl; [done|]. intros _ H; discriminate H. Qed.

Lemma path_join_nonempty (a b : string) :
  b ≠ EmptyString → path_join a b ≠ EmptyString.
Proof.
  intros Hb. unfold path_join.
  destruct (startswith_sep b); [done|].
  destruct (bool_decide (a = EmptyString) || endswith_sep a).
  - by apply append_nonempty.
  - apply append_nonempty. intros H; discriminate H.
Qed.

Lemma startswith_sep_filename (v r : string) :
  startswith_sep (v +:+ "_" +:+ r) = startswith_sep v.
Proof. by destruct v. Qed.

Lemma append_cancel (a b c : string) : a +:+ b = a +:+ c → b = c.
Proof. induction a as [|x a IH]; simpl; [done|]. intros [= H]. auto. Qed.

Lemma path_join_filename (a v r r' : string) :
  path_join a (v +:+ "_" +:+ r) = path_join a (v +:+ "_" +:+ r') → r = r'.
Proof.
  unfold path_join. rewrite !startswith_sep_filename.
  destruct (startswith_sep v).
  - intros H. apply append_cancel in H. by injection H.
  - destruct (bool_decide (a = EmptyString) || endswith_sep a); intros H.
    + apply append_cancel, append_cancel in H. by injection H.
    + do 3 apply append_cancel in H. by injection H.
Qed.

(** X18. A path that [_save_cropped_face] returns is never the empty string,
    whatever the configured directory, the clock renderings and the text of
    the visitor id are: the tests [if img_path:] of [update_frame] (lines 152
    and 187) skip [log_event] exactly when the save returned [None]. *)
Theorem saved_path_is_truthy (entry_log_dir : string) (sv : Saving)
    (visitor_id : string) (event_type : EventKind) :
  _save_cropped_face entry_log_dir sv visitor_id event_type ≠ Some EmptyString.
Proof.
  unfold _save_cropped_face. destruct (written sv); [|done].
  intros [= H]. revert H. apply path_join_nonempty, append_nonempty.
  intros H; discriminate H.
Qed.

(** X19. The entry image and the exit image of a visitor are different
    files: two saves into the same dated directory, one for an entry and one
    for an exit of the same visitor id, never return the same path, even when
    both happen at the same clock reading. *)
Theorem entry_and_exit_images_differ (entry_log_dir : string) (sv sv' : Saving)
    (visitor_id p p' : string) :
  today_str sv = today_str sv' →
  _save_cropped_face entry_log_dir sv visitor_id Entry = Some p →
  _save_cropped_face entry_log_dir sv' visitor_id Exit = Some p' →
  p ≠ p'.
Proof.
  unfold _save_cropped_face. intros Hday.
  destruct (written sv); [|done]. destruct (written sv'); [|done].
  intros [= <-] [= <-] H. rewrite Hday in H.
  apply path_join_filename in H. discriminate H.
Qed.

Lemma entry_and_exit_images_differ_witness :
  "logs/entries/2025-01-02/6f1c_entry_20250102_101500_000123.jpg"
  ≠ "logs/entries/2025-01-02/6f1c_exit_20250102_101500_000123.jpg".
Proof.
  apply (entry_and_exit_images_differ "logs/entries"
           {| today_str := "2025-01-02"; timestamp_str := "20250102_101500_000123";
              written := true |}
           {| today_str := "2025-01-02"; timestamp_str := "20250102_101500_000123";
              written := true |}
           "6f1c"); reflexivity.
Defined.
